(** * sparcur command line: a model of the synchronisation commands

    This development embeds the control flow of [sparcur/cli.py]
    ([Options], [Main.clone], [Main.pull], [Main.refresh], [Main.fetch],
    [Main.find], [Main.stash] and [Fix.duplicates]) and states the
    properties of the synchronisation engine over that embedding.

    Python statements become computations in a state-and-exception monad:
    the state carries the external world (filesystem, remote), the log
    records, the standard output and a trace of the calls made to the
    path/cache/remote layer; an exception leaves the state as it was when
    it was raised, as in Python. *)

From Stdlib Require Import ZArith List String Ascii Bool Lia PeanoNat.
From Stdlib Require Import Permutation Sorted DecimalString.
Import ListNotations.

Local Open Scope string_scope.
Local Open Scope list_scope.

(** ** Exceptions, log records, outcomes *)

(** The exception classes the commands raise or catch.  [OSError] stands
    for an [OSError] that is not a [FileNotFoundError]; the [except]
    clauses of the source tell the two apart by class, and an [OSError]
    further by its [errno]. *)
Inductive exn : Type :=
| AttributeError (attr : string)
| UnboundLocalError (var : string)
| NameError (var : string)
| AssertionError (msg : string)
| FileNotFoundError (errno : Z)
| OSError (errno : Z)
| ValueError (msg : string)
| TypeError (msg : string)
| DirectoryNotEmptyError
| MissingSecretError
| SystemExit (code : Z)
| OtherError (name : string).

(** [errno.ENOTEMPTY], [errno.ENOENT] and [errno.EEXIST] on Linux. *)
Definition ENOTEMPTY : Z := 39.
Definition ENOENT : Z := 2.
Definition EEXIST : Z := 17.

Definition exn_str (e : exn) : string :=
  match e with
  | AttributeError a => "AttributeError: " ++ a
  | UnboundLocalError v => "UnboundLocalError: " ++ v
  | NameError v => "NameError: " ++ v
  | AssertionError m => "AssertionError: " ++ m
  | FileNotFoundError _ => "FileNotFoundError"
  | OSError _ => "OSError"
  | ValueError m => "ValueError: " ++ m
  | TypeError m => "TypeError: " ++ m
  | DirectoryNotEmptyError => "DirectoryNotEmptyError"
  | MissingSecretError => "MissingSecretError"
  | SystemExit _ => "SystemExit"
  | OtherError n => n
  end.

Inductive level : Type := DEBUG | INFO | WARNING | ERROR | CRITICAL.

Inductive outcome (A : Type) : Type :=
| Ok (a : A)
| Raise (e : exn).
Arguments Ok {A} a.
Arguments Raise {A} e.

(** ** Paths *)

(** A path is the list of its components below the filesystem root, so
    that [len(p.parts)] is one more than the length of the list. *)
Definition path : Type := list string.

Definition path_eqb (p q : path) : bool :=
  if list_eq_dec string_dec p q then true else false.

Definition as_posix (p : path) : string :=
  "/" ++ String.concat "/" p.

(** Calls into the path, cache and remote layer that the properties
    below speak about. *)
Inductive event : Type :=
| EvRemoteRefresh (p : path)
| EvUpdateCache (p : path)
| EvCacheRefresh (p : path)
| EvTransfer (p : path)
| EvChdir (p : path).

(** ** The monad *)

Record St (W : Type) : Type := mkSt {
  world : W;
  logs : list (level * string);
  stdout : list string;
  trace : list event
}.
Arguments mkSt {W} _ _ _ _.
Arguments world {W} _.
Arguments logs {W} _.
Arguments stdout {W} _.
Arguments trace {W} _.

Definition M (W A : Type) : Type := St W -> outcome A * St W.

Definition ret {W A} (a : A) : M W A := fun s => (Ok a, s).

Definition bind {W A B} (c : M W A) (k : A -> M W B) : M W B :=
  fun s => match c s with
           | (Ok a, s') => k a s'
           | (Raise e, s') => (Raise e, s')
           end.

Definition raise {W A} (e : exn) : M W A := fun s => (Raise e, s).

(** [try: c except: h] where [h] decides, per exception, whether it
    handles it ([Some]) or lets it through ([None]). *)
Definition try_except {W A} (c : M W A) (h : exn -> option (M W A)) : M W A :=
  fun s => match c s with
           | (Ok a, s') => (Ok a, s')
           | (Raise e, s') =>
               match h e with
               | Some k => k s'
               | None => (Raise e, s')
               end
           end.

Declare Scope py_scope.
Delimit Scope py_scope with py.
Notation "x <- c ;; k" := (bind c (fun x => k))
  (at level 61, c at next level, right associativity) : py_scope.
Notation "c ;; k" := (bind c (fun _ => k))
  (at level 61, right associativity) : py_scope.
Local Open Scope py_scope.

Definition get_world {W} : M W W := fun s => (Ok (world s), s).

Definition set_world {W} (w : W) : M W unit :=
  fun s => (Ok tt, mkSt w (logs s) (stdout s) (trace s)).

Definition log_msg {W} (l : level) (m : string) : M W unit :=
  fun s => (Ok tt, mkSt (world s) (logs s ++ [(l, m)]) (stdout s) (trace s)).

Definition print {W} (m : string) : M W unit :=
  fun s => (Ok tt, mkSt (world s) (logs s) (stdout s ++ [m]) (trace s)).

Definition emit {W} (e : event) : M W unit :=
  fun s => (Ok tt, mkSt (world s) (logs s) (stdout s) (trace s ++ [e])).

(** A pure function that may raise. *)
Definition of_outcome {W A} (o : outcome A) : M W A := fun s => (o, s).

(** [sys.exit(n)] raises [SystemExit]. *)
Definition sys_exit {W A} (n : Z) : M W A := raise (SystemExit n).

(** A [for] loop whose body may raise. *)
Fixpoint for_each {W A} (l : list A) (body : A -> M W unit) : M W unit :=
  match l with
  | [] => ret tt
  | x :: rest => body x ;; for_each rest body
  end.

(** A list comprehension [[f(x) for x in l]] whose element expression may
    raise. *)
Fixpoint map_m {W A B} (f : A -> M W B) (l : list A) : M W (list B) :=
  match l with
  | [] => ret []
  | x :: rest => y <- f x ;; ys <- map_m f rest ;; ret (y :: ys)
  end.

(** [[x for x in l if f(x)]]. *)
Fixpoint filter_m {W A} (f : A -> M W bool) (l : list A) : M W (list A) :=
  match l with
  | [] => ret []
  | x :: rest =>
      b <- f x ;; ys <- filter_m f rest ;;
      ret (if b then x :: ys else ys)
  end.

(** ** Sorting

    [sorted(l, key=k)] is a stable sort: elements with equal keys keep
    their order.  [leb] is the order on keys; [reverse=True] is the same
    sort under the converse order, which keeps stability as Python does. *)
Section Sorting.
Context {A K : Type} (leb : K -> K -> bool) (key : A -> K).

Fixpoint insert_sorted (x : A) (l : list A) : list A :=
    match l with
    | [] => [x]
    | y :: rest =>
        if leb (key x) (key y) then x :: y :: rest
        else y :: insert_sorted x rest
    end.

Fixpoint sorted (l : list A) : list A :=
    match l with
    | [] => []
    | x :: rest => insert_sorted x (sorted rest)
    end.
End Sorting.

Definition sorted_reverse {A K} (leb : K -> K -> bool) (key : A -> K)
  (l : list A) : list A :=
  sorted (fun a b => leb b a) key l.

(** ** Options *)

(** The command line after docopt, with [int(...)] already applied to the
    numeric arguments. *)
Record Args : Type := mkArgs {
  arg_limit : Z;                (* --limit=SIZE_MB, default 2 *)
  arg_level : option Z;         (* --level=LEVEL *)
  arg_rate : option Z;          (* --rate=HZ, default 5 *)
  opt_fetch : bool;
  opt_refresh : bool;
  opt_pretend : bool;
  opt_exists : bool;
  opt_verbose : bool;
  opt_debug : bool;
  opt_restore : bool;
  opt_empty : bool;
  opt_name : list string;       (* --name=<PAT>... *)
  opt_project_id : option string
}.

Module Options.
(** [Options.limit]: the function falls off its end, returning [None],
    when the argument is negative. *)
Definition limit (args : Args) : option Z :=
  let l := arg_limit args in
  if (l >=? 0)%Z then Some l else None.

Definition level (args : Args) : option Z := arg_level args.

Definition rate (args : Args) : option Z := arg_rate args.
End Options.

(** Truth value of [self.options.limit] in [if self.options.limit:]. *)
Definition truthy_limit (l : option Z) : bool :=
  match l with
  | Some z => negb (z =? 0)%Z
  | None => false
  end.

(** ** Cached metadata *)

(** The fields of [PathMeta] the commands read.  [updated] stands for
    [updated.timestamp()], the remote-side modification time, on a scale
    of whole units. *)
Record PathMeta : Type := mkMeta {
  meta_id : option string;
  meta_size : option Z;
  meta_updated : option Z;
  meta_file_id : option Z;
  meta_checksum : option string;
  meta_old_id : option string
}.

(** [bool(meta)]: a [PathMeta] with no field set is false. *)
Definition meta_bool (m : PathMeta) : bool :=
  match meta_id m, meta_size m, meta_updated m,
        meta_file_id m, meta_checksum m, meta_old_id m with
  | None, None, None, None, None, None => false
  | _, _, _, _, _, _ => true
  end.

(** A cache object: [cache.id] and [cache.meta] ([None] when the path
    carries no metadata record). *)
Record Cache : Type := mkCache {
  cache_id : string;
  cache_meta : option PathMeta
}.

(** [size.mb < limit] for a [FileSize] in bytes and a limit in
    megabytes: [size / 1024 ** 2 < limit], on the exact quotient. *)
Definition mb_lt (size limit : Z) : bool := (size <? limit * 1048576)%Z.

(** [size.mb > limit]. *)
Definition mb_gt (size limit : Z) : bool := (limit * 1048576 <? size)%Z.

(** What a local path is on disk. *)
Inductive Kind : Type :=
| KDir
| KFile (st_size : Z)
| KLink            (* broken symlink: known to the remote, not fetched *)
| KAbsent.

Record PathState : Type := mkPathState {
  kind : Kind;
  cache : option Cache
}.

Definition is_dir (s : PathState) : bool :=
  match kind s with KDir => true | _ => false end.

Definition path_exists (s : PathState) : bool :=
  match kind s with KDir | KFile _ => true | _ => false end.

Definition is_broken_symlink (s : PathState) : bool :=
  match kind s with KLink => true | _ => false end.

(** [p.size] of an existing file. *)
Definition st_size_of (s : PathState) : Z :=
  match kind s with KFile n => n | _ => 0%Z end.

(** The local tree as the commands [find] and [fetch] see it. *)
Definition Tree : Type := path -> PathState.

Definition tree_set (t : Tree) (p : path) (s : PathState) : Tree :=
  fun q => if path_eqb q p then s else t q.

(** Attribute access on a value that may be [None]. *)
Definition attr {W A} (name : string) (o : option A) : M W A :=
  match o with
  | Some a => ret a
  | None => raise (AttributeError name)
  end.

(** ** The layers below the command line

    [pyontutils.utils.Async] runs the deferred calls of a batch in an order
    of its own choosing and hands the results back in request order; the
    order is a parameter.  An exception raised by a call ends the batch. *)
Class Scheduler : Type := {
  schedule : forall A : Type, list A -> list A;
  schedule_perm : forall (A : Type) (l : list A), Permutation l (schedule A l)
}.

(** Rendering of tables and metadata ([AsciiTable], [FileSize.hr],
    [PathMeta.as_pretty]) as seen from a world [W]; rendering the rows of
    [_print_paths] reads attributes of the paths and may raise. *)
Class Render (W : Type) : Type := {
  render_paths : W -> option string -> list path -> outcome string;
  as_pretty : PathMeta -> path -> string
}.

(** The size of the content the remote serves for a path. *)
Class RemoteStore : Type := {
  download_size : path -> Z
}.

Definition Async `{Scheduler} {W A B} (f : A -> M W B) (l : list A)
  : M W (list B) :=
  let jobs := combine (seq 0 (List.length l)) l in
  done <- map_m (fun job : nat * A => b <- f (snd job) ;; ret (fst job, b))
                (schedule _ jobs) ;;
  ret (map snd (sorted Nat.leb fst done)).

(** [Dispatcher._print_paths]. *)
Definition print_paths {W} `{Render W} (title : option string)
  (paths : list path) : M W unit :=
  w <- get_world ;;
  match render_paths w title paths with
  | Ok s => print s
  | Raise e => raise e
  end.

(** Reading a local variable that may not have been assigned. *)
Definition local_var {W A} (name : string) (v : option A) : M W A :=
  match v with
  | Some a => ret a
  | None => raise (UnboundLocalError name)
  end.

(** ** fetch *)

Definition path_state (p : path) : M Tree PathState :=
  fun s => (Ok (world s p), s).

Definition set_path_state (p : path) (ps : PathState) : M Tree unit :=
  fun s => (Ok tt, mkSt (tree_set (world s) p ps) (logs s) (stdout s) (trace s)).

(** Modelled from the spec: [path.cache.fetch(size_limit_mb=...)] is a
    method of the cache classes of [sparcur.paths], whose code [cli.py]
    only calls.  Section 4.3: the limit is enforced before the
    transfer; if the cached size exceeds the limit the fetch of the path
    is skipped, not attempted; no limit ([None]) means unlimited.
    Otherwise the content is retrieved and replaces the placeholder. *)
Definition cache_fetch `{RemoteStore} (size_limit_mb : option Z) (p : path)
  : M Tree unit :=
  ps <- path_state p ;;
  c <- attr "fetch" (cache ps) ;;
  let over :=
    match size_limit_mb, cache_meta c with
    | Some l, Some m =>
        match meta_size m with
        | Some sz => mb_gt sz l
        | None => false
        end
    | _, _ => false
    end in
  if over then
    log_msg WARNING ("File is over the size limit " ++ as_posix p)
  else
    emit (EvTransfer p) ;;
    set_path_state p (mkPathState (KFile (download_size p)) (cache ps)).

Definition not_a_dir (p : path) : M Tree bool :=
  ps <- path_state p ;; ret (negb (is_dir ps)).

(** [Main.fetch]; [walked] is what [self._paths] yields. *)
Definition fetch `{Scheduler} `{Render Tree} `{RemoteStore}
  (args : Args) (walked : list path) : M Tree unit :=
  paths <- filter_m not_a_dir walked ;;
  print_paths None paths ;;
  if opt_pretend args then ret tt
  else
    Async (cache_fetch (Options.limit args)) paths ;;
    ret tt.

(** ** find *)

(** The condition of the list comprehension that applies the size limit
    in [Main.find], with Python's precedence:
    [size is None or search_exists or (not exists and mb < limit) or
     (exists and p.size != size and (not log.info(...)) and mb < limit)]. *)
Definition find_keep (search_exists : bool) (limit : Z) (p : path)
  : M Tree bool :=
  ps <- path_state p ;;
  c <- attr "meta" (cache ps) ;;
  m <- attr "size" (cache_meta c) ;;
  match meta_size m with
  | None => ret true
  | Some sz =>
      if search_exists then ret true
      else if negb (path_exists ps) && mb_lt sz limit then ret true
      else if path_exists ps && negb (st_size_of ps =? sz)%Z then
        log_msg INFO ("Truncated transfer detected for " ++ as_posix p) ;;
        ret (mb_lt sz limit)
      else ret false
  end.

Definition in_paths (p : path) (l : list path) : bool :=
  existsb (path_eqb p) l.

(** [len(set(p for p in old_paths if p.is_broken_symlink()) - set(paths))] *)
Definition count_skipped (t : Tree) (old_paths paths : list path) : nat :=
  List.length (nodup (list_eq_dec string_dec)
            (filter (fun p => is_broken_symlink (t p) && negb (in_paths p paths))
                    old_paths)).

(** The candidates of [Main.find]: the non-directories among the globbed
    paths, filtered by size when [self.options.limit] is true.  The second
    component is the local [n_skipped], which is only assigned under the
    limit. *)
Definition find_candidates (args : Args) (globbed : list path)
  : M Tree (list path * option nat) :=
  paths <- filter_m not_a_dir globbed ;;
  let search_exists := opt_exists args in
  match Options.limit args with
  | Some l =>
      if truthy_limit (Some l) then
        kept <- filter_m (find_keep search_exists l) paths ;;
        t <- get_world ;;
        ret (kept, Some (count_skipped t paths kept))
      else ret (paths, None)
  | None => ret (paths, None)
  end.

Definition str_nat (n : nat) : string :=
  NilZero.string_of_uint (Nat.to_uint n).

Definition print_skipped {W} (n_skipped : option nat) : M W unit :=
  n <- local_var "n_skipped" n_skipped ;;
  print ("skipped = " ++ str_nat n).

(** [Main.find]; [globbed] is the concatenation of [path.rglob(pattern)]
    over the patterns, [remote_refresh] is [path.remote.refresh]. *)
Definition find `{Scheduler} `{Render Tree} `{RemoteStore}
  (remote_refresh : bool -> option Z -> path -> M Tree unit)
  (args : Args) (globbed : list path) : M Tree unit :=
  match globbed with
  | [] => ret tt
  | _ :: _ =>
      cands <- find_candidates args globbed ;;
      let paths := fst cands in
      let n_skipped := snd cands in
      if opt_pretend args then
        print_paths None paths ;; print_skipped n_skipped
      else
        (if opt_verbose args then
           for_each paths (fun p =>
             ps <- path_state p ;;
             c <- attr "meta" (cache ps) ;;
             m <- attr "as_pretty" (cache_meta c) ;;
             print (as_pretty m p))
         else ret tt) ;;
        if opt_fetch args || opt_refresh args then
          let limit := Options.limit args in
          let fetch := opt_fetch args in
          if opt_refresh args then
            Async (remote_refresh fetch limit) paths ;; ret tt
          else
            Async (cache_fetch limit) paths ;; ret tt
        else
          print_paths None paths ;; print_skipped n_skipped
  end.

(** ** fix duplicates *)

(** The sort key of [Fix.duplicates]: the tuple
    [(not bool(mns), not bool(mns.updated), -mns.updated.timestamp())].
    All three components are evaluated before the tuple is built. *)
Definition DupKey : Type := (bool * bool * Z)%type.

Definition bool_leb (a b : bool) : bool := implb a b.

(** Order of Python tuples: lexicographic, [False < True]. *)
Definition dupkey_leb (a b : DupKey) : bool :=
  let '(a1, a2, a3) := a in
  let '(b1, b2, b3) := b in
  if Bool.eqb a1 b1 then
    if Bool.eqb a2 b2 then (a3 <=? b3)%Z
    else bool_leb a2 b2
  else bool_leb a1 b1.

Definition mkey (p : path) : M Tree DupKey :=
  ps <- path_state p ;;
  c <- attr "meta" (cache ps) ;;
  let mns := cache_meta c in
  let k1 := negb (match mns with Some m => meta_bool m | None => false end) in
  m <- attr "updated" mns ;;
  let k2 := negb (match meta_updated m with Some _ => true | None => false end) in
  ts <- attr "timestamp" (meta_updated m) ;;
  ret (k1, k2, (- ts)%Z).

(** [sorted(l, key=mkey)]: the keys of all elements are computed first, in
    order; an exception raised by the key function propagates. *)
Definition sorted_by_mkey (l : list path) : M Tree (list path) :=
  keyed <- map_m (fun p => k <- mkey p ;; ret (k, p)) l ;;
  ret (map snd (sorted dupkey_leb fst keyed)).

(** [all_[rc.cache.id].append(rc)] on an insertion-ordered dictionary. *)
Fixpoint group_add (i : string) (p : path) (all_ : list (string * list path))
  : list (string * list path) :=
  match all_ with
  | [] => [(i, [p])]
  | (j, l) :: rest =>
      if String.eqb i j then (j, l ++ [p]) :: rest
      else (j, l) :: group_add i p rest
  end.

Fixpoint group_paths (skip_cache : path -> bool) (paths : list path)
  (all_ : list (string * list path)) : M Tree (list (string * list path)) :=
  match paths with
  | [] => ret all_
  | rc :: rest =>
      ps <- path_state rc ;;
      match cache ps with
      | None =>
          (if skip_cache rc then ret tt
           else log_msg CRITICAL ("WHAT THE WHAT " ++ as_posix rc)) ;;
          group_paths skip_cache rest all_
      | Some c => group_paths skip_cache rest (group_add (cache_id c) rc all_)
      end
  end.

Record Dupes : Type := mkDupes {
  dv : list (list path);
  deduped : list path;
  to_remove : list path;
  to_remove_size : list path
}.

(** [Fix.duplicates] up to its [breakpoint()]; [dedupe] is
    [a.dedupe(b, pretend=True)]. *)
Definition duplicates (skip_cache : path -> bool)
  (dedupe : path -> path -> M Tree path) (paths : list path) : M Tree Dupes :=
  all_ <- group_paths skip_cache paths [] ;;
  dv <- map_m (fun il => sorted_by_mkey (snd il))
              (filter (fun il => (1 <? List.length (snd il))%nat) all_) ;;
  deduped <- map_m (fun l =>
               match l with
               | a :: b :: c =>
                   (match c with
                    | [] => ret tt
                    | _ :: _ => log_msg WARNING (String.concat ", " (map as_posix c))
                    end) ;;
                   dedupe a b
               | _ => raise (ValueError "not enough values to unpack")
               end) dv ;;
  let to_remove :=
    flat_map (fun pn => filter (fun d => negb (path_eqb d (snd pn))) (fst pn))
             (combine dv deduped) in
  to_remove_size <- filter_m (fun p =>
                      ps <- path_state p ;;
                      c <- attr "meta" (cache ps) ;;
                      m <- attr "size" (cache_meta c) ;;
                      ret (match meta_size m with Some _ => true | None => false end))
                    to_remove ;;
  ret (mkDupes dv deduped to_remove to_remove_size).

(** ** refresh *)

(** Iteration order of a Python [set]: the elements put into it, without
    repetition, in an order of the implementation's choosing. *)
Class SetOrder : Type := {
  set_order : forall A : Type, list A -> list A;
  set_order_perm : forall (A : Type) (l : list A), Permutation l (set_order A l)
}.

Definition set_iter `{SetOrder} {A : Type}
  (eq_dec : forall x y : A, {x = y} + {x <> y}) (l : list A) : list A :=
  set_order A (nodup eq_dec l).

Definition path_eq_dec : forall p q : path, {p = q} + {p <> q} :=
  list_eq_dec string_dec.

(** [path.parents]: the proper ancestors, nearest first, the root last. *)
Definition parents (p : path) : list path :=
  map (fun n => firstn n p) (rev (seq 0 (List.length p))).

(** [len(p.parts)] of an absolute path. *)
Definition depth (p : path) : nat := S (List.length p).

(** The path, cache and remote layer as [Main.refresh] uses it, over a
    world [W] (local tree and remote store).  A remote object is named by
    the local path it was obtained from. *)
Class RefreshOps (W : Type) : Type := {
  has_cache : W -> path -> bool;                 (* p.cache is not None *)
  local_is_dir : W -> path -> bool;              (* p.is_dir() *)
  walk_paths : W -> list path;                   (* self._paths *)
  cache_is_file : W -> path -> bool;             (* r.cache.is_file() *)
  cache_exists : W -> path -> bool;              (* r.cache.exists() *)
  remote_local : W -> path -> path;              (* r.local *)
  remote_refresh_op : bool -> path -> W -> outcome (option path) * W;
  update_cache_op : path -> W -> outcome unit * W;
  cache_refresh_op : bool -> option Z -> path -> W -> outcome unit * W;
  chdir_op : path -> W -> W
}.

(** Running an operation of the layer, recording the call. *)
Definition call {W A} (ev : event) (op : W -> outcome A * W) : M W A :=
  fun s =>
    let (r, w) := op (world s) in
    (r, mkSt w (logs s) (stdout s) (trace s ++ [ev])).

Definition to_root `{SetOrder} {W} `{RefreshOps W} (w : W) (paths : list path)
  : list path :=
  sorted Nat.leb depth
    (set_iter path_eq_dec (filter (has_cache w) (flat_map parents paths))).

(** The outcome of the [try] statement around [r.update_cache()]. *)
Inductive Applied : Type :=
| Updated
| ParentMoved
| Skipped.

Definition Moves : Type := (list (path * path) * list path)%type.

(** The body of [for new, r in zip(refreshed, drs)]; the accumulator is
    the pair of the locals [moved] and [parent_moved]. *)
Definition apply_update {W} `{RefreshOps W} (acc : Moves)
  (nr : option path * path) : M W Moves :=
  let (new, r) := nr in
  let (moved, parent_moved) := acc in
  (match new with
   | None => log_msg CRITICAL "utoh"
   | Some _ => ret tt
   end) ;;
  w <- get_world ;;
  let oldl := remote_local w r in
  res <- try_except
           (call (EvUpdateCache r) (update_cache_op r) ;; ret Updated)
           (fun e =>
              match e with
              | FileNotFoundError _ => Some (ret ParentMoved)
              | OSError errno =>
                  Some (if (errno =? ENOTEMPTY)%Z
                        then log_msg ERROR (exn_str e) ;; ret Skipped
                        else raise e)
              | _ => None
              end) ;;
  match res with
  | ParentMoved => ret (moved, parent_moved ++ [oldl])
  | Skipped => ret (moved, parent_moved)
  | Updated =>
      w' <- get_world ;;
      let newl := remote_local w' r in
      if path_eqb oldl newl then ret (moved, parent_moved)
      else ret (moved ++ [(oldl, newl)], parent_moved)
  end.

Fixpoint apply_updates {W} `{RefreshOps W} (acc : Moves)
  (l : list (option path * path)) : M W Moves :=
  match l with
  | [] => ret acc
  | nr :: rest => acc' <- apply_update acc nr ;; apply_updates acc' rest
  end.

Definition refresh_remote {W} `{RefreshOps W} (r : path) : M W (option path) :=
  w <- get_world ;;
  call (EvRemoteRefresh r)
       (remote_refresh_op (cache_is_file w r && cache_exists w r) r).

Definition refresh_cache {W} `{RefreshOps W} (fetch : bool) (limit : option Z)
  (p : path) : M W unit :=
  call (EvCacheRefresh p) (cache_refresh_op fetch limit p).

Definition dirs_of {W} `{RefreshOps W} (w : W) : list path :=
  filter (local_is_dir w) (walk_paths w).

Definition not_dirs_of {W} `{RefreshOps W} (w : W) : list path :=
  filter (fun p => negb (local_is_dir w p)) (walk_paths w).

(** [Main.refresh]; [paths] is [self.paths] and [cwd] is [self.cwd].  The
    generators [self._paths], [self._dirs] and [self._not_dirs] are read
    off the world at the point where their iteration starts. *)
Definition refresh `{Scheduler} `{SetOrder} {W} `{RefreshOps W} `{Render W}
  (args : Args) (cwd : path) (paths : list path) : M W unit :=
  let paths := match paths with [] => [cwd] | _ :: _ => paths end in
  w0 <- get_world ;;
  let to_root := to_root w0 paths in
  if opt_pretend args then
    let ap := to_root ++ walk_paths w0 in
    print_paths None ap ;;
    print ("total = " ++ str_nat (List.length ap))
  else
    print_paths None (to_root ++ walk_paths w0) ;;
    let fetch := opt_fetch args in
    let limit := Options.limit args in
    w1 <- get_world ;;
    let drs := to_root ++ dirs_of w1 in
    refreshed <- (if negb (opt_debug args) then Async refresh_remote drs
                  else map_m refresh_remote drs) ;;
    mp <- apply_updates ([], []) (combine refreshed drs) ;;
    let (moved, parent_moved) := mp : Moves in
    (match moved with
     | [] => ret tt
     | _ :: _ =>
         print "Folders moved" ;;
         for_each moved (fun on =>
           if path_eqb (fst on) cwd then
             log_msg INFO ("Changing directory to " ++ as_posix (snd on)) ;;
             call (EvChdir (snd on)) (fun w => (Ok tt, chdir_op (snd on) w))
           else ret tt)
     end) ;;
    (match parent_moved with
     | [] => ret tt
     | _ :: _ => print_paths (Some "Parent moved") parent_moved
     end) ;;
    w2 <- get_world ;;
    (if negb (opt_debug args)
     then Async (refresh_cache fetch limit) (not_dirs_of w2) ;; ret tt
     else for_each (not_dirs_of w2) (refresh_cache fetch limit)).

(** ** A filesystem with cached metadata

    [clone] and [stash] are followed on a finite filesystem: every entry
    is a directory or a file, with the metadata record its cache holds
    ([None] when [p.cache] is [None]) and, for a directory, the anchor
    marker.  The root always exists. *)
Inductive node : Type :=
| NDir (m : option PathMeta) (anchor : bool)
| NFile (data : string) (m : option PathMeta).

Definition FS : Type := list (path * node).

Fixpoint fs_get (fs : FS) (p : path) : option node :=
  match fs with
  | [] => None
  | (q, n) :: rest => if path_eqb q p then Some n else fs_get rest p
  end.

Fixpoint fs_put (fs : FS) (p : path) (n : node) : FS :=
  match fs with
  | [] => [(p, n)]
  | (q, m) :: rest =>
      if path_eqb q p then (q, n) :: rest else (q, m) :: fs_put rest p n
  end.

Definition fs_is_dir (fs : FS) (p : path) : bool :=
  match p, fs_get fs p with
  | [], _ => true
  | _, Some (NDir _ _) => true
  | _, _ => false
  end.

Definition node_meta (n : node) : option PathMeta :=
  match n with
  | NDir m _ => m
  | NFile _ m => m
  end.

Fixpoint is_prefix (a p : path) : bool :=
  match a, p with
  | [], _ => true
  | x :: a', y :: p' => String.eqb x y && is_prefix a' p'
  | _ :: _, [] => false
  end.

Definition is_below (d q : path) : bool :=
  is_prefix d q && negb (path_eqb d q).

Fixpoint strip_prefix (a p : path) : option path :=
  match a, p with
  | [], _ => Some p
  | x :: a', y :: p' => if String.eqb x y then strip_prefix a' p' else None
  | _ :: _, [] => None
  end.

(** [d.rchildren], in the order the walk meets them. *)
Definition rchildren (fs : FS) (d : path) : list path :=
  filter (is_below d) (map fst fs).

Definition parent (p : path) : path := removelast p.

(** [p.mkdir()]. *)
Definition mkdir (p : path) : M FS unit :=
  fs <- get_world ;;
  match p, fs_get fs p with
  | [], _ => raise (OSError EEXIST)
  | _, Some _ => raise (OSError EEXIST)
  | _, None =>
      if fs_is_dir fs (parent p)
      then set_world (fs_put fs p (NDir None false))
      else raise (FileNotFoundError ENOENT)
  end.

(** [p.mkdir(parents=True)]: the missing ancestors are made first. *)
Definition mkdir_parents (p : path) : M FS unit :=
  for_each (rev (parents p)) (fun a =>
    fs <- get_world ;;
    if fs_is_dir fs a then ret tt else mkdir a) ;;
  mkdir p.

(** [p.cache.meta]. *)
Definition cache_meta_of (p : path) : M FS PathMeta :=
  fs <- get_world ;;
  match fs_get fs p with
  | Some n => attr "meta" (node_meta n)
  | None => raise (AttributeError "meta")
  end.

(** [p.cache_init(meta, anchor=...)]. *)
Definition cache_init (p : path) (m : PathMeta) (anchor : bool) : M FS unit :=
  fs <- get_world ;;
  match fs_get fs p with
  | Some (NDir _ a) => set_world (fs_put fs p (NDir (Some m) (a || anchor)))
  | Some (NFile d _) => set_world (fs_put fs p (NFile d (Some m)))
  | None => raise (FileNotFoundError ENOENT)
  end.

(** Content hashing, and what a copy writes for the bytes it reads. *)
Class CopyLayer : Type := {
  checksum : string -> string;
  transfer : string -> string
}.

(** [target.copy_from(source)] and
    [source.copy_to(target, force=..., copy_cache_meta=...)] for a file. *)
Definition copy_file `{CopyLayer} (source target : path)
  (force copy_cache_meta : bool) : M FS unit :=
  fs <- get_world ;;
  match fs_get fs source with
  | Some (NFile d m) =>
      if negb force && match fs_get fs target with Some _ => true | None => false end
      then raise (OSError EEXIST)
      else if fs_is_dir fs (parent target)
      then set_world (fs_put fs target
                        (NFile (transfer d) (if copy_cache_meta then m else None)))
      else raise (FileNotFoundError ENOENT)
  | Some (NDir _ _) => raise (OSError 21)
  | None => raise (FileNotFoundError ENOENT)
  end.

(** [p.checksum()]. *)
Definition checksum_of `{CopyLayer} (p : path) : M FS string :=
  fs <- get_world ;;
  match fs_get fs p with
  | Some (NFile d _) => ret (checksum d)
  | Some (NDir _ _) => raise (OSError 21)
  | None => raise (FileNotFoundError ENOENT)
  end.

(** ** clone *)

(** What [clone] needs to know of the remote project and of the layout of
    an anchor. *)
Class Projects : Type := {
  has_secret : string -> bool;
  project_name : string -> string;
  project_meta : string -> PathMeta;
  local_data_dir : path -> path;
  local_objects_dir : path -> path;
  trash : path -> path
}.

(** [BlackfynnRemote.init(project_id)]. *)
Definition remote_init `{Projects} (project_id : string) : M FS unit :=
  if has_secret project_id then ret tt else raise MissingSecretError.

(** [cwd.find_cache_root()]: the nearest of the path and its ancestors
    that carries the anchor marker. *)
Definition find_cache_root (fs : FS) (cwd : path) : option path :=
  List.find (fun a => match fs_get fs a with
                 | Some (NDir _ true) => true
                 | _ => false
                 end) (cwd :: parents cwd).

Definition local_target `{Projects} (project_id : string) (cwd : path) : path :=
  cwd ++ [project_name project_id].

Definition has_entries (fs : FS) (d : path) : bool :=
  match rchildren fs d with
  | [] => false
  | _ :: _ => true
  end.

(** Modelled from the spec: [BlackfynnRemote.dropAnchor] is a method of
    [sparcur.backends], whose code [cli.py] only calls.
    Section 4.1: establishing a new anchor fails with
    [DirectoryNotEmptyError] if the local target already contains
    entries; otherwise the anchor marker is written.  The target is the
    new folder [clone] creates in the current directory. *)
Definition dropAnchor `{Projects} (project_id : string) (cwd : path)
  : M FS path :=
  fs <- get_world ;;
  let target := local_target project_id cwd in
  if has_entries fs target then raise DirectoryNotEmptyError
  else
    (if fs_is_dir fs target then ret tt else mkdir target) ;;
    cache_init target (project_meta project_id) true ;;
    ret target.

(** [Main.clone]; [pull] is [self.pull] run inside the new anchor.  The
    local [anchor] is assigned by the [try] statement only, so it is
    unbound in the handlers of that statement. *)
Definition clone `{Projects} (pull : path -> M FS unit) (args : Args)
  (cwd : path) : M FS unit :=
  project_id <- match opt_project_id args with
                | None => print "no remote project id listed" ;; sys_exit 4
                | Some i => ret i
                end ;;
  try_except (remote_init project_id)
    (fun e => match e with
              | MissingSecretError =>
                  Some (print ("missing api secret entry for " ++ project_id) ;;
                        sys_exit 11)
              | _ => None
              end) ;;
  fs <- get_world ;;
  (match find_cache_root fs cwd with
   | Some _ => raise (NameError "root")
   | None => ret tt
   end) ;;
  let anchor_before_try : option path := None in
  anchor <- try_except (dropAnchor project_id cwd)
    (fun e => match e with
              | DirectoryNotEmptyError =>
                  Some (a <- local_var "anchor" anchor_before_try ;;
                        print ("fatal: destination path " ++ as_posix a ++
                               " already exists and is not an empty directory.") ;;
                        sys_exit 2)
              | _ => Some (log_msg ERROR (exn_str e) ;; sys_exit 11111)
              end) ;;
  mkdir (local_data_dir anchor) ;;
  mkdir (local_objects_dir anchor) ;;
  mkdir (trash anchor) ;;
  pull anchor.

(** ** pull *)

(** A cache object as [pull] uses it: [str(c)] is its path, [c.id] its
    remote id; two cache objects are equal when their paths are. *)
Record CacheObj : Type := mkCacheObj {
  co_path : path;
  co_id : string
}.

(** The path, cache and remote layer as [Main.pull] uses it. *)
Class PullOps (W : Type) : Type := {
  children_of : W -> path -> list path;
  rchildren_of : W -> path -> list path;
  pull_is_dir : W -> path -> bool;
  cache_of : W -> path -> option CacheObj;
  skip_cache_of : path -> bool;
  is_organization : W -> path -> bool;
  remote_is_dataset_or_organization : W -> path -> bool;
  cache_refresh : CacheObj -> W -> outcome (option CacheObj) * W;
  bootstrap : CacheObj -> bool -> list string -> list string -> W ->
              outcome (list (option CacheObj)) * W
}.

(** The world of [pull]: the tree and remote behind the layer, and the
    content of [renames.log] in the anchor's data directory.  The layer
    itself does not write the log. *)
Record PullWorld (W : Type) : Type := mkPullWorld {
  tree_of : W;
  renames_log : string
}.
Arguments mkPullWorld {W} _ _.
Arguments tree_of {W} _.
Arguments renames_log {W} _.

Definition lift_op {W A} (op : W -> outcome A * W) : M (PullWorld W) A :=
  fun s =>
    let (r, w) := op (tree_of (world s)) in
    (r, mkSt (mkPullWorld w (renames_log (world s)))
             (logs s) (stdout s) (trace s)).

Definition get_tree {W} : M (PullWorld W) W :=
  fun s => (Ok (tree_of (world s)), s).

(** [with open(..., 'at') as f: f.write(line)]. *)
Definition append_renames {W} (line : string) : M (PullWorld W) unit :=
  fun s =>
    (Ok tt, mkSt (mkPullWorld (tree_of (world s)) (renames_log (world s) ++ line))
                 (logs s) (stdout s) (trace s)).

Definition skip : list string :=
  [ "N:dataset:83e0ebd2-dae2-4ca0-ad6e-81eb39cfc053";
    "N:dataset:a896935a-4718-4906-8a7b-b6d76fb260b6";
    "N:dataset:8bcf659c-f4b3-425f-ac33-8c560e02d4aa" ].

Definition skip_big : list string :=
  [ "N:dataset:ec2e13ae-c42a-4606-b25b-ad4af90c01bb";
    "N:dataset:2d0a2996-be8a-441d-816c-adfe3577fc7d";
    "N:dataset:ca9afa19-b616-41a9-a532-3ae5aaf4088f" ].

Definition newline : string := String (ascii_of_nat 10) EmptyString.

(** [f'{oc} -> {nc} -> {nc.id}\n'] *)
Definition rename_line (oc nc : CacheObj) : string :=
  as_posix (co_path oc) ++ " -> " ++ as_posix (co_path nc) ++ " -> " ++
  co_id nc ++ newline.

Definition str_cache (c : option CacheObj) : string :=
  match c with
  | Some o => as_posix (co_path o)
  | None => "None"
  end.

(** [f'Dataset moved!\n{oc} -> {nc}'] *)
Definition moved_message (oc : CacheObj) (nc : option CacheObj) : string :=
  "Dataset moved!" ++ newline ++ as_posix (co_path oc) ++ " -> " ++ str_cache nc.

(** [nc != oc] *)
Definition cache_differs (nc : option CacheObj) (oc : CacheObj) : bool :=
  match nc with
  | Some n => negb (path_eqb (co_path n) (co_path oc))
  | None => true
  end.

(** The body of [for cd in d.children] under
    [if d.cache.is_organization()]. *)
Definition record_dataset_move {W} `{PullOps W} (cd : path)
  : M (PullWorld W) unit :=
  w <- get_tree ;;
  if pull_is_dir w cd then
    let oc := cache_of w cd in
    if match oc with None => skip_cache_of cd | Some _ => false end then ret tt
    else
      o <- attr "refresh" oc ;;
      nc <- lift_op (cache_refresh o) ;;
      if cache_differs nc o then
        log_msg INFO (moved_message o nc) ;;
        n <- attr "id" nc ;;
        append_renames (rename_line o n)
      else ret tt
  else ret tt.

(** One round of [for d in dirs]; the result is the local [caches], which
    an iteration that reaches [bootstrap] assigns. *)
Definition pull_dir {W} `{PullOps W} (args : Args) (only skips : list string)
  (caches : option (list (option CacheObj))) (d : path)
  : M (PullWorld W) (option (list (option CacheObj))) :=
  let recursive := match Options.level args with None => true | Some _ => false end in
  w <- get_tree ;;
  if opt_empty args && match children_of w d with [] => false | _ :: _ => true end
  then ret caches
  else if negb (pull_is_dir w d) then raise (TypeError "dir is not a dir?!?")
  else
    (if remote_is_dataset_or_organization w d then ret tt
     else log_msg WARNING "You are pulling recursively from below dataset level.") ;;
    c <- attr "refresh" (cache_of w d) ;;
    newc <- lift_op (cache_refresh c) ;;
    match newc with
    | None => ret caches
    | Some nc =>
        w' <- get_tree ;;
        (if is_organization w' d
         then for_each (children_of w' d) record_dataset_move
         else ret tt) ;;
        cs <- lift_op (bootstrap nc recursive only skips) ;;
        ret (Some cs)
    end.

Fixpoint pull_dirs {W} `{PullOps W} (args : Args) (only skips : list string)
  (caches : option (list (option CacheObj))) (dirs : list path)
  : M (PullWorld W) (option (list (option CacheObj))) :=
  match dirs with
  | [] => ret caches
  | d :: rest =>
      caches' <- pull_dir args only skips caches d ;;
      pull_dirs args only skips caches' rest
  end.

Definition name_of (p : path) : string := last p EmptyString.

(** A Python [dict] built from key and value pairs: a key keeps the place
    of its first insertion and the value of its last. *)
Section Assoc.
Context {K V : Type} (eqb : K -> K -> bool).

Fixpoint assoc_set (k : K) (v : V) (d : list (K * V)) : list (K * V) :=
  match d with
  | [] => [(k, v)]
  | (k', v') :: rest =>
      if eqb k' k then (k', v) :: rest else (k', v') :: assoc_set k v rest
  end.

Definition assoc_of_list (l : list (K * V)) : list (K * V) :=
  fold_left (fun d kv => assoc_set (fst kv) (snd kv) d) l [].

Fixpoint assoc_get (k : K) (d : list (K * V)) : option V :=
  match d with
  | [] => None
  | (k', v) :: rest => if eqb k' k then Some v else assoc_get k rest
  end.

End Assoc.

(** [d[k]] *)
Definition item {W A} (o : option A) : M W A :=
  match o with
  | Some a => ret a
  | None => raise (OtherError "KeyError")
  end.

(** [name.rfind(c)] *)
Fixpoint last_index (c : ascii) (s : string) : option nat :=
  match s with
  | EmptyString => None
  | String x rest =>
      match last_index c rest with
      | Some i => Some (S i)
      | None => if Ascii.eqb x c then Some 0%nat else None
      end
  end.

(** [PurePath.stem]: the name without its last suffix; a leading or a
    trailing dot starts no suffix. *)
Definition stem (name : string) : string :=
  match last_index "."%char name with
  | Some i =>
      if ((0 <? i) && (i <? String.length name - 1))%nat
      then substring 0 i name
      else name
  | None => name
  end.

(** [PurePath(p.parent) / p.stem] *)
Definition path_stem (p : path) : path :=
  match p with
  | [] => []
  | _ :: _ => (removelast p ++ [stem (last p EmptyString)])%list
  end.

(** [l.remove(x)]: the first element equal to [x] goes; [None] stands
    for the [ValueError] of a list without one. *)
Fixpoint remove_first (x : path) (l : list path) : option (list path) :=
  match l with
  | [] => None
  | y :: rest =>
      if path_eqb y x then Some rest
      else option_map (cons y) (remove_first x rest)
  end.

(** [new_new_path == mr_path] *)
Definition cache_at (c : option CacheObj) (p : path) : bool :=
  match c with
  | Some n => path_eqb (co_path n) p
  | None => false
  end.

(** [for pstem, p in maybe_new_stems.items()]; the state of the loop is
    the list [maybe_removed]. *)
Fixpoint match_new_stems {W} `{PullOps W}
  (maybe_removed_stems : list (path * path))
  (maybe_new_stems : list (path * CacheObj)) (maybe_removed : list path)
  : M (PullWorld W) (list path) :=
  match maybe_new_stems with
  | [] => ret maybe_removed
  | (pstem, p) :: rest =>
      match assoc_get path_eqb pstem maybe_removed_stems with
      | None => match_new_stems maybe_removed_stems rest maybe_removed
      | Some mr_path =>
          new_new_path <-
            (if negb (path_eqb (co_path p) mr_path)
             then lift_op (cache_refresh p)
             else
               log_msg INFO ("wat" ++ newline ++ as_posix mr_path ++ newline ++
                             as_posix (co_path p)) ;;
               ret (Some p)) ;;
          maybe_removed' <-
            (if cache_at new_new_path mr_path
             then match remove_first mr_path maybe_removed with
                  | Some l => ret l
                  | None => raise (ValueError "list.remove(x): x not in list")
                  end
             else ret maybe_removed) ;;
          match_new_stems maybe_removed_stems rest maybe_removed'
      end
  end.

Definition cached_ids (caches : list (option CacheObj))
  : list (string * CacheObj) :=
  flat_map (fun c => match c with
                     | Some o => [(co_id o, o)]
                     | None => []
                     end) caches.

(** The end of [Main.pull], after the loop over [dirs]: what was cached
    before and is not among the bootstrapped caches is matched by stem
    against what is new, and what stays unmatched has its cache refreshed.
    [new_locals] is not used. *)
Definition refresh_removed `{Scheduler} `{SetOrder} {W} `{PullOps W}
  (existing_d : list (string * path)) (caches : list (option CacheObj))
  : M (PullWorld W) unit :=
  let new_ids := assoc_of_list String.eqb (cached_ids caches) in
  let existing_ids := map fst existing_d in
  let maybe_removed_ids :=
    set_iter string_dec
      (filter (fun i => negb (existsb (String.eqb i) (map fst new_ids)))
              existing_ids) in
  let maybe_new_ids :=
    set_iter string_dec
      (filter (fun i => negb (existsb (String.eqb i) existing_ids))
              (map fst new_ids)) in
  match maybe_removed_ids with
  | [] => ret tt
  | _ :: _ =>
      maybe_removed <-
        map_m (fun i => item (assoc_get String.eqb i existing_d))
              maybe_removed_ids ;;
      let maybe_removed_stems :=
        assoc_of_list path_eqb (map (fun p => (path_stem p, p)) maybe_removed) in
      maybe_new <-
        map_m (fun i => item (assoc_get String.eqb i new_ids)) maybe_new_ids ;;
      let maybe_new_stems :=
        assoc_of_list path_eqb
          (map (fun p => (path_stem (co_path p), p)) maybe_new) in
      maybe_removed <-
        match_new_stems maybe_removed_stems maybe_new_stems maybe_removed ;;
      w <- get_tree ;;
      Async (fun c => lift_op (cache_refresh c))
            (flat_map (fun l => match cache_of w l with
                                | Some c => [c]
                                | None => []
                                end) maybe_removed) ;;
      ret tt
  end.

(** [Main.pull]; [big] is [self.project_path.parent.name == 'big']. *)
Definition pull {W} `{PullOps W} `{Scheduler} `{SetOrder} (args : Args)
  (big : bool) (cwd : path) (directories : list path)
  : M (PullWorld W) unit :=
  let only := if big then skip_big else [] in
  let skips := if big then skip else (skip_big ++ skip)%list in
  let dirs := match directories with [] => [cwd] | _ :: _ => directories end in
  let dirs := sorted String.leb name_of dirs in
  w <- get_tree ;;
  let existing_locals := set_iter path_eq_dec (flat_map (rchildren_of w) dirs) in
  let existing_d :=
    assoc_of_list String.eqb
      (flat_map (fun c => match cache_of w c with
                          | Some o => [(co_id o, c)]
                          | None => []
                          end) existing_locals) in
  log_msg DEBUG (String.concat ", " (map as_posix dirs)) ;;
  caches <- pull_dirs args only skips None dirs ;;
  cs <- local_var "caches" caches ;;
  refresh_removed existing_d cs.

(** ** stash *)

(** The anchor: the directory [anchor.local] is [parent / name]. *)
Record Anchor : Type := mkAnchor {
  anchor_parent : path;
  anchor_name : string
}.

Definition anchor_local (a : Anchor) : path := anchor_parent a ++ [anchor_name a].

Definition stash_base (a : Anchor) : path := anchor_parent a ++ ["stash"].

(** The elements of [to_stash]: the absolute paths given and the relative
    paths of their ancestors below the anchor. *)
Inductive spath : Type :=
| Abs (p : path)
| Rel (p : path).

Definition spath_eq_dec : forall a b : spath, {a = b} + {a <> b}.
Proof. decide equality; apply path_eq_dec. Defined.

(** [as_posix()] of a relative path. *)
Definition rel_posix (r : path) : string :=
  match r with
  | [] => "."
  | _ :: _ => String.concat "/" r
  end.

Definition spath_posix (sp : spath) : string :=
  match sp with
  | Abs p => as_posix p
  | Rel r => rel_posix r
  end.

(** [p.relative_to(self.anchor)]. *)
Definition relative_to {W} (p : path) (a : Anchor) : M W path :=
  match strip_prefix (anchor_local a) p with
  | Some r => ret r
  | None => raise (ValueError "is not in the subpath of the anchor")
  end.

(** [parts[-n:]] *)
Definition last_parts (n : nat) (parts : list string) : list string :=
  match n with
  | O => parts
  | S _ => skipn (List.length parts - n) parts
  end.

(** [p.parts[-len(relpath.parts):] == relpath.parts] for an absolute [p]. *)
Definition tail_matches (relpath p : path) : bool :=
  path_eqb (last_parts (List.length relpath) ("/" :: p)) relpath.

Definition is_file (fs : FS) (p : path) : bool :=
  match fs_get fs p with
  | Some (NFile _ _) => true
  | _ => false
  end.

(** [rcs]: the entries of the stash that are not directories, by
    descending path. *)
Definition stash_entries (fs : FS) (a : Anchor) : list path :=
  sorted_reverse String.leb as_posix
    (filter (fun c => negb (fs_is_dir fs c)) (rchildren fs (stash_base a))).

(** The inner loop of the restore: the first entry that matches is copied
    over the path, then [break]. *)
Definition restore_path `{CopyLayer} (a : Anchor) (rcs : list path)
  (p : path) : M FS unit :=
  relpath <- relative_to p a ;;
  match List.find (tail_matches relpath) rcs with
  | Some e => copy_file e p true true
  | None => ret tt
  end.

(** The body of [for p in to_stash[1:]]. *)
Definition stash_one `{CopyLayer} (a : Anchor) (new_anchor : path)
  (stashmetafunc : PathMeta -> outcome PathMeta) (sp : spath) : M FS unit :=
  rel <- match sp with
         | Abs p => relative_to p a
         | Rel r => ret r
         end ;;
  let new_path := (new_anchor ++ rel)%list in
  log_msg DEBUG (rel_posix rel) ;;
  log_msg DEBUG (as_posix new_path) ;;
  let p := (anchor_local a ++ rel)%list in
  fs <- get_world ;;
  if fs_is_dir fs p then
    mkdir new_path ;;
    m <- cache_meta_of p ;;
    cache_init new_path m false
  else
    log_msg DEBUG (as_posix p ++ " " ++ as_posix new_path) ;;
    copy_file p new_path false false ;;
    pc <- checksum_of p ;;
    npc <- checksum_of new_path ;;
    (if String.eqb pc npc then ret tt
     else raise (AssertionError (newline ++ pc ++ newline ++ npc))) ;;
    cmeta <- cache_meta_of p ;;
    nmeta <- of_outcome (stashmetafunc cmeta) ;;
    log_msg DEBUG "nmeta" ;;
    cache_init new_path nmeta false.

Definition to_stash `{SetOrder} (a : Anchor) (paths : list path)
  : M FS (list spath) :=
  groups <- map_m (fun p =>
              r <- relative_to p a ;;
              ret (Abs p :: map Rel (parents r))) paths ;;
  ret (sorted Nat.leb (fun sp => String.length (spath_posix sp))
         (set_iter spath_eq_dec (List.concat groups))).

Definition new_anchor_of (a : Anchor) (timestamp : string) : path :=
  (stash_base a ++ [timestamp; anchor_name a])%list.

(** [Main.stash]; [timestamp] is [NOWDANGER(...)].  The restore ends in
    [breakpoint()] and returns nothing; the stash returns the list of the
    entries it made. *)
Definition stash `{SetOrder} `{CopyLayer} (args : Args) (a : Anchor)
  (timestamp : string) (stashmetafunc : PathMeta -> outcome PathMeta)
  (paths : list path) : M FS (option (list path)) :=
  ts <- to_stash a paths ;;
  if opt_restore args then
    fs <- get_world ;;
    let rcs := stash_entries fs a in
    for_each paths (restore_path a rcs) ;;
    ret None
  else
    let new_anchor := new_anchor_of a timestamp in
    mkdir_parents new_anchor ;;
    am <- cache_meta_of (anchor_local a) ;;
    cache_init new_anchor am true ;;
    for_each (tl ts) (stash_one a new_anchor stashmetafunc) ;;
    fs <- get_world ;;
    ret (Some (rchildren fs new_anchor)).

(** ** Invariants of runs *)

(** A computation preserves [I] when every run from a state in [I] ends
    in a state in [I], whether it returns or raises. *)
Definition preserves {W A} (I : St W -> Prop) (c : M W A) : Prop :=
  forall s, I s -> I (snd (c s)).

(** Computations that leave the world and the trace alone. *)
Definition quiet {W} (I : St W -> Prop) : Prop :=
  forall s l o, I s -> I (mkSt (world s) l o (trace s)).

Definition same_tree (t : Tree) (s : St Tree) : Prop := world s = t.

(** From the state [s0] on, the path [p] has kept its state and no
    transfer was started for it. *)
Definition untouched (s0 : St Tree) (p : path) (s : St Tree) : Prop :=
  world s p = world s0 p /\
  exists evs, trace s = trace s0 ++ evs /\ ~ In (EvTransfer p) evs.

(** Pre- and postconditions: from a state in [P] the computation ends in
    [Q] when it returns and in [E] when it raises. *)
Definition hoare {W A} (P : St W -> Prop) (c : M W A)
  (Q : A -> St W -> Prop) (E : St W -> Prop) : Prop :=
  forall s, P s ->
    match c s with
    | (Ok a, s') => Q a s'
    | (Raise _, s') => E s'
    end.

(** The state in which [r.update_cache()] is called: the check of [new]
    has logged, and the state after the call. *)
Definition note_new {W} (new : option path) (s : St W) : St W :=
  match new with
  | None => mkSt (world s) (logs s ++ [(CRITICAL, "utoh")]) (stdout s) (trace s)
  | Some _ => s
  end.

Definition called {W} (r : path) (w' : W) (s : St W) : St W :=
  mkSt w' (logs s) (stdout s) (trace s ++ [EvUpdateCache r]).

Definition logged_error {W} (e : exn) (s : St W) : St W :=
  mkSt (world s) (logs s ++ [(ERROR, exn_str e)]) (stdout s) (trace s).

(** The errors of [r.update_cache()] that the loop of [refresh] absorbs. *)
Definition absorbed (o : outcome unit) : Prop :=
  match o with
  | Ok _ => True
  | Raise (FileNotFoundError _) => True
  | Raise (OSError n) => n = ENOTEMPTY
  | Raise _ => False
  end.

Definition not_cache_refresh (ev : event) : Prop :=
  match ev with
  | EvCacheRefresh _ => False
  | _ => True
  end.

(** The directories [refresh] sends to the remote: the cached ancestors
    of the requested paths, then the directories among the walked
    paths. *)
Definition requested_paths (cwd : path) (paths : list path) : list path :=
  match paths with
  | [] => [cwd]
  | _ :: _ => paths
  end.

Definition refreshed_dirs `{SetOrder} {W} `{RefreshOps W} (w : W) (cwd : path)
  (paths : list path) : list path :=
  to_root w (requested_paths cwd paths) ++ dirs_of w.

(** The order in which a batch runs: as given under [--debug], as
    [Async] schedules it otherwise. *)
Definition batch_order `{Scheduler} {A : Type} (debug : bool) (l : list A)
  : list A :=
  if debug then l
  else map snd (schedule _ (combine (seq 0 (List.length l)) l)).

(** The remote refreshes of [l], one after the other from [w]: the world
    they leave, or the exception of the first that raises. *)
Fixpoint remotes_refreshed {W} `{RefreshOps W} (l : list path) (w : W)
  : outcome W :=
  match l with
  | [] => Ok w
  | r :: rest =>
      match remote_refresh_op (cache_is_file w r && cache_exists w r) r w with
      | (Ok _, w') => remotes_refreshed rest w'
      | (Raise e, _) => Raise e
      end
  end.

(** The cache updates of [drs], attempted one after the other from [w].
    An update that raises [FileNotFoundError], or [OSError] with
    [ENOTEMPTY], is not applied, and the next one is attempted from the
    world the failed one left; any other exception ends the run.  The
    result lists the directories whose update was applied, each with its
    local path before and after, the local paths of those whose update
    found no file, and the world at the end. *)
Fixpoint updates_applied {W} `{RefreshOps W} (drs : list path) (w : W)
  : outcome (list (path * (path * path)) * list path * W) :=
  match drs with
  | [] => Ok ([], [], w)
  | r :: rest =>
      match update_cache_op r w with
      | (Ok _, w') =>
          match updates_applied rest w' with
          | Ok (applied, not_found, w'') =>
              Ok ((r, (remote_local w r, remote_local w' r)) :: applied,
                  not_found, w'')
          | Raise e => Raise e
          end
      | (Raise (FileNotFoundError n), w') =>
          match updates_applied rest w' with
          | Ok (applied, not_found, w'') =>
              Ok (applied, remote_local w r :: not_found, w'')
          | Raise e => Raise e
          end
      | (Raise (OSError n), w') =>
          if (n =? ENOTEMPTY)%Z then updates_applied rest w'
          else Raise (OSError n)
      | (Raise e, _) => Raise e
      end
  end.

(** The applied updates that changed the local path, as old and new
    place, and among them the new places of the working directory
    itself. *)
Definition moved_of (applied : list (path * (path * path)))
  : list (path * path) :=
  map snd (filter (fun a => negb (path_eqb (fst (snd a)) (snd (snd a))))
                  applied).

Definition chdir_targets (cwd : path) (applied : list (path * (path * path)))
  : list path :=
  map snd (filter (fun on => path_eqb (fst on) cwd) (moved_of applied)).

Definition chdirs {W} `{RefreshOps W} (targets : list path) (w : W) : W :=
  fold_left (fun w p => chdir_op p w) targets w.

(** The table of the parents that have moved is rendered, when there is
    one to show. *)
Definition parent_moved_shown {W} `{Render W} (w : W) (not_found : list path)
  : outcome unit :=
  match not_found with
  | [] => Ok tt
  | _ :: _ =>
      match render_paths w (Some "Parent moved") not_found with
      | Ok _ => Ok tt
      | Raise e => Raise e
      end
  end.

(** The run [r] from [s] has raised, and has refreshed no path that is
    not a directory. *)
Definition ended_before_files {W A} (e : exn) (s : St W)
  (r : outcome A * St W) : Prop :=
  fst r = Raise e /\
  exists t, trace (snd r) = trace s ++ t /\ Forall not_cache_refresh t.

(** The last statement of [Main.refresh]: the refresh of the paths that
    are not directories. *)
Definition refresh_files `{Scheduler} {W} `{RefreshOps W} (args : Args)
  : M W unit :=
  w2 <- get_world ;;
  (if negb (opt_debug args)
   then Async (refresh_cache (opt_fetch args) (Options.limit args))
              (not_dirs_of w2) ;; ret tt
   else for_each (not_dirs_of w2)
          (refresh_cache (opt_fetch args) (Options.limit args))).


Definition info_records (l : list (level * string)) : list string :=
  map snd (filter (fun r => match fst r with INFO => true | _ => false end) l).







(** The relative path an element of [to_stash] stands for. *)
Definition rel_of (a : Anchor) (sp : spath) : option path :=
  match sp with
  | Abs p => strip_prefix (anchor_local a) p
  | Rel r => Some r
  end.

(** The copy of a file with content [d] and metadata [m] sits at [q],
    has passed the comparison of checksums and carries the metadata the
    stash chose. *)
Definition stashed_at `{CopyLayer} (f : PathMeta -> outcome PathMeta)
  (d : string) (m : option PathMeta) (q : path) (s : St FS) : Prop :=
  exists cm nm,
    m = Some cm /\ f cm = Ok nm /\
    checksum (transfer d) = checksum d /\
    fs_get (world s) q = Some (NFile (transfer d) (Some nm)).

Definition has_node (q : path) (n : node) (s : St FS) : Prop :=
  fs_get (world s) q = Some n.

(** ** Example inputs *)

Definition tree_unknown : Tree := fun p =>
  if path_eqb p ["data"; "a.csv"]
  then mkPathState KLink
         (Some (mkCache "N:package:a" (Some (mkMeta (Some "N:package:a") None None None None None))))
  else mkPathState KAbsent None.

Definition args_default : Args :=
  mkArgs 2 None (Some 5%Z) false false false false false false false false [] None.

Definition st_init {W} (w : W) : St W := mkSt w [] [] [].

Definition tree_big : Tree := fun p =>
  if path_eqb p ["data"; "big.tif"]
  then mkPathState KLink
         (Some (mkCache "N:package:b"
                  (Some (mkMeta (Some "N:package:b") (Some 52428800%Z) None (Some 7%Z) None None))))
  else mkPathState KAbsent None.

Definition args_limit (l : Z) (fetch : bool) : Args :=
  mkArgs l None (Some 5%Z) fetch false false false false false false false [] None.

#[local] Instance fifo : Scheduler :=
  {| schedule := fun A l => l;
     schedule_perm := fun A l => Permutation_refl l |}.

#[local] Instance plain_render (W : Type) : Render W :=
  {| render_paths := fun _ _ paths => Ok (String.concat newline (map as_posix paths));
     as_pretty := fun _ p => as_posix p |}.

#[local] Instance served_in_full : RemoteStore :=
  {| download_size := fun _ => 52428800%Z |}.

Definition meta_at (ts : Z) : PathMeta :=
  mkMeta (Some "N:package:x") (Some 10%Z) (Some ts) (Some 1%Z) None None.

Definition empty_meta : PathMeta := mkMeta None None None None None None.

(** Three local paths for one remote id: [p1] updated at 100, [p2] at 200,
    [p3] with a cache but no metadata record. *)
Definition tree_dupes : Tree := fun p =>
  if path_eqb p ["p1"] then
    mkPathState KLink (Some (mkCache "N:package:x" (Some (meta_at 100))))
  else if path_eqb p ["p2"] then
    mkPathState KLink (Some (mkCache "N:package:x" (Some (meta_at 200))))
  else if path_eqb p ["p3"] then
    mkPathState KLink (Some (mkCache "N:package:x" None))
  else mkPathState KAbsent None.

(** The same, with an empty metadata record on [p3]. *)
Definition tree_dupes_empty_meta : Tree := fun p =>
  if path_eqb p ["p3"] then
    mkPathState KLink (Some (mkCache "N:package:x" (Some empty_meta)))
  else tree_dupes p.

#[local] Instance one_project : Projects :=
  {| has_secret := fun _ => true;
     project_name := fun _ => "proj";
     project_meta := fun i => mkMeta (Some i) None None None None None;
     local_data_dir := fun a => (a ++ [".operations"])%list;
     local_objects_dir := fun a => (a ++ [".operations"; "objects"])%list;
     trash := fun a => (a ++ [".trash"])%list |}.

Definition args_clone : Args :=
  mkArgs 2 None (Some 5%Z) false false false false false false false false []
         (Some "N:organization:1").

(** A working directory in which the folder of the project exists and
    holds a file. *)
Definition fs_occupied : FS :=
  [ (["home"], NDir None false);
    (["home"; "proj"], NDir None false);
    (["home"; "proj"; "notes.txt"], NFile "keep" None) ].

Definition fs_free : FS := [ (["home"], NDir None false) ].

(** A layer over a world without state: the update of [/gone] finds its
    parent moved, that of [/busy] a directory that is not empty, that of
    [/locked] is refused. *)
#[local] Instance ops_example : RefreshOps unit :=
  {| has_cache := fun _ p => match p with [] => false | _ :: _ => true end;
     local_is_dir := fun _ p => negb (path_eqb p ["org"; "ds"; "f.csv"]);
     walk_paths := fun _ => [["org"; "ds"]; ["org"; "ds"; "f.csv"]];
     cache_is_file := fun _ _ => false;
     cache_exists := fun _ _ => true;
     remote_local := fun _ p => p;
     remote_refresh_op := fun _ p w => (Ok (Some p), w);
     update_cache_op := fun p w =>
       if path_eqb p ["gone"] then (Raise (FileNotFoundError ENOENT), w)
       else if path_eqb p ["busy"] then (Raise (OSError ENOTEMPTY), w)
       else if path_eqb p ["locked"] then (Raise (OSError 13), w)
       else (Ok tt, w);
     cache_refresh_op := fun _ _ _ w => (Ok tt, w);
     chdir_op := fun _ w => w |}.

#[local] Instance in_order : SetOrder :=
  {| set_order := fun A l => l;
     set_order_perm := fun A l => Permutation_refl l |}.

(** An organization with two datasets: the remote has renamed [ds1] to
    [ds1-renamed], [ds2] is where it was. *)
Definition ds1 : CacheObj := mkCacheObj ["org"; "ds1"] "N:dataset:1".
Definition ds1_new : CacheObj := mkCacheObj ["org"; "ds1-renamed"] "N:dataset:1".
Definition ds2 : CacheObj := mkCacheObj ["org"; "ds2"] "N:dataset:2".
Definition org : CacheObj := mkCacheObj ["org"] "N:organization:1".

#[local] Instance pull_example : PullOps unit :=
  {| children_of := fun _ d =>
       if path_eqb d ["org"] then [["org"; "ds1"]; ["org"; "ds2"]] else [];
     rchildren_of := fun _ d =>
       if path_eqb d ["org"] then [["org"; "ds1"]; ["org"; "ds2"]] else [];
     pull_is_dir := fun _ _ => true;
     cache_of := fun _ p =>
       if path_eqb p ["org"] then Some org
       else if path_eqb p ["org"; "ds1"] then Some ds1
       else if path_eqb p ["org"; "ds2"] then Some ds2
       else None;
     skip_cache_of := fun _ => false;
     is_organization := fun _ p => path_eqb p ["org"];
     remote_is_dataset_or_organization := fun _ _ => true;
     cache_refresh := fun c w =>
       if path_eqb (co_path c) ["org"; "ds1"] then (Ok (Some ds1_new), w)
       else (Ok (Some c), w);
     bootstrap := fun _ _ _ _ w => (Ok [], w) |}.

Definition pull_start : St (PullWorld unit) :=
  st_init (mkPullWorld tt "/org/old -> /org/older -> N:dataset:0
").

Definition args_stash : Args :=
  mkArgs 2 None (Some 5%Z) false false false false false false false false [] None.

Definition args_restore : Args :=
  mkArgs 2 None (Some 5%Z) false false false false false false true false [] None.

Definition proj_anchor : Anchor := mkAnchor ["r"] "proj".

(** Two files of the same name, one at the top of the project and one in
    the folder [zz]. *)
Definition fs_two_files : FS :=
  [ (["r"], NDir None false);
    (["r"; "proj"], NDir (Some (meta_at 0)) true);
    (["r"; "proj"; "b.txt"], NFile "top" (Some (meta_at 1)));
    (["r"; "proj"; "zz"], NDir (Some (meta_at 5)) false);
    (["r"; "proj"; "zz"; "b.txt"], NFile "nested" (Some (meta_at 2))) ].

(** A single file. *)
Definition fs_one_file : FS :=
  [ (["r"], NDir None false);
    (["r"; "proj"], NDir (Some (meta_at 0)) true);
    (["r"; "proj"; "b.txt"], NFile "top" (Some (meta_at 1))) ].

#[local] Instance faithful_copy : CopyLayer :=
  {| checksum := fun d => d; transfer := fun d => d |}.

(** A copy that loses the content. *)
Definition truncating_copy : CopyLayer :=
  {| checksum := fun d => d; transfer := fun _ => EmptyString |}.

(** The state after the stash of [b.txt], and the same after the file
    was overwritten in the working tree. *)
Definition stashed_one_file : St FS :=
  snd (stash args_stash proj_anchor "2019" (fun m => Ok m)
         [["r"; "proj"; "b.txt"]] (st_init fs_one_file)).

Definition edited_after_stash : St FS :=
  mkSt (fs_put (world stashed_one_file) ["r"; "proj"; "b.txt"]
          (NFile "edited" None))
       [] [] [].

(** A layer whose world is the journal of what took effect: the update
    of [/org] finds a directory that is not empty and leaves the world as
    it was, every other update and every refresh is entered. *)
Definition journal_layer : RefreshOps (list event) :=
  {| has_cache := fun _ p => match p with [] => false | _ :: _ => true end;
     local_is_dir := fun _ p => negb (path_eqb p ["org"; "ds"; "f.csv"]);
     walk_paths := fun _ => [["org"; "ds"; "f.csv"]];
     cache_is_file := fun _ _ => false;
     cache_exists := fun _ _ => true;
     remote_local := fun _ p => p;
     remote_refresh_op := fun _ p w => (Ok (Some p), w ++ [EvRemoteRefresh p]);
     update_cache_op := fun p w =>
       if path_eqb p ["org"] then (Raise (OSError ENOTEMPTY), w)
       else (Ok tt, w ++ [EvUpdateCache p]);
     cache_refresh_op := fun _ _ p w => (Ok tt, w ++ [EvCacheRefresh p]);
     chdir_op := fun _ w => w |}.

(** [Async] running the last request first. *)
Definition lifo : Scheduler :=
  {| schedule := fun A l => rev l;
     schedule_perm := fun A l => Permutation_rev l |}.

(** A dataset with two cached files, over a world that is the journal of
    the ids whose cache was refreshed: the bootstrap returns [a.csv] under
    a new id, and [gone.txt] not at all. *)
Definition pull_replaced : PullOps (list string) :=
  {| children_of := fun _ _ => [];
     rchildren_of := fun _ p =>
       if path_eqb p ["ds"] then [["ds"; "a.csv"]; ["ds"; "gone.txt"]] else [];
     pull_is_dir := fun _ p => path_eqb p ["ds"];
     cache_of := fun _ p =>
       if path_eqb p ["ds"] then Some (mkCacheObj ["ds"] "N:dataset:1")
       else if path_eqb p ["ds"; "a.csv"]
            then Some (mkCacheObj ["ds"; "a.csv"] "N:package:old")
       else if path_eqb p ["ds"; "gone.txt"]
            then Some (mkCacheObj ["ds"; "gone.txt"] "N:package:gone")
       else None;
     skip_cache_of := fun _ => false;
     is_organization := fun _ _ => false;
     remote_is_dataset_or_organization := fun _ _ => true;
     cache_refresh := fun c w => (Ok (Some c), (w ++ [co_id c])%list);
     bootstrap := fun _ _ _ _ w =>
       (Ok [Some (mkCacheObj ["ds"; "a.csv"] "N:package:new")], w) |}.

(** * More of the command line

    The rest of [cli.py] that the synchronisation commands rest on, and
    the other commands that read the same tree. *)

(** ** The paths of a command: [_paths] and [_build_paths] *)

(** [p.children] and [p.rchildren], in the order the walk meets them. *)
Class Listing : Type := {
  list_children : path -> list path;
  list_rchildren : path -> list path
}.

(** A generator, run to its end: the paths it has yielded and the
    exception that ended it, if one did. *)
Definition Gen : Type := (list path * option exn)%type.

Definition gen_done : Gen := ([], None).

Definition gen_yield (p : path) : Gen := ([p], None).

Definition gen_raise (e : exn) : Gen := ([], Some e).

Definition gen_then (g k : Gen) : Gen :=
  match snd g with
  | Some _ => g
  | None => (fst g ++ fst k, snd k)
  end.

Fixpoint gen_for {A} (l : list A) (body : A -> Gen) : Gen :=
  match l with
  | [] => gen_done
  | x :: rest => gen_then (body x) (gen_for rest body)
  end.

(** [p.is_broken_symlink() and (p.cache.meta.file_id is None)] *)
Definition lacks_file_id (t : Tree) (p : path) : outcome bool :=
  if is_broken_symlink (t p) then
    match cache (t p) with
    | None => Raise (AttributeError "meta")
    | Some c =>
        match cache_meta c with
        | None => Raise (AttributeError "file_id")
        | Some m => Ok (match meta_file_id m with
                        | None => true
                        | Some _ => false
                        end)
        end
    end
  else Ok false.

Definition yield_if_lacks_file_id (t : Tree) (p : path) : Gen :=
  match lacks_file_id t p with
  | Ok true => gen_yield p
  | Ok false => gen_done
  | Raise e => gen_raise e
  end.

(** The generator [inner] of [_build_paths]; [fuel] bounds the depth of
    the recursion, which the source bounds by [level <= stop]. *)
Fixpoint inner `{Listing} (t : Tree) (only_no_file_id empty : bool)
  (stop : option Z) (fuel : nat) (level : Z) (paths : list path)
  {struct fuel} : Gen :=
  gen_for paths (fun path =>
    let below :=
      match stop with
      | None =>
          if only_no_file_id
          then gen_for (list_rchildren path) (yield_if_lacks_file_id t)
          else (list_rchildren path, None)
      | Some st =>
          if (level <=? st)%Z then
            match fuel with
            | S f => inner t only_no_file_id empty stop f (level + 1)%Z
                       (list_children path)
            | O => gen_done
            end
          else gen_done
      end in
    if only_no_file_id then
      match lacks_file_id t path with
      | Raise e => gen_raise e
      | Ok true => gen_yield path
      | Ok false => below
      end
    else if empty then
      if is_dir (t path) then
        gen_then (match list_children path with
                  | [] => gen_yield path
                  | _ :: _ => gen_done
                  end) below
      else gen_done
    else gen_then (gen_yield path) below).

(** The depth the recursion can reach from [level] under [stop]. *)
Definition levels_left (stop level : Z) : nat := Z.to_nat (stop - level + 1).

(** [Main._build_paths]. *)
Definition build_paths `{Listing} (t : Tree) (args : Args)
  (only_no_file_id : bool) (paths : list path) : Gen :=
  inner t only_no_file_id (opt_empty args) (Options.level args)
    (match Options.level args with
     | Some st => levels_left st 0
     | None => 0
     end) 0%Z paths.

(** [Main._paths]; [meta_paths] is
    [dat.DatasetStructureLax(p).meta_paths]. *)
Definition paths_of `{Listing} (t : Tree) (args : Args)
  (only_no_file_id only_meta : bool) (meta_paths : path -> list path)
  (cwd : path) (paths : list path) : Gen :=
  let paths := requested_paths cwd paths in
  if only_meta then (flat_map meta_paths paths, None)
  else build_paths t args only_no_file_id paths.

(** [Main._dirs] and [Main._not_dirs] over the paths of [_paths]. *)
Definition dirs_among (t : Tree) (g : Gen) : Gen :=
  (filter (fun p => is_dir (t p)) (fst g), snd g).

Definition not_dirs_among (t : Tree) (g : Gen) : Gen :=
  (filter (fun p => negb (is_dir (t p))) (fst g), snd g).

(** The paths [k] steps of [children] below [p]. *)
Fixpoint at_depth `{Listing} (k : nat) (p : path) : list path :=
  match k with
  | O => [p]
  | S k' => flat_map (at_depth k') (list_children p)
  end.

(** A folder [d] with an empty folder [e] and a placeholder [f.csv]
    whose metadata has no file id. *)
#[local] Instance listing_small : Listing :=
  {| list_children := fun p =>
       if path_eqb p ["d"] then [["d"; "e"]; ["d"; "f.csv"]] else [];
     list_rchildren := fun p =>
       if path_eqb p ["d"] then [["d"; "e"]; ["d"; "f.csv"]] else [] |}.

Definition tree_small : Tree := fun p =>
  if path_eqb p ["d"] then mkPathState KDir (Some (mkCache "N:dataset:d" None))
  else if path_eqb p ["d"; "e"] then
    mkPathState KDir (Some (mkCache "N:collection:e" None))
  else if path_eqb p ["d"; "f.csv"] then
    mkPathState KLink
      (Some (mkCache "N:package:f"
               (Some (mkMeta (Some "N:package:f") (Some 3%Z) None None None None))))
  else mkPathState KAbsent None.

Definition args_level (l : option Z) (empty : bool) : Args :=
  mkArgs 2 l (Some 5%Z) false false false false false false false empty [] None.

(** ** Invariants of the commands that only look *)

(** The tree and the calls to the layers below are those of [s0]. *)
Definition read_only {W} (s0 : St W) (s : St W) : Prop :=
  world s = world s0 /\ trace s = trace s0.

(** An event that is not a change of directory to [cwd]. *)
Definition chdir_elsewhere (cwd : path) (e : event) : Prop :=
  match e with
  | EvChdir p => p <> cwd
  | _ => True
  end.

(** Since the trace [t0], no call has changed the directory to [cwd]. *)
Definition only_chdir_elsewhere {W} (t0 : list event) (cwd : path)
  (s : St W) : Prop :=
  exists evs, trace s = t0 ++ evs /\ Forall (chdir_elsewhere cwd) evs.

(** Every recorded move is between two different paths. *)
Definition moves_differ (mv : list (path * path)) : Prop :=
  Forall (fun on => fst on <> snd on) mv.

(** A placeholder of 50 MiB that was never fetched, and a file of the
    same cached size that is there in full. *)
Definition tree_mixed : Tree := fun p =>
  if path_eqb p ["data"; "big.tif"]
  then mkPathState KLink
         (Some (mkCache "N:package:b"
                  (Some (mkMeta (Some "N:package:b") (Some 52428800%Z) None (Some 7%Z) None None))))
  else if path_eqb p ["data"; "here.tif"]
  then mkPathState (KFile 52428800%Z)
         (Some (mkCache "N:package:h"
                  (Some (mkMeta (Some "N:package:h") (Some 52428800%Z) None (Some 8%Z) None None))))
  else mkPathState KAbsent None.

Definition args_exists : Args :=
  mkArgs 2 None (Some 5%Z) false false false true false false false false [] None.

(** A remote without the secret of the project. *)
Definition no_secret : Projects :=
  {| has_secret := fun _ => false;
     project_name := fun _ => "proj";
     project_meta := fun i => mkMeta (Some i) None None None None None;
     local_data_dir := fun a => (a ++ [".operations"])%list;
     local_objects_dir := fun a => (a ++ [".operations"; "objects"])%list;
     trash := fun a => (a ++ [".trash"])%list |}.

(** A working directory inside a project. *)
Definition fs_in_project : FS :=
  [ (["home"], NDir None false);
    (["home"; "proj"], NDir (Some (meta_at 0)) true);
    (["home"; "proj"; "ds"], NDir (Some (meta_at 1)) false) ].

(** An organization whose dataset [ds1] is gone from the remote, and a
    layer in which the organization itself is gone. *)
Definition pull_child_deleted : PullOps unit :=
  {| children_of := fun _ d =>
       if path_eqb d ["org"] then [["org"; "ds1"]] else [];
     rchildren_of := fun _ d =>
       if path_eqb d ["org"] then [["org"; "ds1"]] else [];
     pull_is_dir := fun _ _ => true;
     cache_of := fun _ p =>
       if path_eqb p ["org"] then Some org
       else if path_eqb p ["org"; "ds1"] then Some ds1
       else None;
     skip_cache_of := fun _ => false;
     is_organization := fun _ p => path_eqb p ["org"];
     remote_is_dataset_or_organization := fun _ _ => true;
     cache_refresh := fun c w =>
       if path_eqb (co_path c) ["org"; "ds1"] then (Ok None, w)
       else (Ok (Some c), w);
     bootstrap := fun _ _ _ _ w => (Ok [], w) |}.

Definition pull_all_deleted : PullOps unit :=
  {| children_of := fun _ _ => [];
     rchildren_of := fun _ _ => [];
     pull_is_dir := fun _ _ => true;
     cache_of := fun _ p => Some (mkCacheObj p "N:dataset:gone");
     skip_cache_of := fun _ => false;
     is_organization := fun _ _ => false;
     remote_is_dataset_or_organization := fun _ _ => true;
     cache_refresh := fun _ w => (Ok None, w);
     bootstrap := fun _ _ _ _ w => (Ok [], w) |}.

(** ** fix mismatch *)

(** Truth value of a string. *)
Definition truthy_string (s : string) : bool :=
  match s with
  | EmptyString => false
  | String _ _ => true
  end.

(** The function [sf] of [Fix.mismatch]:
    [nmeta = PathMeta(id=cmeta.old_id)] and
    [assert nmeta.id, f'No old_id for {pathmeta}'].  The message of the
    assertion is evaluated when the assertion fails; it reads the name
    [pathmeta], which is defined nowhere. *)
Definition sf (cmeta : PathMeta) : outcome PathMeta :=
  let nmeta := mkMeta (meta_old_id cmeta) None None None None None in
  if match meta_id nmeta with
     | Some i => truthy_string i
     | None => false
     end
  then Ok nmeta
  else Raise (NameError "pathmeta").

(** [Fix.mismatch] up to its [embed()]; [oops] is [list(self.parent.status())],
    each path with the text of its [as_pretty_diff]. *)
Definition mismatch `{SetOrder} `{CopyLayer} `{Render FS} (args : Args)
  (a : Anchor) (timestamp : string) (oops : list (path * string))
  : M FS unit :=
  for_each oops (fun o => print (snd o)) ;;
  let paths := map fst oops in
  nall <- stash args a timestamp sf paths ;;
  match nall with
  | None => raise (TypeError "'NoneType' object is not iterable")
  | Some l =>
      for_each l (fun n => m <- cache_meta_of n ;; print (as_pretty m n))
  end.

(** The entry at [q] is what it was in [s0]. *)
Definition node_kept (s0 : St FS) (q : path) (s : St FS) : Prop :=
  fs_get (world s) q = fs_get (world s0) q.

(** A file whose metadata was overwritten: the cache remembers the id
    of the old version. *)
Definition meta_overwritten : PathMeta :=
  mkMeta (Some "N:package:new") (Some 10%Z) (Some 7%Z) (Some 2%Z) None
         (Some "N:package:old").

Definition fs_overwritten : FS :=
  [ (["r"], NDir None false);
    (["r"; "proj"], NDir (Some (meta_at 0)) true);
    (["r"; "proj"; "b.txt"], NFile "old bytes" (Some meta_overwritten)) ].

(** ** What [fix duplicates] groups and orders *)

(** [p.cache.meta.updated.timestamp()], where every step is there. *)
Definition updated_at (t : Tree) (p : path) : option Z :=
  match cache (t p) with
  | Some c =>
      match cache_meta c with
      | Some m => meta_updated m
      | None => None
      end
  | None => None
  end.

(** [a] was updated no earlier than [b]. *)
Definition newest_first (t : Tree) (a b : path) : Prop :=
  forall ta tb, updated_at t a = Some ta -> updated_at t b = Some tb ->
                (tb <= ta)%Z.

(** The paths whose cache has the remote id [i], in their order. *)
Definition with_id (t : Tree) (i : string) (paths : list path) : list path :=
  filter (fun p => match cache (t p) with
                   | Some c => String.eqb (cache_id c) i
                   | None => false
                   end) paths.

(** [all_.get(i)]. *)
Fixpoint group_of (i : string) (all_ : list (string * list path))
  : option (list path) :=
  match all_ with
  | [] => None
  | (j, l) :: rest => if String.eqb i j then Some l else group_of i rest
  end.

(** No path is cached under two timestamps that tie, the three
    duplicates of one package, and a fourth path of another package. *)
Definition tree_three_dated : Tree := fun p =>
  if path_eqb p ["p1"] then
    mkPathState KLink (Some (mkCache "N:package:x" (Some (meta_at 100))))
  else if path_eqb p ["p2"] then
    mkPathState KLink (Some (mkCache "N:package:x" (Some (meta_at 300))))
  else if path_eqb p ["p3"] then
    mkPathState KLink (Some (mkCache "N:package:x" (Some (meta_at 200))))
  else if path_eqb p ["p4"] then
    mkPathState KLink (Some (mkCache "N:package:y" (Some (meta_at 50))))
  else mkPathState KAbsent None.

(** ** The table of paths: [_print_paths] and [_print_table] *)

(** The size column before it is printed: a [FileSize] or a string. *)
Inductive Cell : Type :=
| CStr (s : string)
| CSize (z : Z).

(** ['/' if p.is_dir() else
     (p.cache.meta.size if p.cache.meta.size else '??')
     if p.cache.meta else '_'] *)
Definition size_cell (t : Tree) (p : path) : outcome Cell :=
  if is_dir (t p) then Ok (CStr "/")
  else
    match cache (t p) with
    | None => Raise (AttributeError "meta")
    | Some c =>
        match cache_meta c with
        | None => Ok (CStr "_")
        | Some m =>
            if meta_bool m then
              match meta_size m with
              | Some z => if (z =? 0)%Z then Ok (CStr "??") else Ok (CSize z)
              | None => Ok (CStr "??")
              end
            else Ok (CStr "_")
        end
    end.

(** [-ps[-1]], the key under [--sort-size-desc]. *)
Definition cell_key (c : Cell) : outcome Z :=
  match c with
  | CSize z => Ok (- z)%Z
  | CStr _ => Raise (TypeError "bad operand type for unary -: 'str'")
  end.

(** A comprehension whose element expression may raise, outside the
    monad. *)
Fixpoint map_o {A B} (f : A -> outcome B) (l : list A) : outcome (list B) :=
  match l with
  | [] => Ok []
  | x :: rest =>
      match f x with
      | Raise e => Raise e
      | Ok y =>
          match map_o f rest with
          | Raise e => Raise e
          | Ok ys => Ok (y :: ys)
          end
      end
  end.

(** The order of paths: that of their parts. *)
Fixpoint path_compare (p q : path) : comparison :=
  match p, q with
  | [], [] => Eq
  | [], _ :: _ => Lt
  | _ :: _, [] => Gt
  | x :: p', y :: q' =>
      match String.compare x y with
      | Eq => path_compare p' q'
      | c => c
      end
  end.

Definition path_leb (p q : path) : bool :=
  match path_compare p q with
  | Gt => false
  | _ => true
  end.

(** [sorted(([p, cell] for p in paths), key=key)]: the pairs are built
    first, then the keys are computed, then the list is sorted.  Without
    [--sort-size-desc] the pairs themselves are compared, which the
    paths decide, equal paths having equal cells. *)
Definition sorted_pairs (sort_size_desc : bool) (t : Tree)
  (paths : list path) : outcome (list (path * Cell)) :=
  match map_o (fun p => match size_cell t p with
                        | Ok c => Ok (p, c)
                        | Raise e => Raise e
                        end) paths with
  | Raise e => Raise e
  | Ok pairs =>
      if sort_size_desc then
        match map_o (fun pc => match cell_key (snd pc) with
                               | Ok k => Ok (k, pc)
                               | Raise e => Raise e
                               end) pairs with
        | Raise e => Raise e
        | Ok keyed => Ok (map snd (sorted Z.leb fst keyed))
        end
      else Ok (sorted path_leb fst pairs)
  end.

Definition cell_str (hr : Z -> string) (c : Cell) : string :=
  match c with
  | CStr s => s
  | CSize z => hr z
  end.

(** The rows of [_print_paths]; [hr] is [FileSize.hr]. *)
Definition paths_rows (hr : Z -> string) (sort_size_desc : bool) (t : Tree)
  (paths : list path) : outcome (list (list string)) :=
  match sorted_pairs sort_size_desc t paths with
  | Raise e => Raise e
  | Ok l =>
      Ok (["Path"; "size"; "?"] ::
          map (fun pc => [as_posix (fst pc); cell_str hr (snd pc);
                          if path_exists (t (fst pc)) then "x" else EmptyString])
              l)
  end.

Definition tab : string := String (ascii_of_nat 9) EmptyString.

(** [simple_tsv] of [_print_table]. *)
Definition simple_tsv (rows : list (list string)) : string :=
  String.concat newline (map (String.concat tab) rows) ++ newline.

(** [_print_paths] under [--tab-table]. *)
Definition print_paths_tab (hr : Z -> string) (sort_size_desc : bool)
  (title : option string) (paths : list path) : M Tree unit :=
  t <- get_world ;;
  rows <- of_outcome (paths_rows hr sort_size_desc t paths) ;;
  (match title with
   | Some ti => if truthy_string ti then print ti else ret tt
   | None => ret tt
   end) ;;
  print (simple_tsv rows).

(** The cached size of a path, where it is known and not zero. *)
Definition known_size (t : Tree) (p : path) : option Z :=
  if is_dir (t p) then None
  else
    match cache (t p) with
    | Some c =>
        match cache_meta c with
        | Some m =>
            match meta_size m with
            | Some z => if (z =? 0)%Z then None else Some z
            | None => None
            end
        | None => None
        end
    | None => None
    end.

(** [a] is cached as no smaller than [b]. *)
Definition larger_first (t : Tree) (a b : path) : Prop :=
  forall za zb, known_size t a = Some za -> known_size t b = Some zb ->
                (zb <= za)%Z.

(** Three placeholders of 5, 70 and 20 bytes, and their folder. *)
Definition tree_sizes : Tree := fun p =>
  let sized (z : Z) :=
    mkPathState KLink
      (Some (mkCache "N:package:s"
               (Some (mkMeta (Some "N:package:s") (Some z) None None None None)))) in
  if path_eqb p ["d"; "a"] then sized 5%Z
  else if path_eqb p ["d"; "b"] then sized 70%Z
  else if path_eqb p ["d"; "c"] then sized 20%Z
  else if path_eqb p ["d"] then
    mkPathState KDir (Some (mkCache "N:dataset:d" None))
  else mkPathState KAbsent None.

(** ** report tofetch *)

Record Counts : Type := mkCounts {
  c_outstanding : Z;
  c_total : Z;
  c_tf : Z;
  c_ff : Z;
  c_td : Z;
  c_uncertain : bool
}.

Definition no_counts : Counts := mkCounts 0 0 0 0 0 false.

Definition ps_is_file (s : PathState) : bool :=
  match kind s with KFile _ => true | _ => false end.

(** [d[k] = v] on an insertion-ordered dictionary. *)
Fixpoint dict_set {V} (k : path) (v : V) (d : list (path * V))
  : list (path * V) :=
  match d with
  | [] => [(k, v)]
  | (k', v') :: rest =>
      if path_eqb k' k then (k', v) :: rest
      else (k', v') :: dict_set k v rest
  end.

(** [{p: p.cache.meta if p.cache else dead(p) for p in paths
      if p.suffix not in ('.swp',)}]; [suffix] is [p.suffix]. *)
Fixpoint path_meta (suffix : path -> string) (t : Tree) (paths : list path)
  (d : list (path * option PathMeta)) : outcome (list (path * option PathMeta)) :=
  match paths with
  | [] => Ok d
  | p :: rest =>
      if String.eqb (suffix p) ".swp" then path_meta suffix t rest d
      else
        match cache (t p) with
        | Some c => path_meta suffix t rest (dict_set p (cache_meta c) d)
        | None => Raise (ValueError (as_posix p))
        end
  end.

(** The body of [for p, m in path_meta.items()]. *)
Definition count_step (t : Tree) (acc : Counts)
  (pm : path * option PathMeta) : outcome Counts :=
  let (p, m) := pm in
  if ps_is_file (t p) || is_broken_symlink (t p) then
    match m with
    | None => Raise (AttributeError "size")
    | Some m =>
        match meta_size m with
        | None =>
            Ok (mkCounts (c_outstanding acc) (c_total acc) (c_tf acc)
                         (c_ff acc) (c_td acc) true)
        | Some s =>
            let tf := (c_tf acc + 1)%Z in
            let total := if (s =? 0)%Z then c_total acc
                         else (c_total acc + s)%Z in
            if is_broken_symlink (t p) then
              Ok (mkCounts (if (s =? 0)%Z then c_outstanding acc
                            else (c_outstanding acc + s)%Z)
                           total tf (c_ff acc + 1)%Z (c_td acc)
                           (c_uncertain acc))
            else
              Ok (mkCounts (c_outstanding acc) total tf (c_ff acc)
                           (c_td acc) (c_uncertain acc))
        end
    end
  else if is_dir (t p) then
    Ok (mkCounts (c_outstanding acc) (c_total acc) (c_tf acc) (c_ff acc)
                 (c_td acc + 1)%Z (c_uncertain acc))
  else Ok acc.

Fixpoint count_all (t : Tree) (acc : Counts)
  (l : list (path * option PathMeta)) : outcome Counts :=
  match l with
  | [] => Ok acc
  | pm :: rest =>
      match count_step t acc pm with
      | Ok acc' => count_all t acc' rest
      | Raise e => Raise e
      end
  end.

(** A row of [data]. *)
Record FetchRow : Type := mkFetchRow {
  r_name : string;
  r_local : Z;
  r_outstanding : Z;
  r_total : Z;
  r_uncertain : bool;
  r_lf : Z;
  r_ff : Z;
  r_tf : Z;
  r_td : Z
}.

(** The loop [for d in dirs] of [Report.tofetch]. *)
Fixpoint tofetch_data `{Listing} (suffix : path -> string) (t : Tree)
  (dirs : list path) : outcome (list FetchRow) :=
  match dirs with
  | [] => Ok []
  | d :: rest =>
      if negb (is_dir (t d)) then tofetch_data suffix t rest
      else
        match path_meta suffix t (list_rchildren d) [] with
        | Raise e => Raise e
        | Ok entries =>
            match count_all t no_counts entries with
            | Raise e => Raise e
            | Ok c =>
                match tofetch_data suffix t rest with
                | Raise e => Raise e
                | Ok rows =>
                    Ok (mkFetchRow (name_of d)
                          (c_total c - c_outstanding c)%Z (c_outstanding c)
                          (c_total c) (c_uncertain c) (c_tf c - c_ff c)%Z
                          (c_ff c) (c_tf c) (c_td c) :: rows)
                end
            end
        end
  end.

(** The order of the tuples [(r[4], -r[3])]. *)
Definition bool_Z_leb (a b : bool * Z) : bool :=
  if Bool.eqb (fst a) (fst b) then (snd a <=? snd b)%Z
  else bool_leb (fst a) (fst b).

Definition str_Z (z : Z) : string := NilZero.string_of_int (Z.to_int z).

(** [Report.tofetch]; [directory] is [self.options.directory].  The call
    that would print the table passes [ext=ext], and the function has no
    such name in scope. *)
Definition tofetch `{Listing} (hr : Z -> string) (suffix : path -> string)
  (t : Tree) (cwd : path) (directory : list path)
  : outcome (list (list string)) :=
  let dirs := match directory with [] => [cwd] | _ :: _ => directory end in
  match tofetch_data suffix t dirs with
  | Raise e => Raise e
  | Ok data =>
      let formatted :=
        map (fun r => [r_name r; hr (r_local r); hr (r_outstanding r);
                       if negb (r_uncertain r) then hr (r_total r) else "??";
                       str_Z (r_lf r); str_Z (r_ff r); str_Z (r_tf r);
                       str_Z (r_td r)])
            (sorted bool_Z_leb
               (fun r => (r_uncertain r, (- r_total r)%Z)) data) in
      let rows := ["Folder"; "Local"; "To Retrieve"; "Total";
                   "L"; "R"; "T"; "TD"] :: formatted in
      Raise (NameError "ext")
  end.

(** The cached size of an entry that is a file on disk. *)
Definition present_size (t : Tree) (pm : path * option PathMeta) : option Z :=
  if ps_is_file (t (fst pm)) then
    match snd pm with
    | Some m => meta_size m
    | None => None
    end
  else None.

(** The bytes and the number of the files that are on disk and have a
    cached size. *)
Fixpoint local_bytes (t : Tree) (l : list (path * option PathMeta)) : Z :=
  match l with
  | [] => 0
  | pm :: rest =>
      match present_size t pm with
      | Some s => (s + local_bytes t rest)%Z
      | None => local_bytes t rest
      end
  end.

Definition local_files (t : Tree) (l : list (path * option PathMeta)) : nat :=
  List.length (filter (fun pm => match present_size t pm with
                                 | Some _ => true
                                 | None => false
                                 end) l).

(** A dataset with one file fetched and one placeholder. *)
Definition listing_dataset : Listing :=
  {| list_children := fun p =>
       if path_eqb p ["ds"] then [["ds"; "here.tif"]; ["ds"; "big.tif"]] else [];
     list_rchildren := fun p =>
       if path_eqb p ["ds"] then [["ds"; "here.tif"]; ["ds"; "big.tif"]] else [] |}.

Definition tree_dataset : Tree := fun p =>
  if path_eqb p ["ds"] then mkPathState KDir (Some (mkCache "N:dataset:d" None))
  else if path_eqb p ["ds"; "big.tif"]
  then mkPathState KLink
         (Some (mkCache "N:package:b"
                  (Some (mkMeta (Some "N:package:b") (Some 500%Z) None (Some 7%Z) None None))))
  else if path_eqb p ["ds"; "here.tif"]
  then mkPathState (KFile 300%Z)
         (Some (mkCache "N:package:h"
                  (Some (mkMeta (Some "N:package:h") (Some 300%Z) None (Some 8%Z) None None))))
  else mkPathState KAbsent None.

(** ** goto *)

(** The loop of [Main.goto] over [self.cwd.rchildren]; [remote_id] is
    [self.options.remote_id] and [skip_cache] is [rc.skip_cache]. *)
Fixpoint goto (skip_cache : path -> bool) (remote_id : string) (cwd : path)
  (rcs : list path) : M Tree unit :=
  match rcs with
  | [] => ret tt
  | rc :: rest =>
      ps <- path_state rc ;;
      match cache ps with
      | None =>
          (if skip_cache rc then ret tt
           else
             log_msg CRITICAL (as_posix rc) ;;
             log_msg ERROR "'NoneType' object has no attribute 'id'") ;;
          goto skip_cache remote_id cwd rest
      | Some c =>
          if String.eqb (cache_id c) remote_id then
            let rc := if is_broken_symlink ps || ps_is_file ps
                      then parent rc else rc in
            match strip_prefix cwd rc with
            | Some r => print (rel_posix r)
            | None => raise (ValueError "is not in the subpath")
            end
          else goto skip_cache remote_id cwd rest
      end
  end.

(** No cache of the path has the remote id [i]. *)
Definition other_id (t : Tree) (i : string) (p : path) : Prop :=
  forall c, cache (t p) = Some c -> cache_id c <> i.

(** ** status *)

(** The local side of a comparison: [f.meta] and [f.meta_no_checksum],
    [lmeta.content_different(cmeta)] and the text of
    [lmeta.as_pretty_diff(cmeta, pathobject=f)]. *)
Class LocalMeta : Type := {
  local_meta : path -> PathMeta;
  local_meta_no_checksum : path -> PathMeta;
  content_different : PathMeta -> PathMeta -> bool;
  as_pretty_diff : PathMeta -> PathMeta -> path -> string
}.

(** [setattr(lmeta, 'id', None)] and [setattr(lmeta, 'file_id', None)]. *)
Definition clear_ids (m : PathMeta) : PathMeta :=
  mkMeta None (meta_size m) (meta_updated m) None (meta_checksum m)
         (meta_old_id m).

Definition truthy_checksum (m : PathMeta) : bool :=
  match meta_checksum m with
  | Some c => truthy_string c
  | None => false
  end.

(** The loop of [Main.status], run to its end as [list(self.status())]
    runs it.  [cmeta] is the local of that name: unbound at first, and
    after a round whatever the last assignment left in it.  Under
    [--status] a difference is printed, otherwise it is yielded. *)
Fixpoint status_loop `{LocalMeta} (skip_cache : path -> bool)
  (opt_status : bool) (cmeta : option (option PathMeta))
  (files : list path) : M Tree (list (path * PathMeta * PathMeta)) :=
  match files with
  | [] => ret []
  | f :: rest =>
      ps <- path_state f ;;
      let after_try (cm : option (option PathMeta)) :=
        bound <- local_var "cmeta" cm ;;
        c <- attr "checksum" bound ;;
        let lmeta := clear_ids (if truthy_checksum c then local_meta f
                                else local_meta_no_checksum f) in
        if content_different lmeta c then
          if opt_status then
            print (as_pretty_diff lmeta c f) ;;
            status_loop skip_cache opt_status cm rest
          else
            ys <- status_loop skip_cache opt_status cm rest ;;
            ret ((f, lmeta, c) :: ys)
        else status_loop skip_cache opt_status cm rest in
      match cache ps with
      | Some ca => after_try (Some (cache_meta ca))
      | None =>
          if skip_cache f then status_loop skip_cache opt_status cmeta rest
          else after_try cmeta
      end
  end.

(** [Main.status]; [project_path] is [self.cwd.find_cache_root()]. *)
Definition status `{LocalMeta} `{Listing} (skip_cache : path -> bool)
  (opt_status : bool) (cwd : path) (project_path : option path)
  : M Tree (list (path * PathMeta * PathMeta)) :=
  match project_path with
  | None => print (as_posix cwd ++ " is not in a project!") ;; sys_exit 111
  | Some root =>
      t <- get_world ;;
      status_loop skip_cache opt_status None
        (filter (fun f => ps_is_file (t f)) (list_rchildren root))
  end.

(** The cache of the path holds the record [c]. *)
Definition cached_as (t : Tree) (p : path) (c : PathMeta) : Prop :=
  exists ca, cache (t p) = Some ca /\ cache_meta ca = Some c.

(** A tracked file that has its size, and beside it a file the remote
    does not know. *)
Definition tree_with_stray : Tree := fun p =>
  if path_eqb p ["ds"; "a.csv"]
  then mkPathState (KFile 10%Z)
         (Some (mkCache "N:package:a" (Some (meta_at 1))))
  else if path_eqb p ["ds"; "notes.txt"]
  then mkPathState (KFile 4%Z) None
  else mkPathState KAbsent None.

(** Local metadata that only knows sizes; two records differ when their
    sizes do. *)
Definition sizes_only : LocalMeta :=
  {| local_meta := fun p =>
       mkMeta None (Some (st_size_of (tree_with_stray p))) None None None None;
     local_meta_no_checksum := fun p =>
       mkMeta None (Some (st_size_of (tree_with_stray p))) None None None None;
     content_different := fun l c =>
       match meta_size l, meta_size c with
       | Some a, Some b => negb (a =? b)%Z
       | _, _ => true
       end;
     as_pretty_diff := fun _ _ p => as_posix p |}.

(** * protocols_io_api.py *)

(** [dict(parse.parse_qsl(query))[k]]: of several values for one key the
    last is kept. *)
Fixpoint query_get (k : string) (pairs : list (string * string))
  : option string :=
  match pairs with
  | [] => None
  | (k', v) :: rest =>
      match query_get k rest with
      | Some v' => Some v'
      | None => if String.eqb k' k then Some v else None
      end
  end.

(** [get_auth_code]: [form] is the text of [br.get_form(id=0)] when
    there is one, [e] and [p] are what is typed at the two prompts,
    [submitted] is the query of [br.url] after the form was submitted
    and [manual] that of the url pasted at the third prompt.  The third
    operand of the [elif] would read [params] before its assignment; it
    is never evaluated. *)
Definition get_auth_code (url : string) (form : option string)
  (e p : string) (submitted manual : list (string * string))
  : M unit string :=
  match form with
  | None => raise (ValueError "No form! Do you have the right client id?")
  | Some formtext =>
      print ("If you registered using google please navigate to" ++ newline ++
             "the url below and leave email and password blank.") ;;
      print EmptyString ;;
      print url ;;
      print EmptyString ;;
      print formtext ;;
      print EmptyString ;;
      print "protocols.io OAuth form" ;;
      params <- (if truthy_string e && truthy_string p then ret submitted
                 else if negb (truthy_string e) || negb (truthy_string p) then
                   print ("If you are logging in via a 3rd party services" ++
                          newline ++
                          "please paste the redirect url in the prompt") ;;
                   match query_get "code" manual with
                   | None =>
                       print "No auth code provided. Exiting ..." ;;
                       sys_exit 10
                   | Some _ => ret manual
                   end
                 else raise (UnboundLocalError "params")) ;;
      match query_get "code" params with
      | Some code => ret code
      | None => raise (OtherError "KeyError: 'code'")
      end
  end.

(** * setup.py *)

(** [s] after the prefix [pre], when it starts with it. *)
Fixpoint string_strip (pre s : string) : option string :=
  match pre, s with
  | EmptyString, _ => Some s
  | String a pre', String b s' =>
      if Ascii.eqb a b then string_strip pre' s' else None
  | String _ _, EmptyString => None
  end.

Definition quote_char : ascii := ascii_of_nat 39.

Definition newline_char : ascii := ascii_of_nat 10.

(** What [.] can match from the start of [s]: the characters before the
    first newline. *)
Fixpoint before_newline (s : string) : string :=
  match s with
  | EmptyString => EmptyString
  | String c r =>
      if Ascii.eqb c newline_char then EmptyString
      else String c (before_newline r)
  end.

(** The group of the expression on [s], any characters, as many as
    possible, and then a quote: the text before the last quote, when
    there is a quote. *)
Fixpoint before_last_quote (s : string) : option string :=
  match s with
  | EmptyString => None
  | String c r =>
      match before_last_quote r with
      | Some g => Some (String c g)
      | None => if Ascii.eqb c quote_char then Some EmptyString else None
      end
  end.

(** [_version_re.match(line)] and its [group(1)], for the expression
    that reads [__version__ = ], a quote, the group and a quote: the
    match is anchored at the start of the line. *)
Definition version_match (line : string) : option string :=
  match string_strip "__version__ = '" line with
  | Some rest => before_last_quote (before_newline rest)
  | None => None
  end.

(** [find_version] over the lines of the file, each with its newline;
    the function returns [None] when it falls off its end. *)
Fixpoint find_version (lines : list string) : option string :=
  match lines with
  | [] => None
  | line :: rest =>
      match version_match line with
      | Some v => Some v
      | None => find_version rest
      end
  end.

Fixpoint has_char (c : ascii) (s : string) : bool :=
  match s with
  | EmptyString => false
  | String d r => Ascii.eqb d c || has_char c r
  end.

(** The line that assigns the version [v], with [tail] after the closing
    quote. *)
Definition version_line (v tail : string) : string :=
  "__version__ = '" ++ v ++ String quote_char tail ++ newline.

(** Two datasets, each bootstrapped to its own cache. *)
Definition pull_two : PullOps unit :=
  {| children_of := fun _ _ => [];
     rchildren_of := fun _ _ => [];
     pull_is_dir := fun _ _ => true;
     cache_of := fun _ p =>
       if path_eqb p ["org"; "ds1"] then Some ds1
       else if path_eqb p ["org"; "ds2"] then Some ds2
       else None;
     skip_cache_of := fun _ => false;
     is_organization := fun _ _ => false;
     remote_is_dataset_or_organization := fun _ _ => true;
     cache_refresh := fun c w => (Ok (Some c), w);
     bootstrap := fun c _ _ _ w => (Ok [Some c], w) |}.

(** * Properties *)

(** ** Running computations *)

Lemma bind_ok {W A B} (c : M W A) (k : A -> M W B) s a s' :
  c s = (Ok a, s') -> bind c k s = k a s'.
Proof. intros E. unfold bind. now rewrite E. Qed.

Lemma bind_raise {W A B} (c : M W A) (k : A -> M W B) s e s' :
  c s = (Raise e, s') -> bind c k s = (Raise e, s').
Proof. intros E. unfold bind. now rewrite E. Qed.

Lemma bind_inv_ok {W A B} (c : M W A) (k : A -> M W B) s b s2 :
  bind c k s = (Ok b, s2) ->
  exists a s1, c s = (Ok a, s1) /\ k a s1 = (Ok b, s2).
Proof.
  unfold bind. destruct (c s) as [[a | e] s1]; intros E.
  - now exists a, s1.
  - discriminate.
Qed.


Lemma preserves_ret {W A} (I : St W -> Prop) (a : A) : preserves I (ret a).
Proof. intros s Hs. exact Hs. Qed.

Lemma preserves_raise {W A} (I : St W -> Prop) (e : exn) :
  preserves I (@raise W A e).
Proof. intros s Hs. exact Hs. Qed.

Lemma preserves_bind {W A B} (I : St W -> Prop) (c : M W A) (k : A -> M W B) :
  preserves I c -> (forall a, preserves I (k a)) -> preserves I (bind c k).
Proof.
  intros Hc Hk s Hs. unfold bind. specialize (Hc s Hs).
  destruct (c s) as [[a | e] s1]; simpl in *.
  - now apply Hk.
  - exact Hc.
Qed.

Lemma preserves_try_except {W A} (I : St W -> Prop) (c : M W A) h :
  preserves I c ->
  (forall e k, h e = Some k -> preserves I k) ->
  preserves I (try_except c h).
Proof.
  intros Hc Hh s Hs. unfold try_except. specialize (Hc s Hs).
  destruct (c s) as [[a | e] s1]; simpl in *; [exact Hc |].
  destruct (h e) as [k |] eqn:E; [| exact Hc].
  now apply (Hh e k E).
Qed.

Lemma preserves_for_each {W A} (I : St W -> Prop) (l : list A) body :
  (forall x, In x l -> preserves I (body x)) ->
  preserves I (for_each l body).
Proof.
  induction l as [| x rest IH]; intros Hb; simpl.
  - apply preserves_ret.
  - apply preserves_bind.
    + apply Hb. now left.
    + intros _. apply IH. intros y Hy. apply Hb. now right.
Qed.

Lemma preserves_map_m {W A B} (I : St W -> Prop) (f : A -> M W B) l :
  (forall x, In x l -> preserves I (f x)) ->
  preserves I (map_m f l).
Proof.
  induction l as [| x rest IH]; intros Hf; simpl.
  - apply preserves_ret.
  - apply preserves_bind; [apply Hf; now left |].
    intros y. apply preserves_bind.
    + apply IH. intros z Hz. apply Hf. now right.
    + intros ys. apply preserves_ret.
Qed.

Lemma preserves_filter_m {W A} (I : St W -> Prop) (f : A -> M W bool) l :
  (forall x, In x l -> preserves I (f x)) ->
  preserves I (filter_m f l).
Proof.
  induction l as [| x rest IH]; intros Hf; simpl.
  - apply preserves_ret.
  - apply preserves_bind; [apply Hf; now left |].
    intros b. apply preserves_bind.
    + apply IH. intros z Hz. apply Hf. now right.
    + intros ys. apply preserves_ret.
Qed.

Lemma in_schedule_jobs `{Scheduler} {A} (l : list A) (job : nat * A) :
  In job (schedule _ (combine (seq 0 (List.length l)) l)) -> In (snd job) l.
Proof.
  intros Hin.
  apply (Permutation_in _ (Permutation_sym (schedule_perm _ _))) in Hin.
  destruct job as [i a]. now apply in_combine_r in Hin.
Qed.

Lemma preserves_Async `{Scheduler} {W A B} (I : St W -> Prop)
  (f : A -> M W B) l :
  (forall x, In x l -> preserves I (f x)) ->
  preserves I (Async f l).
Proof.
  intros Hf. unfold Async. apply preserves_bind.
  - apply preserves_map_m. intros job Hjob. apply preserves_bind.
    + apply Hf. now apply in_schedule_jobs.
    + intros b. apply preserves_ret.
  - intros done. apply preserves_ret.
Qed.

Lemma preserves_attr {W A} (I : St W -> Prop) name (o : option A) :
  preserves I (@attr W A name o).
Proof. destruct o; [apply preserves_ret | apply preserves_raise]. Qed.

Lemma preserves_local_var {W A} (I : St W -> Prop) name (o : option A) :
  preserves I (@local_var W A name o).
Proof. destruct o; [apply preserves_ret | apply preserves_raise]. Qed.


Lemma preserves_log_msg {W} (I : St W -> Prop) lv m :
  quiet I -> preserves I (@log_msg W lv m).
Proof. intros Q s Hs. simpl. now apply Q. Qed.

Lemma preserves_print {W} (I : St W -> Prop) m :
  quiet I -> preserves I (@print W m).
Proof. intros Q s Hs. simpl. now apply Q. Qed.

Lemma preserves_get_world {W} (I : St W -> Prop) : preserves I (@get_world W).
Proof. intros s Hs. exact Hs. Qed.

Lemma preserves_print_paths {W} `{Render W} (I : St W -> Prop) title paths :
  quiet I -> preserves I (print_paths title paths).
Proof.
  intros Q. unfold print_paths. apply preserves_bind.
  - apply preserves_get_world.
  - intros w. destruct (render_paths w title paths).
    + now apply preserves_print.
    + apply preserves_raise.
Qed.

Lemma filter_m_keeps {W A} (I : St W -> Prop) (f : A -> M W bool) (x : A) :
  (forall y, preserves I (f y)) ->
  (forall s, I s -> exists s1, f x s = (Ok true, s1)) ->
  forall l s l' s',
    I s -> filter_m f l s = (Ok l', s') -> In x l -> In x l'.
Proof.
  intros HP Hx. induction l as [| y rest IH]; intros s l' s' Hs E Hin.
  - destruct Hin.
  - simpl in E.
    apply bind_inv_ok in E. destruct E as (b & s1 & Ey & E).
    apply bind_inv_ok in E. destruct E as (ys & s2 & Er & E).
    injection E as <- _.
    assert (Hs1 : I s1) by (specialize (HP y s Hs); now rewrite Ey in HP).
    destruct Hin as [-> | Hin].
    + destruct (Hx s Hs) as (s1' & Ex). rewrite Ex in Ey.
      injection Ey as <- _. now left.
    + specialize (IH s1 ys s2 Hs1 Er Hin). destruct b; [now right | exact IH].
Qed.

Lemma filter_m_total {W A} (I : St W -> Prop) (f : A -> M W bool) l :
  (forall y, preserves I (f y)) ->
  (forall y s, In y l -> I s -> exists b s1, f y s = (Ok b, s1)) ->
  forall s, I s -> exists l' s', filter_m f l s = (Ok l', s').
Proof.
  intros HP. induction l as [| y rest IH]; intros Hf s Hs; simpl.
  - now exists [], s.
  - destruct (Hf y s (or_introl eq_refl) Hs) as (b & s1 & Ey).
    assert (Hs1 : I s1) by (specialize (HP y s Hs); now rewrite Ey in HP).
    destruct (IH (fun z s0 Hz => Hf z s0 (or_intror Hz)) s1 Hs1) as (ys & s2 & Er).
    exists (if b then y :: ys else ys), s2.
    rewrite (bind_ok _ _ _ _ _ Ey), (bind_ok _ _ _ _ _ Er). reflexivity.
Qed.

(** ** find and fetch *)

Lemma filter_not_a_dir (l : list path) (s : St Tree) :
  filter_m not_a_dir l s =
  (Ok (filter (fun p => negb (is_dir (world s p))) l), s).
Proof.
  induction l as [| p rest IH]; simpl; [reflexivity |].
  unfold bind at 1. unfold not_a_dir at 1. unfold bind at 1, path_state, ret.
  unfold bind at 1. rewrite IH. now destruct (is_dir (world s p)).
Qed.


Lemma quiet_same_tree t : quiet (same_tree t).
Proof. intros s l o Hs. exact Hs. Qed.

Lemma preserves_path_state (I : St Tree -> Prop) p : preserves I (path_state p).
Proof. intros s Hs. exact Hs. Qed.

Lemma find_keep_same_tree t se l p : preserves (same_tree t) (find_keep se l p).
Proof.
  unfold find_keep.
  apply preserves_bind; [apply preserves_path_state | intros ps].
  apply preserves_bind; [apply preserves_attr | intros c].
  apply preserves_bind; [apply preserves_attr | intros m].
  destruct (meta_size m) as [sz |]; [| apply preserves_ret].
  destruct se; [apply preserves_ret |].
  destruct (negb (path_exists ps) && mb_lt sz l); [apply preserves_ret |].
  destruct (path_exists ps && negb (st_size_of ps =? sz)%Z);
    [| apply preserves_ret].
  apply preserves_bind;
    [apply preserves_log_msg, quiet_same_tree | intros; apply preserves_ret].
Qed.

Lemma find_keep_unknown_size se l p (s : St Tree) c m :
  cache (world s p) = Some c -> cache_meta c = Some m -> meta_size m = None ->
  find_keep se l p s = (Ok true, s).
Proof.
  intros Hc Hm Hsz. unfold find_keep, bind, path_state.
  rewrite Hc. simpl. rewrite Hm. simpl. now rewrite Hsz.
Qed.

(** The candidates are always computed when every globbed path that is
    not a directory has a cache with a metadata record. *)
Lemma find_candidates_returns args globbed (s : St Tree) :
  (forall q, In q globbed -> is_dir (world s q) = false ->
             exists c m, cache (world s q) = Some c /\ cache_meta c = Some m) ->
  exists r s', find_candidates args globbed s = (Ok r, s').
Proof.
  intros Hall. unfold find_candidates.
  rewrite (bind_ok _ _ _ _ _ (filter_not_a_dir globbed s)).
  destruct (Options.limit args) as [l |]; [| now eexists; eexists].
  destruct (truthy_limit (Some l)); [| now eexists; eexists].
  destruct (filter_m_total (same_tree (world s)) (find_keep (opt_exists args) l)
              (filter (fun p => negb (is_dir (world s p))) globbed)) with (s := s)
    as (kept & s1 & Ek).
  - intros y. apply find_keep_same_tree.
  - intros y s0 Hy Hs0. apply filter_In in Hy. destruct Hy as [Hy Hd].
    apply negb_true_iff in Hd. destruct (Hall y Hy Hd) as (c & m & Hc & Hm).
    unfold same_tree in Hs0.
    unfold find_keep, bind, path_state. rewrite Hs0, Hc. simpl. rewrite Hm. simpl.
    destruct (meta_size m) as [sz |]; [| now eexists; eexists].
    destruct (opt_exists args); [now eexists; eexists |].
    destruct (negb (path_exists (world s y)) && mb_lt sz l);
      [now eexists; eexists |].
    destruct (path_exists (world s y) && negb (st_size_of (world s y) =? sz)%Z);
      now eexists; eexists.
  - reflexivity.
  - rewrite (bind_ok _ _ _ _ _ Ek). now eexists; eexists.
Qed.

(** C9: in [find], under any size limit, a path that is not a directory
    and whose cached metadata has size [None] passes the size filter (the
    condition of the comprehension is true for it, whatever the limit and
    the other options), and so it is among the candidates whenever the
    candidates are computed. *)
Theorem find_keeps_unknown_size :
  forall args globbed (s : St Tree) p c m,
    In p globbed ->
    is_dir (world s p) = false ->
    cache (world s p) = Some c ->
    cache_meta c = Some m ->
    meta_size m = None ->
    (forall se l, find_keep se l p s = (Ok true, s)) /\
    (forall cands n s',
        find_candidates args globbed s = (Ok (cands, n), s') -> In p cands).
Proof.
  intros args globbed s p c m Hin Hd Hc Hm Hsz. split.
  - intros se l. now apply (find_keep_unknown_size se l p s c m).
  - intros cands n s' E. unfold find_candidates in E.
    rewrite (bind_ok _ _ _ _ _ (filter_not_a_dir globbed s)) in E.
    assert (Hp : In p (filter (fun p => negb (is_dir (world s p))) globbed)).
    { apply filter_In. split; [exact Hin | now rewrite Hd]. }
    destruct (Options.limit args) as [l |].
    + destruct (truthy_limit (Some l)).
      * apply bind_inv_ok in E. destruct E as (kept & s1 & Ek & E).
        unfold bind, get_world, ret in E. injection E as <- _ _.
        apply (filter_m_keeps (same_tree (world s))
                 (find_keep (opt_exists args) l) p) with (4 := Ek).
        -- intros y. apply find_keep_same_tree.
        -- intros s0 Hs0. exists s0. unfold same_tree in Hs0.
           apply (find_keep_unknown_size _ _ _ _ c m); now rewrite ?Hs0.
        -- reflexivity.
        -- exact Hp.
      * unfold ret in E. now injection E as <- _ _.
    + unfold ret in E. now injection E as <- _ _.
Qed.


Lemma find_keeps_unknown_size_witness :
  (forall se l, find_keep se l ["data"; "a.csv"] (st_init tree_unknown)
                = (Ok true, st_init tree_unknown)) /\
  (forall cands n s',
      find_candidates args_default [["data"; "a.csv"]] (st_init tree_unknown)
      = (Ok (cands, n), s') -> In ["data"; "a.csv"] cands).
Proof.
  apply (find_keeps_unknown_size args_default [["data"; "a.csv"]]
           (st_init tree_unknown) ["data"; "a.csv"]
           (mkCache "N:package:a" (Some (mkMeta (Some "N:package:a") None None None None None)))
           (mkMeta (Some "N:package:a") None None None None None)).
  - left. reflexivity.
  - reflexivity.
  - reflexivity.
  - reflexivity.
  - reflexivity.
Defined.

(** C10: [--limit=0] turns the size filter of [find] off: [Options.limit]
    returns the integer 0, which is false in [if self.options.limit:], and
    the candidates are all the globbed paths that are not directories. *)
Theorem limit_zero_disables_size_filter :
  forall args globbed (s : St Tree),
    arg_limit args = 0%Z ->
    Options.limit args = Some 0%Z /\
    truthy_limit (Options.limit args) = false /\
    find_candidates args globbed s =
    (Ok (filter (fun p => negb (is_dir (world s p))) globbed, None), s).
Proof.
  intros args globbed s H0.
  assert (HL : Options.limit args = Some 0%Z).
  { unfold Options.limit. now rewrite H0. }
  repeat split.
  - exact HL.
  - now rewrite HL.
  - unfold find_candidates.
    rewrite (bind_ok _ _ _ _ _ (filter_not_a_dir globbed s)).
    now rewrite HL.
Qed.

Lemma limit_zero_disables_size_filter_witness :
  Options.limit (args_limit 0 true) = Some 0%Z /\
  truthy_limit (Options.limit (args_limit 0 true)) = false /\
  find_candidates (args_limit 0 true) [["data"; "big.tif"]] (st_init tree_big) =
  (Ok (filter (fun p => negb (is_dir (world (st_init tree_big) p)))
         [["data"; "big.tif"]], None), st_init tree_big).
Proof.
  apply (limit_zero_disables_size_filter (args_limit 0 true)
           [["data"; "big.tif"]] (st_init tree_big)).
  reflexivity.
Defined.

Lemma path_eqb_eq (p q : path) : path_eqb p q = true <-> p = q.
Proof.
  unfold path_eqb. destruct (list_eq_dec string_dec p q); split; congruence.
Qed.

Lemma path_eqb_refl (p : path) : path_eqb p p = true.
Proof. now apply path_eqb_eq. Qed.

Lemma path_eqb_neq (p q : path) : path_eqb p q = false <-> p <> q.
Proof.
  unfold path_eqb. destruct (list_eq_dec string_dec p q); split; congruence.
Qed.

Lemma untouched_refl s0 p : untouched s0 p s0.
Proof. split; [reflexivity |]. exists []. now rewrite app_nil_r. Qed.

Lemma quiet_untouched s0 p : quiet (untouched s0 p).
Proof. intros s l o Hs. exact Hs. Qed.

Lemma untouched_emit s0 p q :
  q <> p -> preserves (untouched s0 p) (emit (EvTransfer q)).
Proof.
  intros Hq s [Hw (evs & Ht & Hn)]. split; [exact Hw |]. simpl.
  exists (evs ++ [EvTransfer q]). split.
  - now rewrite Ht, app_assoc.
  - intros Hin. apply in_app_or in Hin. destruct Hin as [Hin | [Hin | []]].
    + now apply Hn.
    + injection Hin as ->. now apply Hq.
Qed.

Lemma untouched_set s0 p q ps :
  q <> p -> preserves (untouched s0 p) (set_path_state q ps).
Proof.
  intros Hq s [Hw Ht]. split; [| exact Ht]. simpl. unfold tree_set.
  assert (E : path_eqb p q = false) by (apply path_eqb_neq; congruence).
  now rewrite E.
Qed.

(** The modelled fetch of any path leaves a path that is over the limit
    as it was. *)
Lemma untouched_cache_fetch `{RemoteStore} (s0 : St Tree) p c m sz l q :
  cache (world s0 p) = Some c -> cache_meta c = Some m ->
  meta_size m = Some sz -> mb_gt sz l = true ->
  preserves (untouched s0 p) (cache_fetch (Some l) q).
Proof.
  intros Hc Hm Hsz Hover s Hs.
  destruct (list_eq_dec string_dec q p) as [-> | Hq].
  - destruct Hs as [Hw Ht].
    assert (E : cache_fetch (Some l) p s =
                (Ok tt, mkSt (world s)
                          (logs s ++ [(WARNING, ("File is over the size limit " ++ as_posix p)%string)])
                          (stdout s) (trace s))).
    { unfold cache_fetch, bind, path_state. cbn. rewrite Hw, Hc. cbn.
      rewrite Hm, Hsz, Hover. reflexivity. }
    rewrite E. split; [exact Hw | exact Ht].
  - revert s Hs. unfold cache_fetch.
    apply preserves_bind; [apply preserves_path_state | intros ps].
    apply preserves_bind; [apply preserves_attr | intros c'].
    match goal with |- preserves _ (if ?b then _ else _) => destruct b end.
    + apply preserves_log_msg, quiet_untouched.
    + apply preserves_bind; [now apply untouched_emit |].
      intros _. now apply untouched_set.
Qed.

Lemma untouched_not_a_dir s0 p q : preserves (untouched s0 p) (not_a_dir q).
Proof.
  unfold not_a_dir. apply preserves_bind; [apply preserves_path_state |].
  intros ps. apply preserves_ret.
Qed.

Lemma untouched_find_candidates s0 p args globbed :
  preserves (untouched s0 p) (find_candidates args globbed).
Proof.
  unfold find_candidates. apply preserves_bind.
  - apply preserves_filter_m. intros q _. apply untouched_not_a_dir.
  - intros paths. destruct (Options.limit args) as [l |]; [| apply preserves_ret].
    destruct (truthy_limit (Some l)); [| apply preserves_ret].
    apply preserves_bind.
    + apply preserves_filter_m. intros q _. unfold find_keep.
      apply preserves_bind; [apply preserves_path_state | intros ps].
      apply preserves_bind; [apply preserves_attr | intros c].
      apply preserves_bind; [apply preserves_attr | intros m].
      destruct (meta_size m) as [sz |]; [| apply preserves_ret].
      destruct (opt_exists args); [apply preserves_ret |].
      destruct (negb (path_exists ps) && mb_lt sz l); [apply preserves_ret |].
      destruct (path_exists ps && negb (st_size_of ps =? sz)%Z);
        [| apply preserves_ret].
      apply preserves_bind;
        [apply preserves_log_msg, quiet_untouched | intros; apply preserves_ret].
    + intros kept. apply preserves_bind; [apply preserves_get_world |].
      intros t. apply preserves_ret.
Qed.

(** C3: with a limit that is not negative, a path whose cached size is
    known and over the limit keeps its state through [fetch] and through
    [find --fetch], and no transfer is started for it; a negative
    [--limit] parses to no bound, and [find] then keeps every path that
    is not a directory. *)
Theorem fetch_skips_over_limit :
  forall (sched : Scheduler) (render : Render Tree) (store : RemoteStore)
         (remote_refresh : bool -> option Z -> path -> M Tree unit)
         args paths (s : St Tree) p c m sz,
    (0 <= arg_limit args)%Z ->
    cache (world s p) = Some c ->
    cache_meta c = Some m ->
    meta_size m = Some sz ->
    mb_gt sz (arg_limit args) = true ->
    untouched s p (snd (fetch args paths s)) /\
    (opt_refresh args = false ->
     untouched s p (snd (find remote_refresh args paths s))) /\
    (forall args' globbed (s0 : St Tree),
        (arg_limit args' < 0)%Z ->
        Options.limit args' = None /\
        find_candidates args' globbed s0 =
        (Ok (filter (fun q => negb (is_dir (world s0 q))) globbed, None), s0)).
Proof.
  intros sched render store remote_refresh args paths s p c m sz
         Hl Hc Hm Hsz Hover.
  assert (HL : Options.limit args = Some (arg_limit args)).
  { unfold Options.limit. destruct (Z.geb_spec (arg_limit args) 0); [easy | lia]. }
  assert (Hfetch : forall q,
             preserves (untouched s p) (cache_fetch (Options.limit args) q)).
  { intros q. rewrite HL. now apply (untouched_cache_fetch s p c m sz). }
  split; [| split].
  - enough (P : preserves (untouched s p) (fetch args paths))
      by exact (P s (untouched_refl s p)).
    unfold fetch.
    apply preserves_bind.
    + apply preserves_filter_m. intros q _. apply untouched_not_a_dir.
    + intros ps. apply preserves_bind.
      * apply preserves_print_paths, quiet_untouched.
      * intros _. destruct (opt_pretend args); [apply preserves_ret |].
        apply preserves_bind; [| intros; apply preserves_ret].
        apply preserves_Async. intros q _. apply Hfetch.
  - intros Hr.
    enough (P : preserves (untouched s p) (find remote_refresh args paths))
      by exact (P s (untouched_refl s p)).
    unfold find.
    destruct paths as [| g gs]; [apply preserves_ret |].
    apply preserves_bind; [apply untouched_find_candidates | intros cands].
    destruct (opt_pretend args).
    + apply preserves_bind.
      * apply preserves_print_paths, quiet_untouched.
      * intros _. unfold print_skipped. apply preserves_bind.
        -- apply preserves_local_var.
        -- intros n. apply preserves_print, quiet_untouched.
    + apply preserves_bind.
      * destruct (opt_verbose args); [| apply preserves_ret].
        apply preserves_for_each. intros q _.
        apply preserves_bind; [apply preserves_path_state | intros ps].
        apply preserves_bind; [apply preserves_attr | intros c'].
        apply preserves_bind; [apply preserves_attr | intros m'].
        apply preserves_print, quiet_untouched.
      * intros _. rewrite Hr, orb_false_r.
        destruct (opt_fetch args).
        -- apply preserves_bind; [| intros; apply preserves_ret].
           apply preserves_Async. intros q _. apply Hfetch.
        -- apply preserves_bind.
           ++ apply preserves_print_paths, quiet_untouched.
           ++ intros _. unfold print_skipped. apply preserves_bind.
              ** apply preserves_local_var.
              ** intros n. apply preserves_print, quiet_untouched.
  - intros args' globbed s0 Hneg.
    assert (HN : Options.limit args' = None).
    { unfold Options.limit.
      destruct (Z.geb_spec (arg_limit args') 0); [lia | reflexivity]. }
    split; [exact HN |]. unfold find_candidates.
    rewrite (bind_ok _ _ _ _ _ (filter_not_a_dir globbed s0)).
    now rewrite HN.
Qed.

Lemma fetch_skips_over_limit_witness :
  untouched (st_init tree_big) ["data"; "big.tif"]
    (snd (fetch (args_limit 10 true) [["data"; "big.tif"]] (st_init tree_big))) /\
  (opt_refresh (args_limit 10 true) = false ->
   untouched (st_init tree_big) ["data"; "big.tif"]
     (snd (find (fun _ _ _ => ret tt) (args_limit 10 true)
             [["data"; "big.tif"]] (st_init tree_big)))) /\
  (forall args' globbed (s0 : St Tree),
      (arg_limit args' < 0)%Z ->
      Options.limit args' = None /\
      find_candidates args' globbed s0 =
      (Ok (filter (fun q => negb (is_dir (world s0 q))) globbed, None), s0)).
Proof.
  apply (fetch_skips_over_limit fifo (plain_render Tree) served_in_full
           (fun _ _ _ => ret tt) (args_limit 10 true) [["data"; "big.tif"]]
           (st_init tree_big) ["data"; "big.tif"]
           (mkCache "N:package:b"
              (Some (mkMeta (Some "N:package:b") (Some 52428800%Z) None (Some 7%Z) None None)))
           (mkMeta (Some "N:package:b") (Some 52428800%Z) None (Some 7%Z) None None)
           52428800%Z).
  - simpl. lia.
  - reflexivity.
  - reflexivity.
  - reflexivity.
  - reflexivity.
Defined.

(** Under a limit the cached size does not exceed, the same path is
    fetched: the transfer is started and the placeholder is replaced. *)
Example fetch_under_limit_transfers :
  let s' := snd (fetch (args_limit 100 true) [["data"; "big.tif"]]
                   (st_init tree_big)) in
  trace s' = [EvTransfer ["data"; "big.tif"]] /\
  kind (world s' ["data"; "big.tif"]) = KFile 52428800%Z.
Proof. split; reflexivity. Qed.

(** ** fix duplicates *)

(** A path without a metadata record, or whose record has no [updated],
    makes the key function raise. *)
Lemma mkey_without_updated_raises (s : St Tree) p c :
  cache (world s p) = Some c ->
  (cache_meta c = None \/
   exists m, cache_meta c = Some m /\ meta_updated m = None) ->
  exists a, mkey p s = (Raise (AttributeError a), s).
Proof.
  intros Hc [Hm | (m & Hm & Hu)]; unfold mkey, bind, path_state; cbn;
    rewrite Hc; cbn; rewrite Hm; cbn.
  - now eexists.
  - rewrite Hu. cbn. now eexists.
Qed.

(** Among paths that all carry a timestamp the later one sorts first. *)
Example duplicates_later_timestamp_first :
  fst (sorted_by_mkey [["p1"]; ["p2"]] (st_init tree_dupes))
  = Ok [["p2"]; ["p1"]].
Proof. reflexivity. Qed.

(** C2 (does not hold of the code): for the three duplicates with
    timestamps 100, 200 and no metadata, the sort of [Fix.duplicates]
    raises [AttributeError] in its key function instead of ordering the
    group, and so does the command. *)
Theorem duplicates_no_metadata_raises :
  fst (sorted_by_mkey [["p1"]; ["p2"]; ["p3"]] (st_init tree_dupes))
  = Raise (AttributeError "updated") /\
  fst (sorted_by_mkey [["p1"]; ["p2"]; ["p3"]] (st_init tree_dupes_empty_meta))
  = Raise (AttributeError "timestamp") /\
  forall skip_cache dedupe,
    fst (duplicates skip_cache dedupe [["p1"]; ["p2"]; ["p3"]] (st_init tree_dupes))
    = Raise (AttributeError "updated").
Proof. repeat split. Qed.

(** ** clone *)

(** C7 (does not hold of the code): when the target already has entries,
    [clone] does not print the fatal message and does not exit with
    status 2; the handler reads the local [anchor], which the failed
    assignment left unbound, and [UnboundLocalError] is raised.  Nothing
    was printed and the filesystem is as it was. *)
Theorem clone_not_empty_raises_unbound :
  forall (projects : Projects) (pull : path -> M FS unit) args cwd
         (s : St FS) project_id,
    opt_project_id args = Some project_id ->
    has_secret project_id = true ->
    find_cache_root (world s) cwd = None ->
    has_entries (world s) (local_target project_id cwd) = true ->
    clone pull args cwd s = (Raise (UnboundLocalError "anchor"), s).
Proof.
  intros projects pull args cwd s project_id Hid Hsec Hroot Hent.
  unfold clone. rewrite Hid.
  unfold bind at 1. unfold ret at 1.
  unfold bind at 1. unfold try_except, remote_init. rewrite Hsec.
  unfold ret at 1.
  unfold bind at 1. unfold get_world at 1.
  unfold bind at 1. rewrite Hroot. unfold ret at 1.
  unfold bind at 1. unfold try_except, dropAnchor.
  unfold bind at 1. unfold get_world at 1. rewrite Hent.
  unfold raise at 1. unfold bind at 1. unfold local_var, raise. reflexivity.
Qed.

Lemma clone_not_empty_raises_unbound_witness :
  clone (fun _ => ret tt) args_clone ["home"] (st_init fs_occupied)
  = (Raise (UnboundLocalError "anchor"), st_init fs_occupied).
Proof.
  apply (clone_not_empty_raises_unbound one_project (fun _ => ret tt)
           args_clone ["home"] (st_init fs_occupied) "N:organization:1").
  - reflexivity.
  - reflexivity.
  - reflexivity.
  - reflexivity.
Defined.

(** In an empty target the same command drops the anchor and makes the
    auxiliary directories. *)
Example clone_into_free_directory :
  let r := clone (fun _ => ret tt) args_clone ["home"] (st_init fs_free) in
  fst r = Ok tt /\
  fs_get (world (snd r)) ["home"; "proj"]
  = Some (NDir (Some (mkMeta (Some "N:organization:1") None None None None None)) true) /\
  fs_get (world (snd r)) ["home"; "proj"; ".operations"] = Some (NDir None false) /\
  fs_get (world (snd r)) ["home"; "proj"; ".trash"] = Some (NDir None false).
Proof. repeat split. Qed.

(** ** refresh: the errors of the cache update *)

Section UpdateLoop.
Context {W : Type} {ops : RefreshOps W}.

Lemma apply_update_not_found acc new r (s : St W) n w' :
  update_cache_op r (world s) = (Raise (FileNotFoundError n), w') ->
  apply_update acc (new, r) s =
  (Ok (fst acc, snd acc ++ [remote_local (world s) r]),
   called r w' (note_new new s)).
Proof.
  intros E. destruct acc as [mv pm]. unfold apply_update.
  destruct new as [x |]; cbn; unfold bind, try_except, call, get_world; cbn;
    rewrite E; reflexivity.
Qed.

Lemma apply_update_not_empty acc new r (s : St W) w' :
  update_cache_op r (world s) = (Raise (OSError ENOTEMPTY), w') ->
  apply_update acc (new, r) s =
  (Ok acc, logged_error (OSError ENOTEMPTY) (called r w' (note_new new s))).
Proof.
  intros E. destruct acc as [mv pm]. unfold apply_update.
  destruct new as [x |]; cbn; unfold bind, try_except, call, get_world; cbn;
    rewrite E; reflexivity.
Qed.

Lemma apply_update_other_oserror acc new r (s : St W) n w' :
  n <> ENOTEMPTY ->
  update_cache_op r (world s) = (Raise (OSError n), w') ->
  apply_update acc (new, r) s =
  (Raise (OSError n), called r w' (note_new new s)).
Proof.
  intros Hn E. destruct acc as [mv pm]. unfold apply_update.
  apply Z.eqb_neq in Hn.
  destruct new as [x |]; cbn; unfold bind, try_except, call, get_world; cbn;
    rewrite E; cbn; rewrite Hn; reflexivity.
Qed.

Lemma apply_updates_app acc l1 l2 (s : St W) :
  apply_updates acc (l1 ++ l2) s =
  match apply_updates acc l1 s with
  | (Ok acc1, s1) => apply_updates acc1 l2 s1
  | (Raise e, s1) => (Raise e, s1)
  end.
Proof.
  revert acc s. induction l1 as [| nr rest IH]; intros acc s; simpl.
  - reflexivity.
  - unfold bind. destruct (apply_update acc nr s) as [[acc1 | e] s1].
    + apply IH.
    + reflexivity.
Qed.

(** When the layer raises nothing but the absorbed errors, each round of
    the loop returns. *)
Lemma apply_update_absorbs acc nr (s : St W) :
  absorbed (fst (update_cache_op (snd nr) (world s))) ->
  exists acc' s', apply_update acc nr s = (Ok acc', s').
Proof.
  destruct nr as [new r]. intros Ha. cbn [snd] in Ha.
  destruct (update_cache_op r (world s)) as [[[] | e] w'] eqn:E.
  - destruct acc as [mv pm]. unfold apply_update.
    destruct new as [x |]; cbn; unfold bind, try_except, call, get_world; cbn;
      rewrite E; cbn;
      destruct (path_eqb (remote_local (world s) r) (remote_local w' r));
      now eexists; eexists.
  - destruct e; cbn in Ha; try contradiction.
    + rewrite (apply_update_not_found acc new r s _ w' E). now eexists; eexists.
    + subst errno.
      rewrite (apply_update_not_empty acc new r s w' E). now eexists; eexists.
Qed.

Lemma apply_updates_absorbs l : forall acc (s : St W),
  (forall r w, absorbed (fst (update_cache_op r w))) ->
  exists acc' s', apply_updates acc l s = (Ok acc', s').
Proof.
  induction l as [| nr rest IH]; intros acc s Hall; simpl.
  - now exists acc, s.
  - destruct (apply_update_absorbs acc nr s (Hall _ _)) as (acc1 & s1 & E1).
    rewrite (bind_ok _ _ _ _ _ E1). now apply IH.
Qed.

(** C1: in the loop of [refresh] over the refreshed directories, a
    [FileNotFoundError] from the cache update puts the path on the list of
    moved parents and the loop goes on with the remaining paths; an
    [OSError] with errno [ENOTEMPTY] is logged as an error and the loop
    goes on, with neither list changed; any other [OSError] leaves the
    loop as that exception.  When no other error occurs the loop
    returns. *)
Theorem refresh_update_errors :
  forall acc pre new r post (s : St W) mv pm s1 w',
    apply_updates acc pre s = (Ok (mv, pm), s1) ->
    (forall n,
        update_cache_op r (world s1) = (Raise (FileNotFoundError n), w') ->
        apply_updates acc (pre ++ (new, r) :: post) s =
        apply_updates (mv, pm ++ [remote_local (world s1) r]) post
          (called r w' (note_new new s1))) /\
    (update_cache_op r (world s1) = (Raise (OSError ENOTEMPTY), w') ->
     apply_updates acc (pre ++ (new, r) :: post) s =
     apply_updates (mv, pm) post
       (logged_error (OSError ENOTEMPTY) (called r w' (note_new new s1)))) /\
    (forall n,
        n <> ENOTEMPTY ->
        update_cache_op r (world s1) = (Raise (OSError n), w') ->
        apply_updates acc (pre ++ (new, r) :: post) s =
        (Raise (OSError n), called r w' (note_new new s1))) /\
    ((forall r' w, absorbed (fst (update_cache_op r' w))) ->
     exists acc' s', apply_updates acc (pre ++ (new, r) :: post) s = (Ok acc', s')).
Proof.
  intros acc pre new r post s mv pm s1 w' Hpre.
  repeat split.
  - intros n E. rewrite apply_updates_app, Hpre. simpl.
    now rewrite (bind_ok _ _ _ _ _ (apply_update_not_found (mv, pm) new r s1 n w' E)).
  - intros E. rewrite apply_updates_app, Hpre. simpl.
    now rewrite (bind_ok _ _ _ _ _ (apply_update_not_empty (mv, pm) new r s1 w' E)).
  - intros n Hn E. rewrite apply_updates_app, Hpre. simpl.
    now rewrite (bind_raise _ _ _ _ _
                   (apply_update_other_oserror (mv, pm) new r s1 n w' Hn E)).
  - intros Hall. now apply apply_updates_absorbs.
Qed.

End UpdateLoop.

Lemma refresh_update_errors_witness :
  apply_updates ([], []) ([(Some ["org"], ["org"])] ++ (None, ["gone"]) :: [(Some ["busy"], ["busy"])])
    (st_init tt)
  = apply_updates ([], [] ++ [["gone"]]) [(Some ["busy"], ["busy"])]
      (called ["gone"] tt (note_new None (called ["org"] tt (st_init tt)))) /\
  apply_updates ([], []) ([(Some ["org"], ["org"])] ++ (Some ["busy"], ["busy"]) :: [(Some ["gone"], ["gone"])])
    (st_init tt)
  = apply_updates ([], []) [(Some ["gone"], ["gone"])]
      (logged_error (OSError ENOTEMPTY)
         (called ["busy"] tt (note_new (Some ["busy"]) (called ["org"] tt (st_init tt))))) /\
  apply_updates ([], []) ([(Some ["org"], ["org"])] ++ (Some ["locked"], ["locked"]) :: [(Some ["gone"], ["gone"])])
    (st_init tt)
  = (Raise (OSError 13),
     called ["locked"] tt (note_new (Some ["locked"]) (called ["org"] tt (st_init tt)))).
Proof.
  assert (Hpre : apply_updates ([], []) [(Some ["org"], ["org"])] (st_init tt)
                 = (Ok ([], []), called ["org"] tt (st_init tt)))
    by reflexivity.
  split; [| split].
  - apply (proj1 (refresh_update_errors ([], []) [(Some ["org"], ["org"])] None
                    ["gone"] [(Some ["busy"], ["busy"])] (st_init tt) [] []
                    (called ["org"] tt (st_init tt)) tt Hpre) ENOENT).
    reflexivity.
  - apply (proj1 (proj2 (refresh_update_errors ([], []) [(Some ["org"], ["org"])]
                    (Some ["busy"]) ["busy"] [(Some ["gone"], ["gone"])]
                    (st_init tt) [] [] (called ["org"] tt (st_init tt)) tt Hpre))).
    reflexivity.
  - apply (proj1 (proj2 (proj2 (refresh_update_errors ([], []) [(Some ["org"], ["org"])]
                    (Some ["locked"]) ["locked"] [(Some ["gone"], ["gone"])]
                    (st_init tt) [] [] (called ["org"] tt (st_init tt)) tt Hpre))) 13%Z).
    + unfold ENOTEMPTY. lia.
    + reflexivity.
Defined.

(** ** Sorting *)

Section SortedFacts.
Context {A : Type} (key : A -> nat).

Lemma insert_sorted_perm {K} (leb : K -> K -> bool) (k : A -> K) x l :
  Permutation (x :: l) (insert_sorted leb k x l).
Proof.
  induction l as [| y rest IH]; simpl; [reflexivity |].
  destruct (leb (k x) (k y)); [reflexivity |].
  rewrite perm_swap. now constructor.
Qed.

Lemma sorted_perm {K} (leb : K -> K -> bool) (k : A -> K) l :
  Permutation l (sorted leb k l).
Proof.
  induction l as [| x rest IH]; simpl; [reflexivity |].
  rewrite <- insert_sorted_perm. now constructor.
Qed.

Lemma insert_sorted_strongly x l :
  StronglySorted (fun a b => key a <= key b) l ->
  StronglySorted (fun a b => key a <= key b) (insert_sorted Nat.leb key x l).
Proof.
  induction 1 as [| y rest Hs IH Hall]; simpl.
  - repeat constructor.
  - destruct (Nat.leb_spec (key x) (key y)) as [Hle | Hgt].
    + constructor; [now constructor |]. constructor; [exact Hle |].
      eapply Forall_impl; [| exact Hall]. simpl. intros z Hz. lia.
    + constructor; [exact IH |].
      apply (Permutation_Forall (insert_sorted_perm Nat.leb key x rest)).
      constructor; [lia | exact Hall].
Qed.

Lemma sorted_strongly l :
  StronglySorted (fun a b => key a <= key b) (sorted Nat.leb key l).
Proof.
  induction l as [| x rest IH]; simpl; [constructor |].
  now apply insert_sorted_strongly.
Qed.

End SortedFacts.

(** ** refresh: directories before files *)

Lemma not_cache_refresh_map {A} (ev : A -> event) (l : list A) :
  (forall x, not_cache_refresh (ev x)) ->
  Forall not_cache_refresh (map ev l).
Proof.
  intros Hev. apply Forall_forall. intros e He.
  apply in_map_iff in He. destruct He as (x & <- & _). apply Hev.
Qed.

Section RefreshTrace.
Context {sched : Scheduler} {order : SetOrder}
        {W : Type} {ops : RefreshOps W} {render : Render W}.

Lemma print_paths_shown title paths (s : St W) :
  match render_paths (world s) title paths with
  | Ok _ =>
      exists o,
        print_paths title paths s = (Ok tt, mkSt (world s) (logs s) o (trace s))
  | Raise e => print_paths title paths s = (Raise e, s)
  end.
Proof.
  unfold print_paths, bind, get_world.
  destruct (render_paths (world s) title paths) as [x | e].
  - now eexists.
  - reflexivity.
Qed.

Lemma refresh_remote_run r (s : St W) :
  refresh_remote r s =
  (fst (remote_refresh_op (cache_is_file (world s) r && cache_exists (world s) r)
          r (world s)),
   mkSt (snd (remote_refresh_op
                (cache_is_file (world s) r && cache_exists (world s) r)
                r (world s)))
        (logs s) (stdout s) (trace s ++ [EvRemoteRefresh r])).
Proof.
  unfold refresh_remote, bind, get_world, call.
  now destruct (remote_refresh_op _ r (world s)).
Qed.

Lemma map_m_trace {A B} (f : A -> M W B) (ev : A -> event) :
  (forall x s, trace (snd (f x s)) = trace s ++ [ev x]) ->
  forall l s,
    match map_m f l s with
    | (Ok res, s') =>
        trace s' = trace s ++ map ev l /\ List.length res = List.length l
    | (Raise _, s') =>
        exists l1 l2, l = l1 ++ l2 /\ trace s' = trace s ++ map ev l1
    end.
Proof.
  intros Hf. induction l as [| x rest IH]; intros s; simpl.
  - unfold ret. now rewrite app_nil_r.
  - unfold bind at 1. specialize (Hf x s).
    destruct (f x s) as [[y | e] s1]; simpl in Hf.
    + unfold bind at 1. specialize (IH s1).
      destruct (map_m f rest s1) as [[ys | e] s2].
      * unfold ret. destruct IH as [Ht Hl]. split.
        -- rewrite Ht, Hf, <- app_assoc. reflexivity.
        -- simpl. now rewrite Hl.
      * destruct IH as (l1 & l2 & -> & Ht). exists (x :: l1), l2. split.
        -- reflexivity.
        -- rewrite Ht, Hf, <- app_assoc. reflexivity.
    + exists [x], rest. split; [reflexivity | exact Hf].
Qed.

(** A batch of remote refreshes, run job by job: the world goes through
    the refreshes in the order of the jobs. *)
Lemma remotes_run {J B} (proj : J -> path) (f : J -> M W B) :
  (forall job s,
      match refresh_remote (proj job) s with
      | (Ok _, s') => exists b, f job s = (Ok b, s')
      | (Raise e, s') => f job s = (Raise e, s')
      end) ->
  forall jobs (s : St W),
    match map_m f jobs s with
    | (Ok res, s') =>
        remotes_refreshed (map proj jobs) (world s) = Ok (world s') /\
        s' = mkSt (world s') (logs s) (stdout s)
               (trace s ++ map EvRemoteRefresh (map proj jobs)) /\
        List.length res = List.length jobs
    | (Raise e, s') =>
        remotes_refreshed (map proj jobs) (world s) = Raise e /\
        exists l1, trace s' = trace s ++ map EvRemoteRefresh l1
    end.
Proof.
  intros Hf. induction jobs as [| job rest IH]; intros s;
    cbn [map_m map remotes_refreshed].
  - unfold ret. rewrite app_nil_r. now destruct s.
  - unfold bind at 1. specialize (Hf job s).
    rewrite refresh_remote_run in Hf.
    destruct (remote_refresh_op
                (cache_is_file (world s) (proj job) &&
                 cache_exists (world s) (proj job)) (proj job) (world s))
      as [[b | e] w'] eqn:Hop; cbn [fst snd] in Hf.
    + destruct Hf as [b' ->]. unfold bind at 1.
      match goal with
      | |- context [map_m f rest ?s1] => specialize (IH s1)
      end.
      cbn [world logs stdout trace] in IH.
      destruct (map_m f rest _) as [[ys | e] s2].
      * unfold ret. destruct IH as (Hw & Hs & Hl). repeat split.
        -- exact Hw.
        -- rewrite Hs at 1. cbn [world]. now rewrite <- app_assoc.
        -- cbn [List.length]. now rewrite Hl.
      * destruct IH as (Hw & l1 & Ht). split; [exact Hw |].
        exists (proj job :: l1). rewrite Ht, <- app_assoc. reflexivity.
    + rewrite Hf. split; [reflexivity |]. now exists [proj job].
Qed.

Lemma remote_phase_run (debug : bool) drs (s : St W) :
  match (if negb debug then Async refresh_remote drs
         else map_m refresh_remote drs) s with
  | (Ok res, s') =>
      remotes_refreshed (batch_order debug drs) (world s) = Ok (world s') /\
      s' = mkSt (world s') (logs s) (stdout s)
             (trace s ++ map EvRemoteRefresh (batch_order debug drs)) /\
      List.length res = List.length drs
  | (Raise e, s') =>
      remotes_refreshed (batch_order debug drs) (world s) = Raise e /\
      exists l1, trace s' = trace s ++ map EvRemoteRefresh l1
  end.
Proof.
  destruct debug; cbn [negb batch_order].
  - pose proof (remotes_run (fun r : path => r) refresh_remote) as H.
    assert (Hf : forall (job : path) (s0 : St W),
               match refresh_remote job s0 with
               | (Ok _, s') => exists b, refresh_remote job s0 = (Ok b, s')
               | (Raise e, s') => refresh_remote job s0 = (Raise e, s')
               end).
    { intros job s0. destruct (refresh_remote job s0) as [[b | e] s1];
        [now exists b | reflexivity]. }
    specialize (H Hf drs s). rewrite map_id in H. exact H.
  - unfold Async. unfold bind at 1.
    set (jobs := schedule _ (combine (seq 0 (List.length drs)) drs)).
    pose proof (remotes_run (snd : nat * path -> path)
                  (fun job : nat * path =>
                     b <- refresh_remote (snd job) ;; ret (fst job, b))) as H.
    assert (Hf : forall (job : nat * path) (s0 : St W),
               match refresh_remote (snd job) s0 with
               | (Ok _, s') =>
                   exists b, (b <- refresh_remote (snd job) ;; ret (fst job, b)) s0
                             = (Ok b, s')
               | (Raise e, s') =>
                   (b <- refresh_remote (snd job) ;; ret (fst job, b)) s0
                   = (Raise e, s')
               end).
    { intros job s0. unfold bind.
      destruct (refresh_remote (snd job) s0) as [[b | e] s1];
        [now eexists | reflexivity]. }
    specialize (H Hf jobs s).
    destruct (map_m _ jobs s) as [[done | e] s'].
    + unfold ret. destruct H as (Hw & Hs & Hl). repeat split.
      * exact Hw.
      * exact Hs.
      * rewrite length_map.
        rewrite <- (Permutation_length (sorted_perm Nat.leb fst done)), Hl.
        unfold jobs. rewrite <- (Permutation_length (schedule_perm _ _)).
        now rewrite length_combine, length_seq, Nat.min_id.
    + exact H.
Qed.

Lemma apply_update_trace acc nr (s : St W) :
  trace (snd (apply_update acc nr s)) = trace s ++ [EvUpdateCache (snd nr)].
Proof.
  destruct nr as [new r]. destruct acc as [mv pm]. unfold apply_update.
  destruct new as [x |]; cbn; unfold bind, try_except, call, get_world; cbn;
    destruct (update_cache_op r (world s)) as [[[] | e] w']; cbn;
    try (destruct (path_eqb (remote_local (world s) r) (remote_local w' r));
         reflexivity);
    destruct e; cbn; try reflexivity;
    destruct (errno =? ENOTEMPTY)%Z; reflexivity.
Qed.

(** One round of the loop over the refreshed directories: the update is
    run on the world, and its outcome decides what the round keeps. *)
Lemma apply_update_run acc new r (s : St W) :
  exists lg,
    apply_update acc (new, r) s =
    (match update_cache_op r (world s) with
     | (Ok _, w') =>
         Ok (if path_eqb (remote_local (world s) r) (remote_local w' r)
             then fst acc
             else fst acc ++ [(remote_local (world s) r, remote_local w' r)],
             snd acc)
     | (Raise (FileNotFoundError _), _) =>
         Ok (fst acc, snd acc ++ [remote_local (world s) r])
     | (Raise (OSError n), _) =>
         if (n =? ENOTEMPTY)%Z then Ok acc else Raise (OSError n)
     | (Raise e, _) => Raise e
     end,
     mkSt (snd (update_cache_op r (world s))) lg (stdout s)
          (trace s ++ [EvUpdateCache r])).
Proof.
  destruct acc as [mv pm]. unfold apply_update.
  destruct new as [x |]; cbn; unfold bind, try_except, call, get_world; cbn;
    destruct (update_cache_op r (world s)) as [[[] | e] w']; cbn;
    try (destruct (path_eqb (remote_local (world s) r) (remote_local w' r));
         now eexists);
    destruct e; cbn; try (now eexists);
    destruct (errno =? ENOTEMPTY)%Z; now eexists.
Qed.

Lemma ended_before_files_after {A} e (s s1 : St W) (r : outcome A * St W) t :
  trace s1 = trace s ++ t ->
  Forall not_cache_refresh t ->
  ended_before_files e s1 r -> ended_before_files e s r.
Proof.
  intros Ht Hall (Hr & t' & Ht' & Hall'). split; [exact Hr |].
  exists (t ++ t'). split.
  - now rewrite Ht', Ht, app_assoc.
  - apply Forall_app. now split.
Qed.

Lemma apply_updates_run : forall (l : list (option path * path)) acc (s : St W),
  match updates_applied (map snd l) (world s) with
  | Ok (applied, not_found, w2) =>
      exists lg,
        apply_updates acc l s =
        (Ok (fst acc ++ moved_of applied, snd acc ++ not_found),
         mkSt w2 lg (stdout s) (trace s ++ map EvUpdateCache (map snd l)))
  | Raise e => ended_before_files e s (apply_updates acc l s)
  end.
Proof.
  induction l as [| [new r] rest IH]; intros acc s;
    cbn [map snd updates_applied apply_updates].
  - exists (logs s). unfold ret, moved_of. cbn [filter map].
    rewrite !app_nil_r. now destruct acc, s.
  - destruct (apply_update_run acc new r s) as [lg E].
    assert (Hone : Forall not_cache_refresh [EvUpdateCache r])
      by (constructor; [exact I | constructor]).
    destruct (update_cache_op r (world s)) as [[u | e] w'] eqn:Hop;
      cbn [fst snd] in E.
    + rewrite (bind_ok _ _ _ _ _ E).
      match goal with
      | |- context [apply_updates ?a rest ?s1] => specialize (IH a s1)
      end.
      cbn [world stdout trace fst snd] in IH.
      destruct (updates_applied (map snd rest) w') as [[[applied nf] w2] | e'].
      * destruct IH as [lg' ->]. exists lg'. f_equal; [f_equal; f_equal |].
        -- unfold moved_of. cbn [filter map fst snd].
           destruct (path_eqb (remote_local (world s) r) (remote_local w' r));
             cbn [negb map snd List.app]; [reflexivity |].
           now rewrite <- app_assoc.
        -- now rewrite <- app_assoc.
      * eapply ended_before_files_after; [| exact Hone | exact IH].
        reflexivity.
    + destruct e as [a | v | v | m | n | n | m | m | | | c | nm];
        try (rewrite (bind_raise _ _ _ _ _ E); split; [reflexivity |];
             exists [EvUpdateCache r]; now split).
      * rewrite (bind_ok _ _ _ _ _ E).
        match goal with
        | |- context [apply_updates ?a rest ?s1] => specialize (IH a s1)
        end.
        cbn [world stdout trace fst snd] in IH.
        destruct (updates_applied (map snd rest) w') as [[[applied nf] w2] | e'].
        -- destruct IH as [lg' ->]. exists lg'. f_equal; [f_equal; f_equal |].
           ++ now rewrite <- app_assoc.
           ++ now rewrite <- app_assoc.
        -- eapply ended_before_files_after; [| exact Hone | exact IH].
           reflexivity.
      * destruct (n =? ENOTEMPTY)%Z.
        -- rewrite (bind_ok _ _ _ _ _ E).
           match goal with
           | |- context [apply_updates ?a rest ?s1] => specialize (IH a s1)
           end.
           cbn [world stdout trace fst snd] in IH.
           destruct (updates_applied (map snd rest) w')
             as [[[applied nf] w2] | e'].
           ++ destruct IH as [lg' ->]. exists lg'. f_equal.
              now rewrite <- app_assoc.
           ++ eapply ended_before_files_after; [| exact Hone | exact IH].
              reflexivity.
        -- rewrite (bind_raise _ _ _ _ _ E). split; [reflexivity |].
           exists [EvUpdateCache r]. now split.
Qed.

Lemma map_snd_combine {A B} (l1 : list A) : forall (l2 : list B),
  List.length l1 = List.length l2 -> map snd (combine l1 l2) = l2.
Proof.
  induction l1 as [| x r1 IH]; intros [| y r2] Hl; simpl in *;
    try discriminate; [reflexivity |].
  f_equal. apply IH. lia.
Qed.

(** The changes of directory after the updates. *)
Lemma chdir_loop_run cwd : forall (moved : list (path * path)) (s : St W),
  exists lg,
    for_each moved (fun on =>
      if path_eqb (fst on) cwd then
        log_msg INFO ("Changing directory to " ++ as_posix (snd on)) ;;
        call (EvChdir (snd on)) (fun w => (Ok tt, chdir_op (snd on) w))
      else ret tt) s
    = (Ok tt,
       mkSt (chdirs (map snd (filter (fun on => path_eqb (fst on) cwd) moved))
               (world s))
            lg (stdout s)
            (trace s ++
             map EvChdir
               (map snd (filter (fun on => path_eqb (fst on) cwd) moved)))).
Proof.
  induction moved as [| on rest IH]; intros s; cbn [for_each filter].
  - exists (logs s). unfold ret, chdirs. cbn. rewrite app_nil_r.
    now destruct s.
  - unfold bind at 1. destruct (path_eqb (fst on) cwd).
    + unfold bind at 1. unfold log_msg at 1. unfold call at 1.
      cbn [world logs stdout trace].
      match goal with
      | |- context [for_each rest _ ?s1] => destruct (IH s1) as [lg ->]
      end.
      exists lg. cbn [world stdout trace map]. unfold chdirs.
      cbn [fold_left]. now rewrite <- app_assoc.
    + unfold ret at 1. apply IH.
Qed.

Lemma moved_report_run cwd (moved : list (path * path)) (s : St W) :
  exists lg o,
    (match moved with
     | [] => ret tt
     | _ :: _ =>
         print "Folders moved" ;;
         for_each moved (fun on =>
           if path_eqb (fst on) cwd then
             log_msg INFO ("Changing directory to " ++ as_posix (snd on)) ;;
             call (EvChdir (snd on)) (fun w => (Ok tt, chdir_op (snd on) w))
           else ret tt)
     end) s
    = (Ok tt,
       mkSt (chdirs (map snd (filter (fun on => path_eqb (fst on) cwd) moved))
               (world s))
            lg o
            (trace s ++
             map EvChdir
               (map snd (filter (fun on => path_eqb (fst on) cwd) moved)))).
Proof.
  destruct moved as [| on rest].
  - exists (logs s), (stdout s). unfold ret, chdirs. cbn. rewrite app_nil_r.
    now destruct s.
  - unfold bind at 1. unfold print at 1.
    match goal with
    | |- context [for_each (on :: rest) ?body ?s1] =>
        destruct (chdir_loop_run cwd (on :: rest) s1) as [lg ->]
    end.
    now exists lg, (stdout s ++ ["Folders moved"]).
Qed.

(** The last statement refreshes paths that are not directories, and
    nothing else. *)
Lemma refresh_files_trace args (s : St W) :
  exists fs,
    trace (snd (refresh_files args s)) = trace s ++ map EvCacheRefresh fs /\
    forall f, In f fs ->
              In f (walk_paths (world s)) /\ local_is_dir (world s) f = false.
Proof.
  assert (Hnd : forall f, In f (not_dirs_of (world s)) ->
                          In f (walk_paths (world s)) /\
                          local_is_dir (world s) f = false).
  { intros f Hf. unfold not_dirs_of in Hf. apply filter_In in Hf.
    destruct Hf as [Hin Hd]. split; [exact Hin |].
    now destruct (local_is_dir (world s) f). }
  assert (Hone : forall p (s0 : St W),
             trace (snd (refresh_cache (opt_fetch args) (Options.limit args) p s0))
             = trace s0 ++ [EvCacheRefresh p]).
  { intros p s0. unfold refresh_cache, call.
    now destruct (cache_refresh_op _ _ p (world s0)). }
  unfold refresh_files. unfold bind at 1. unfold get_world at 1.
  destruct (negb (opt_debug args)).
  - unfold bind at 1. unfold Async. unfold bind at 1.
    set (jobs := schedule _ (combine (seq 0 (List.length (not_dirs_of (world s))))
                               (not_dirs_of (world s)))).
    pose proof (map_m_trace
                  (fun job : nat * path =>
                     b <- refresh_cache (opt_fetch args) (Options.limit args)
                            (snd job) ;; ret (fst job, b))
                  (fun job => EvCacheRefresh (snd job))) as H.
    assert (Hjob : forall (x : nat * path) (s0 : St W),
               trace (snd ((b <- refresh_cache (opt_fetch args)
                                  (Options.limit args) (snd x) ;;
                            ret (fst x, b)) s0))
               = trace s0 ++ [EvCacheRefresh (snd x)]).
    { intros x s0. pose proof (Hone (snd x) s0) as Hr. unfold bind.
      now destruct (refresh_cache _ _ (snd x) s0) as [[b | e] s1]. }
    specialize (H Hjob jobs s).
    destruct (map_m _ jobs s) as [[done | e] s'].
    + destruct H as [Ht _]. exists (map snd jobs). split.
      * cbn. now rewrite Ht, map_map.
      * intros f Hf. apply Hnd. apply in_map_iff in Hf.
        destruct Hf as (job & <- & Hjobs). now apply in_schedule_jobs.
    + destruct H as (l1 & l2 & Hl & Ht). exists (map snd l1). split.
      * cbn. now rewrite Ht, map_map.
      * intros f Hf. apply Hnd. apply in_map_iff in Hf.
        destruct Hf as (job & <- & Hjobs). apply in_schedule_jobs.
        fold jobs. rewrite Hl. apply in_or_app. now left.
  - assert (Hfor : forall l (s0 : St W),
               exists l1 l2, l = l1 ++ l2 /\
                 trace (snd (for_each l (refresh_cache (opt_fetch args)
                                           (Options.limit args)) s0))
                 = trace s0 ++ map EvCacheRefresh l1).
    { induction l as [| p rest IH]; intros s0; cbn [for_each].
      - exists [], []. cbn. now rewrite app_nil_r.
      - unfold bind. pose proof (Hone p s0) as Hp.
        destruct (refresh_cache _ _ p s0) as [[[] | e] s1]; cbn [snd] in Hp.
        + destruct (IH s1) as (l1 & l2 & -> & Ht). exists (p :: l1), l2.
          split; [reflexivity |]. rewrite Ht, Hp, <- app_assoc. reflexivity.
        + exists [p], rest. split; [reflexivity | exact Hp]. }
    destruct (Hfor (not_dirs_of (world s)) s) as (l1 & l2 & Hl & Ht).
    exists l1. split; [exact Ht |].
    intros f Hf. apply Hnd. rewrite Hl. apply in_or_app. now left.
Qed.

Lemma in_to_root (w : W) paths a :
  In a (to_root w paths) <->
  has_cache w a = true /\ exists p, In p paths /\ In a (parents p).
Proof.
  unfold to_root, set_iter. split.
  - intros Hin.
    apply (Permutation_in _ (Permutation_sym (sorted_perm _ _ _))) in Hin.
    apply (Permutation_in _ (Permutation_sym (set_order_perm _ _))) in Hin.
    apply nodup_In, filter_In in Hin. destruct Hin as [Hin Hc].
    apply in_flat_map in Hin. now split.
  - intros [Hc Hp].
    apply (Permutation_in _ (sorted_perm _ _ _)).
    apply (Permutation_in _ (set_order_perm _ _)).
    apply nodup_In, filter_In. split; [| exact Hc]. now apply in_flat_map.
Qed.

(** C6, as the code has it: in one [refresh] the cached ancestors of the
    requested paths are taken in order of depth, shallowest first, and
    followed by the walked directories.  All of these are refreshed on
    the remote, in this order under [--debug] and in the order [Async]
    runs them otherwise; then the cache update of each is attempted in
    this order, on the world the refreshes have left, where an update
    that finds no file or a directory that is not empty is not applied
    and the loop goes on; then the working directory follows its move.
    Only from the world and after the trace of all of this are the paths
    that are not directories refreshed, and the command refreshes nothing
    but such paths from there on.  A run that an error of a remote
    refresh, any other error of an update or the rendering of a table
    ends refreshes no such path at all, and neither does a run with
    [--pretend], which leaves the world as it is. *)
Theorem refresh_directories_first :
  forall (args : Args) (cwd : path) (paths : list path) (s : St W),
    StronglySorted (fun x y => depth x <= depth y)
      (to_root (world s) (requested_paths cwd paths)) /\
    (forall a, In a (to_root (world s) (requested_paths cwd paths)) <->
               has_cache (world s) a = true /\
               exists p, In p (requested_paths cwd paths) /\ In a (parents p)) /\
    match render_paths (world s) None
            (to_root (world s) (requested_paths cwd paths) ++
             walk_paths (world s)) with
    | Raise e => refresh args cwd paths s = (Raise e, s)
    | Ok _ =>
      if opt_pretend args then
        fst (refresh args cwd paths s) = Ok tt /\
        world (snd (refresh args cwd paths s)) = world s /\
        trace (snd (refresh args cwd paths s)) = trace s
      else
        match remotes_refreshed
                (batch_order (opt_debug args)
                   (refreshed_dirs (world s) cwd paths)) (world s) with
        | Raise e => ended_before_files e s (refresh args cwd paths s)
        | Ok w1 =>
            match updates_applied (refreshed_dirs (world s) cwd paths) w1 with
            | Raise e => ended_before_files e s (refresh args cwd paths s)
            | Ok (applied, not_found, w2) =>
                match parent_moved_shown
                        (chdirs (chdir_targets cwd applied) w2) not_found with
                | Raise e => ended_before_files e s (refresh args cwd paths s)
                | Ok _ =>
                    exists lg o,
                      refresh args cwd paths s =
                      refresh_files args
                        (mkSt (chdirs (chdir_targets cwd applied) w2) lg o
                           (trace s ++
                            map EvRemoteRefresh
                              (batch_order (opt_debug args)
                                 (refreshed_dirs (world s) cwd paths)) ++
                            map EvUpdateCache
                              (refreshed_dirs (world s) cwd paths) ++
                            map EvChdir (chdir_targets cwd applied)))
                end
            end
        end
    end /\
    (forall s3 : St W,
        exists fs,
          trace (snd (refresh_files args s3)) =
          trace s3 ++ map EvCacheRefresh fs /\
          forall f, In f fs ->
                    In f (walk_paths (world s3)) /\
                    local_is_dir (world s3) f = false).
Proof.
  intros args cwd paths s. split; [apply sorted_strongly |].
  split; [intros a; apply in_to_root |].
  split; [| intros s3; apply refresh_files_trace].
  remember (refresh args cwd paths s) as R eqn:HR.
  unfold refresh in HR. fold (requested_paths cwd paths) in HR.
  unfold bind at 1 in HR. unfold get_world at 1 in HR.
  pose proof (print_paths_shown None
                (to_root (world s) (requested_paths cwd paths) ++
                 walk_paths (world s)) s) as Hshown.
  destruct (opt_pretend args).
  { unfold bind at 1 in HR.
    destruct (render_paths (world s) None
                (to_root (world s) (requested_paths cwd paths) ++
                 walk_paths (world s))) as [str | e].
    - destruct Hshown as [o E]. rewrite E in HR. subst R. now cbn.
    - now rewrite Hshown in HR. }
  unfold bind at 1 in HR.
  destruct (render_paths (world s) None
              (to_root (world s) (requested_paths cwd paths) ++
               walk_paths (world s))) as [str | e].
  2:{ now rewrite Hshown in HR. }
  destruct Hshown as [o E]. rewrite E in HR. clear E.
  unfold bind at 1 in HR. unfold get_world at 1 in HR. cbn [world] in HR.
  fold (refreshed_dirs (world s) cwd paths) in HR.
  set (drs := refreshed_dirs (world s) cwd paths) in *.
  set (s0 := mkSt (world s) (logs s) o (trace s)) in *.
  unfold bind at 1 in HR.
  pose proof (remote_phase_run (opt_debug args) drs s0) as H1.
  change (world s0) with (world s) in H1.
  change (trace s0) with (trace s) in H1.
  destruct ((if negb (opt_debug args) then Async refresh_remote drs
             else map_m refresh_remote drs) s0) as [[res | e] s1].
  2:{ destruct H1 as (-> & l1 & Ht). subst R. split; [reflexivity |].
      exists (map EvRemoteRefresh l1). split; [exact Ht |].
      now apply not_cache_refresh_map. }
  destruct H1 as (Hw1 & Hs1 & Hlen). rewrite Hw1.
  assert (Ht1 : trace s1 = trace s ++
                           map EvRemoteRefresh (batch_order (opt_debug args) drs))
    by now rewrite Hs1.
  assert (Hq1 : Forall not_cache_refresh
                  (map EvRemoteRefresh (batch_order (opt_debug args) drs)))
    by now apply not_cache_refresh_map.
  unfold bind at 1 in HR.
  pose proof (apply_updates_run (combine res drs) ([], []) s1) as H2.
  rewrite (map_snd_combine res drs Hlen) in H2.
  destruct (updates_applied drs (world s1)) as [[[applied not_found] w2] | e].
  2:{ eapply ended_before_files_after; [exact Ht1 | exact Hq1 |].
      destruct H2 as (Hr & t & Ht & Hall).
      destruct (apply_updates ([], []) (combine res drs) s1) as [[mp | e'] s2];
        [discriminate |].
      cbn [fst] in Hr. injection Hr as ->. subst R. split; [reflexivity |].
      now exists t. }
  destruct H2 as [lg2 E2]. rewrite E2 in HR. clear E2.
  cbn [fst snd List.app] in HR.
  assert (Hq2 : Forall not_cache_refresh (map EvUpdateCache drs))
    by now apply not_cache_refresh_map.
  unfold bind at 1 in HR.
  destruct (moved_report_run cwd (moved_of applied)
              (mkSt w2 lg2 (stdout s1) (trace s1 ++ map EvUpdateCache drs)))
    as (lg3 & o3 & E3).
  rewrite E3 in HR. clear E3. cbn [world trace] in HR.
  fold (chdir_targets cwd applied) in HR.
  assert (Hq3 : Forall not_cache_refresh
                  (map EvChdir (chdir_targets cwd applied)))
    by now apply not_cache_refresh_map.
  rewrite Ht1, <- !app_assoc in HR.
  unfold bind at 1 in HR. unfold parent_moved_shown.
  destruct not_found as [| p pm].
  - exists lg3, o3. unfold ret at 1 in HR. exact HR.
  - pose proof (print_paths_shown (Some "Parent moved") (p :: pm)
                  (mkSt (chdirs (chdir_targets cwd applied) w2) lg3 o3
                     (trace s ++
                      map EvRemoteRefresh (batch_order (opt_debug args) drs) ++
                      map EvUpdateCache drs ++
                      map EvChdir (chdir_targets cwd applied)))) as Hpm.
    cbn [world] in Hpm.
    destruct (render_paths (chdirs (chdir_targets cwd applied) w2)
                (Some "Parent moved") (p :: pm)) as [str' | e].
    + destruct Hpm as [o4 E]. rewrite E in HR. now exists lg3, o4.
    + rewrite Hpm in HR. subst R. split; [reflexivity |].
      exists (map EvRemoteRefresh (batch_order (opt_debug args) drs) ++
              map EvUpdateCache drs ++
              map EvChdir (chdir_targets cwd applied)).
      split; [reflexivity |].
      apply Forall_app. split; [exact Hq1 |].
      apply Forall_app. now split.
Qed.

End RefreshTrace.

Lemma refresh_directories_first_witness :
  (exists lg o,
      refresh args_default ["org"] [["org"; "ds"; "f.csv"]] (st_init tt) =
      refresh_files args_default
        (mkSt tt lg o
           [EvRemoteRefresh ["org"]; EvRemoteRefresh ["org"; "ds"];
            EvRemoteRefresh ["org"; "ds"];
            EvUpdateCache ["org"]; EvUpdateCache ["org"; "ds"];
            EvUpdateCache ["org"; "ds"]])) /\
  trace (snd (refresh args_default ["org"] [["org"; "ds"; "f.csv"]]
                (st_init tt)))
  = [EvRemoteRefresh ["org"]; EvRemoteRefresh ["org"; "ds"];
     EvRemoteRefresh ["org"; "ds"];
     EvUpdateCache ["org"]; EvUpdateCache ["org"; "ds"];
     EvUpdateCache ["org"; "ds"];
     EvCacheRefresh ["org"; "ds"; "f.csv"]].
Proof.
  split; [| reflexivity].
  exact (proj1 (proj2 (proj2 (refresh_directories_first args_default ["org"]
                                [["org"; "ds"; "f.csv"]] (st_init tt))))).
Defined.

(** C6, as stated, fails: the file [/org/ds/f.csv] is requested, its
    cached ancestors are [/org] and [/org/ds].  [Async] runs the remote
    refresh of [/org/ds] before that of [/org]; the update of [/org]
    raises [ENOTEMPTY], which is logged and passed over.  The command
    returns, and the journal of what took effect shows the file refreshed
    while the update of its ancestor [/org] was never applied. *)
Lemma refresh_ancestor_update_not_applied :
  let r := @refresh lifo in_order (list event) journal_layer
             (plain_render (list event)) args_default ["org"]
             [["org"; "ds"; "f.csv"]] (st_init []) in
  @to_root in_order (list event) journal_layer [] [["org"; "ds"; "f.csv"]]
  = [["org"]; ["org"; "ds"]] /\
  fst r = Ok tt /\
  world (snd r)
  = [EvRemoteRefresh ["org"; "ds"]; EvRemoteRefresh ["org"];
     EvUpdateCache ["org"; "ds"]; EvCacheRefresh ["org"; "ds"; "f.csv"]] /\
  ~ In (EvUpdateCache ["org"]) (world (snd r)) /\
  In (EvCacheRefresh ["org"; "ds"; "f.csv"]) (world (snd r)) /\
  logs (snd r) = [(ERROR, exn_str (OSError ENOTEMPTY))].
Proof.
  vm_compute. repeat split.
  - intros [H | [H | [H | [H | []]]]]; discriminate.
  - do 3 right. now left.
Qed.

(** ** pull: the rename log *)


Lemma string_app_nil_r (a : string) : (a ++ EmptyString = a)%string.
Proof. induction a as [| x a IH]; simpl; [reflexivity | now rewrite IH]. Qed.

Lemma hoare_ret {W A} (P : St W -> Prop) (a : A) (Q : A -> St W -> Prop) E :
  (forall s, P s -> Q a s) -> hoare P (ret a) Q E.
Proof. intros H s Hs. now apply H. Qed.

Lemma hoare_raise {W A} (P : St W -> Prop) e (Q : A -> St W -> Prop)
  (E : St W -> Prop) :
  (forall s, P s -> E s) -> hoare P (raise e) Q E.
Proof. intros H s Hs. now apply H. Qed.

Lemma hoare_bind {W A B} (P : St W -> Prop) (c : M W A) (k : A -> M W B)
  (Q : A -> St W -> Prop) (R : B -> St W -> Prop) (E : St W -> Prop) :
  hoare P c Q E -> (forall a, hoare (Q a) (k a) R E) -> hoare P (bind c k) R E.
Proof.
  intros Hc Hk s Hs. unfold bind. specialize (Hc s Hs).
  destruct (c s) as [[a | e] s1]; [now apply Hk | exact Hc].
Qed.


Section PullLog.
Context {sched : Scheduler} {order : SetOrder} {W : Type} {ops : PullOps W}.












End PullLog.


(** The end of [pull] at work: [a.csv] has come back under a new id and
    the same stem, which is logged as [wat] and takes it off the list of
    the removed; [gone.txt] stays on it and has its cache refreshed.  The
    rename log is as it was. *)
Example pull_matches_removed_by_stem :
  let r := @pull (list string) pull_replaced _ _ args_default false ["ds"] []
             (st_init (mkPullWorld [] "/old -> /new -> N:dataset:0")) in
  fst r = Ok tt /\
  tree_of (world (snd r)) = ["N:dataset:1"; "N:package:gone"] /\
  info_records (logs (snd r))
  = [("wat" ++ newline ++ "/ds/a.csv" ++ newline ++ "/ds/a.csv")%string] /\
  renames_log (world (snd r)) = "/old -> /new -> N:dataset:0".
Proof. repeat split. Qed.

Example stem_examples :
  stem "a.csv" = "a" /\ stem "a.tar.gz" = "a.tar" /\
  stem ".profile" = ".profile" /\ stem "a." = "a." /\ stem "a" = "a" /\
  path_stem ["ds"; "a.csv"] = ["ds"; "a"].
Proof. repeat split. Qed.

(** ** The filesystem *)

Lemma fs_get_put_same fs p n : fs_get (fs_put fs p n) p = Some n.
Proof.
  induction fs as [| [q m] rest IH]; simpl.
  - now rewrite path_eqb_refl.
  - destruct (path_eqb q p) eqn:E; simpl; rewrite E; [reflexivity | exact IH].
Qed.

Lemma fs_get_put_other fs p n q :
  q <> p -> fs_get (fs_put fs p n) q = fs_get fs q.
Proof.
  intros Hq. induction fs as [| [r m] rest IH]; simpl.
  - assert (E : path_eqb p q = false) by (apply path_eqb_neq; congruence).
    now rewrite E.
  - destruct (path_eqb r p) eqn:E; simpl.
    + apply path_eqb_eq in E. subst r.
      assert (E : path_eqb p q = false) by (apply path_eqb_neq; congruence).
      now rewrite E.
    + destruct (path_eqb r q); [reflexivity | exact IH].
Qed.

Lemma strip_prefix_app a p r : strip_prefix a p = Some r -> p = a ++ r.
Proof.
  revert p. induction a as [| x a IH]; intros [| y p] H; simpl in *;
    try discriminate; try (now injection H as <-).
  destruct (String.eqb_spec x y) as [-> | Hne]; [| discriminate].
  now rewrite (IH p H).
Qed.

Lemma strip_prefix_same a r : strip_prefix a (a ++ r) = Some r.
Proof.
  induction a as [| x a IH]; simpl; [reflexivity |].
  now rewrite String.eqb_refl.
Qed.

(** The stash of an anchor that is not itself called [stash] is outside
    the anchor. *)
Lemma stash_outside_anchor (a : Anchor) ts r r' :
  anchor_name a <> "stash" ->
  new_anchor_of a ts ++ r' <> anchor_local a ++ r.
Proof.
  intros Hn E. unfold new_anchor_of, stash_base, anchor_local in E.
  rewrite <- !app_assoc in E. apply app_inv_head in E.
  simpl in E. injection E as E _. now apply Hn.
Qed.

(** ** stash: what the steps do *)

Tactic Notation "bind_inv" hyp(H) "as" ident(x) ident(s) ident(E) :=
  apply bind_inv_ok in H; destruct H as (x & s & E & H).

Lemma log_msg_inv {W} lv m (s s' : St W) u :
  log_msg lv m s = (Ok u, s') -> world s' = world s.
Proof. unfold log_msg. intros E. now injection E as _ <-. Qed.

Lemma get_world_inv {W} (s s' : St W) w :
  get_world s = (Ok w, s') -> w = world s /\ s' = s.
Proof. unfold get_world. intros E. now injection E as <- <-. Qed.

Lemma relative_to_inv {W} p a (s s' : St W) r :
  relative_to p a s = (Ok r, s') ->
  s' = s /\ strip_prefix (anchor_local a) p = Some r.
Proof.
  unfold relative_to. destruct (strip_prefix (anchor_local a) p); intros E.
  - unfold ret in E. now injection E as <- <-.
  - discriminate.
Qed.

Lemma mkdir_inv p (s s' : St FS) :
  mkdir p s = (Ok tt, s') ->
  fs_get (world s) p = None /\ world s' = fs_put (world s) p (NDir None false).
Proof.
  unfold mkdir, bind, get_world. destruct p as [| x p]; [discriminate |].
  destruct (fs_get (world s) (x :: p)); [discriminate |].
  destruct (fs_is_dir (world s) (parent (x :: p))); [| discriminate].
  unfold set_world. intros E. now injection E as <-.
Qed.

Lemma cache_meta_of_inv p (s s' : St FS) cm :
  cache_meta_of p s = (Ok cm, s') ->
  s' = s /\ exists n, fs_get (world s) p = Some n /\ node_meta n = Some cm.
Proof.
  unfold cache_meta_of, bind, get_world.
  destruct (fs_get (world s) p) as [n |]; [| discriminate].
  unfold attr. destruct (node_meta n) as [m |] eqn:Hm; [| discriminate].
  unfold ret. intros E. injection E as <- <-. split; [reflexivity |].
  now exists n.
Qed.

Lemma cache_init_inv p m anc (s s' : St FS) :
  cache_init p m anc s = (Ok tt, s') ->
  exists n, fs_get (world s) p = Some n /\
            world s' = fs_put (world s) p
                         (match n with
                          | NDir _ a => NDir (Some m) (a || anc)
                          | NFile d _ => NFile d (Some m)
                          end).
Proof.
  unfold cache_init, bind, get_world.
  destruct (fs_get (world s) p) as [[m0 a0 | d m0] |]; [| | discriminate];
    unfold set_world; intros E; injection E as <-; eexists; split; reflexivity.
Qed.

Section StashSteps.
Context {copy : CopyLayer}.

Lemma copy_file_inv src tgt force ccm (s s' : St FS) :
  copy_file src tgt force ccm s = (Ok tt, s') ->
  exists d m,
    fs_get (world s) src = Some (NFile d m) /\
    (force = false -> fs_get (world s) tgt = None) /\
    world s' = fs_put (world s) tgt
                 (NFile (transfer d) (if ccm then m else None)).
Proof.
  unfold copy_file, bind, get_world.
  destruct (fs_get (world s) src) as [[m0 a0 | d m] |]; [discriminate | | discriminate].
  destruct force; cbn [negb andb].
  - destruct (fs_is_dir (world s) (parent tgt)); [| discriminate].
    unfold set_world. intros E. injection E as <-. exists d, m.
    repeat split. discriminate.
  - destruct (fs_get (world s) tgt); [discriminate |].
    destruct (fs_is_dir (world s) (parent tgt)); [| discriminate].
    unfold set_world. intros E. injection E as <-. now exists d, m.
Qed.

Lemma checksum_of_inv p (s s' : St FS) c :
  checksum_of p s = (Ok c, s') ->
  s' = s /\ exists d m, fs_get (world s) p = Some (NFile d m) /\ c = checksum d.
Proof.
  unfold checksum_of, bind, get_world.
  destruct (fs_get (world s) p) as [[m0 a0 | d m] |]; [discriminate | | discriminate].
  unfold ret. intros E. injection E as <- <-. split; [reflexivity |].
  now exists d, m.
Qed.

Lemma rel_of_inv a sp (s s' : St FS) rel :
  match sp with
  | Abs p => relative_to p a
  | Rel r => ret r
  end s = (Ok rel, s') ->
  s' = s /\ rel_of a sp = Some rel.
Proof.
  destruct sp as [p | r]; simpl.
  - apply relative_to_inv.
  - unfold ret. intros E. now injection E as <- <-.
Qed.

Lemma fs_is_dir_file fs p d m :
  p <> [] -> fs_get fs p = Some (NFile d m) -> fs_is_dir fs p = false.
Proof.
  intros Hp Hg. unfold fs_is_dir. destruct p; [now destruct Hp |].
  now rewrite Hg.
Qed.

(** A round of the stash writes at the new path only, and the new path
    was free. *)
Lemma stash_one_frame a na f sp (s s' : St FS) :
  stash_one a na f sp s = (Ok tt, s') ->
  exists rel, rel_of a sp = Some rel /\
              fs_get (world s) (na ++ rel) = None /\
              forall q, q <> na ++ rel ->
                        fs_get (world s') q = fs_get (world s) q.
Proof.
  intros H. unfold stash_one in H.
  bind_inv H as rel s1 E1. apply rel_of_inv in E1. destruct E1 as [-> Hrel].
  exists rel. split; [exact Hrel |].
  bind_inv H as u2 s2 E2. apply log_msg_inv in E2.
  bind_inv H as u3 s3 E3. apply log_msg_inv in E3.
  bind_inv H as fs s4 E4. apply get_world_inv in E4. destruct E4 as [-> ->].
  assert (Hw : world s3 = world s) by now rewrite E3, E2.
  destruct (fs_is_dir (world s3) (anchor_local a ++ rel)).
  - bind_inv H as u5 s5 E5. destruct u5. apply mkdir_inv in E5.
    destruct E5 as [Hfree E5].
    bind_inv H as cm s6 E6. apply cache_meta_of_inv in E6. destruct E6 as [-> _].
    apply cache_init_inv in H. destruct H as (n & _ & H).
    split; [now rewrite <- Hw |]. intros q Hq.
    rewrite H, fs_get_put_other, E5, fs_get_put_other by exact Hq.
    now rewrite Hw.
  - bind_inv H as u5 s5 E5. apply log_msg_inv in E5.
    bind_inv H as u6 s6 E6. destruct u6. apply copy_file_inv in E6.
    destruct E6 as (d & m & _ & Hfree & E6). specialize (Hfree eq_refl).
    bind_inv H as pc s7 E7. apply checksum_of_inv in E7. destruct E7 as [-> _].
    bind_inv H as npc s8 E8. apply checksum_of_inv in E8. destruct E8 as [-> _].
    bind_inv H as u9 s9 E9.
    assert (s9 = s6).
    { destruct (String.eqb pc npc); [| discriminate].
      unfold ret in E9. now injection E9. }
    subst s9.
    bind_inv H as cm s10 E10. apply cache_meta_of_inv in E10.
    destruct E10 as [-> _].
    bind_inv H as nm s11 E11. unfold of_outcome in E11. injection E11 as _ <-.
    bind_inv H as u12 s12 E12. apply log_msg_inv in E12.
    apply cache_init_inv in H. destruct H as (n & _ & H).
    split; [now rewrite <- Hw, <- E5 |]. intros q Hq.
    rewrite H, fs_get_put_other, E12, E6, fs_get_put_other by exact Hq.
    now rewrite E5, Hw.
Qed.

(** A round of the stash on a file: the copy passed the comparison of
    checksums and carries the metadata the stash gave it. *)
Lemma stash_one_file a na f sp (s s' : St FS) rel d m :
  rel_of a sp = Some rel ->
  fs_get (world s) (anchor_local a ++ rel) = Some (NFile d m) ->
  na ++ rel <> anchor_local a ++ rel ->
  stash_one a na f sp s = (Ok tt, s') ->
  exists cm nm,
    m = Some cm /\ f cm = Ok nm /\
    checksum (transfer d) = checksum d /\
    fs_get (world s') (na ++ rel) = Some (NFile (transfer d) (Some nm)).
Proof.
  intros Hrel Hfile Hne H. unfold stash_one in H.
  assert (Hp : anchor_local a ++ rel <> []).
  { unfold anchor_local. intros E. apply app_eq_nil in E.
    destruct E as [E _]. apply app_eq_nil in E. destruct E as [_ E].
    discriminate. }
  bind_inv H as rel' s1 E1. apply rel_of_inv in E1. destruct E1 as [-> Hrel'].
  rewrite Hrel in Hrel'. injection Hrel' as <-.
  bind_inv H as u2 s2 E2. apply log_msg_inv in E2.
  bind_inv H as u3 s3 E3. apply log_msg_inv in E3.
  bind_inv H as fs s4 E4. apply get_world_inv in E4. destruct E4 as [-> ->].
  assert (Hw : world s3 = world s) by now rewrite E3, E2.
  rewrite Hw in H.
  rewrite (fs_is_dir_file _ _ d m Hp Hfile) in H.
  bind_inv H as u5 s5 E5. apply log_msg_inv in E5.
  bind_inv H as u6 s6 E6. destruct u6. apply copy_file_inv in E6.
  destruct E6 as (d0 & m0 & Hsrc & _ & E6).
  rewrite E5, Hw, Hfile in Hsrc. injection Hsrc as <- <-.
  bind_inv H as pc s7 E7. apply checksum_of_inv in E7.
  destruct E7 as [-> (d1 & m1 & Hg1 & ->)].
  rewrite E6, fs_get_put_other, E5, Hw, Hfile in Hg1 by congruence.
  injection Hg1 as <- <-.
  bind_inv H as npc s8 E8. apply checksum_of_inv in E8.
  destruct E8 as [-> (d2 & m2 & Hg2 & ->)].
  rewrite E6, fs_get_put_same in Hg2. injection Hg2 as <- <-.
  bind_inv H as u9 s9 E9.
  destruct (String.eqb_spec (checksum d) (checksum (transfer d))) as [Hck | Hck];
    [| discriminate].
  unfold ret in E9. injection E9 as _ <-.
  bind_inv H as cm s10 E10. apply cache_meta_of_inv in E10.
  destruct E10 as [-> (n & Hn & Hcm)].
  rewrite E6, fs_get_put_other, E5, Hw, Hfile in Hn by congruence.
  injection Hn as <-. simpl in Hcm.
  bind_inv H as nm s11 E11. unfold of_outcome in E11. injection E11 as Hf <-.
  bind_inv H as u12 s12 E12. apply log_msg_inv in E12.
  apply cache_init_inv in H. destruct H as (n & Hn & H).
  rewrite E12, E6, fs_get_put_same in Hn. injection Hn as <-.
  exists cm, nm. repeat split; try assumption; try now symmetry.
  now rewrite H, fs_get_put_same.
Qed.

(** A mismatch of the checksums is an [AssertionError]. *)
Lemma stash_one_mismatch a na f rel (s : St FS) d m :
  fs_get (world s) (anchor_local a ++ rel) = Some (NFile d m) ->
  fs_get (world s) (na ++ rel) = None ->
  fs_is_dir (world s) (parent (na ++ rel)) = true ->
  na ++ rel <> anchor_local a ++ rel ->
  checksum (transfer d) <> checksum d ->
  exists msg s', stash_one a na f (Rel rel) s = (Raise (AssertionError msg), s').
Proof.
  intros Hfile Hnew Hpar Hne Hck.
  assert (Hp : anchor_local a ++ rel <> []).
  { unfold anchor_local. intros E. apply app_eq_nil in E.
    destruct E as [E _]. apply app_eq_nil in E. destruct E as [_ E].
    discriminate. }
  unfold stash_one, bind, ret, log_msg, get_world. cbn [world].
  rewrite (fs_is_dir_file _ _ d m Hp Hfile).
  unfold copy_file, bind, get_world. cbn [world].
  rewrite Hfile, Hnew, Hpar. cbn [negb andb].
  unfold set_world, checksum_of, bind, get_world. cbn [world].
  rewrite fs_get_put_other, Hfile by congruence.
  unfold ret. cbn [world]. rewrite fs_get_put_same.
  destruct (String.eqb_spec (checksum d) (checksum (transfer d))) as [E | E];
    [now symmetry in E |].
  unfold raise. now eexists; eexists.
Qed.

End StashSteps.

(** ** stash: the whole run *)

Lemma quiet_has_node q n : quiet (has_node q n).
Proof. intros s l o Hs. exact Hs. Qed.

Lemma mkdir_keeps q n p : preserves (has_node q n) (mkdir p).
Proof.
  intros s Hs. destruct (mkdir p s) as [[[] | e] s'] eqn:E.
  - apply mkdir_inv in E. destruct E as [Hnone E]. unfold has_node in *.
    simpl. rewrite E, fs_get_put_other; [exact Hs |]. congruence.
  - unfold mkdir, bind, get_world in E. destruct p as [| x p].
    + unfold raise in E. injection E as _ <-. exact Hs.
    + destruct (fs_get (world s) (x :: p)).
      * unfold raise in E. injection E as _ <-. exact Hs.
      * destruct (fs_is_dir (world s) (parent (x :: p))).
        -- discriminate.
        -- unfold raise in E. injection E as _ <-. exact Hs.
Qed.

Lemma mkdir_parents_keeps q n p : preserves (has_node q n) (mkdir_parents p).
Proof.
  unfold mkdir_parents. apply preserves_bind.
  - apply preserves_for_each. intros x _.
    apply preserves_bind; [apply preserves_get_world | intros fs].
    destruct (fs_is_dir fs x); [apply preserves_ret | apply mkdir_keeps].
  - intros _. apply mkdir_keeps.
Qed.

(** A directory made with its parents was not there before. *)
Lemma mkdir_parents_fresh q n p (s s' : St FS) :
  has_node q n s -> mkdir_parents p s = (Ok tt, s') -> p <> q.
Proof.
  intros Hq H E. subst p. unfold mkdir_parents in H.
  bind_inv H as u0 s0 E0.
  assert (P : preserves (has_node q n)
                (for_each (rev (parents q)) (fun a =>
                   fs <- get_world ;;
                   if fs_is_dir fs a then ret tt else mkdir a))).
  { apply preserves_for_each. intros x _.
    apply preserves_bind; [apply preserves_get_world | intros fs].
    destruct (fs_is_dir fs x); [apply preserves_ret | apply mkdir_keeps]. }
  specialize (P s Hq). rewrite E0 in P.
  apply mkdir_inv in H. destruct H as [Hnone _].
  unfold has_node in P. simpl in P. rewrite P in Hnone. discriminate.
Qed.

Lemma string_length_app (a b : string) :
  String.length (a ++ b) = String.length a + String.length b.
Proof. induction a as [| x a IH]; simpl; [reflexivity | now rewrite IH]. Qed.

Lemma as_posix_long (x y : string) (r : path) :
  2 <= String.length (as_posix (x :: y :: r)).
Proof.
  unfold as_posix. cbn [String.concat].
  rewrite !string_length_app. cbn [String.length]. lia.
Qed.

Lemma parents_root (r : path) : r <> [] -> In [] (parents r).
Proof.
  intros Hr. unfold parents. apply in_map_iff. exists 0. split; [reflexivity |].
  apply -> in_rev. apply in_seq. destruct r; [contradiction | simpl; lia].
Qed.

Section StashRun.
Context {order : SetOrder} {copy : CopyLayer}.

Lemma stash_groups_inv a paths : forall (s s' : St FS) groups,
  map_m (fun p => r <- relative_to p a ;; ret (Abs p :: map Rel (parents r)))
        paths s = (Ok groups, s') ->
  s' = s /\
  forall p, In p paths ->
            exists r, strip_prefix (anchor_local a) p = Some r /\
                      In (Abs p :: map Rel (parents r)) groups.
Proof.
  induction paths as [| q rest IH]; intros s s' groups H; simpl in H.
  - unfold ret in H. injection H as <- <-. split; [reflexivity |].
    intros p [].
  - bind_inv H as g s1 E1. bind_inv E1 as r s2 E2.
    apply relative_to_inv in E2. destruct E2 as [-> Hr].
    unfold ret in E1. injection E1 as <- <-.
    bind_inv H as gs s3 E3. apply IH in E3. destruct E3 as [-> Hrest].
    unfold ret in H. injection H as <- <-. split; [reflexivity |].
    intros p [<- | Hp].
    + exists r. split; [exact Hr | now left].
    + destruct (Hrest p Hp) as (r' & Hr' & Hin). exists r'.
      split; [exact Hr' | now right].
Qed.

(** A requested path below the anchor is stashed: it is in [to_stash] and
    it is not the element that [to_stash[1:]] drops. *)
Lemma to_stash_tail a paths (s s' : St FS) l p rel :
  to_stash a paths s = (Ok l, s') ->
  In p paths -> strip_prefix (anchor_local a) p = Some rel -> rel <> [] ->
  s' = s /\ In (Abs p) (tl l).
Proof.
  intros H Hp Hrel Hne. unfold to_stash in H.
  bind_inv H as groups s1 E1. apply stash_groups_inv in E1.
  destruct E1 as [-> Hgroups]. unfold ret in H. injection H as <- <-.
  split; [reflexivity |].
  destruct (Hgroups p Hp) as (r & Hr & Hin). rewrite Hrel in Hr.
  injection Hr as <-.
  set (key := fun sp => String.length (spath_posix sp)).
  set (elems := set_iter spath_eq_dec (List.concat groups)).
  assert (Hall : forall sp, In sp (Abs p :: map Rel (parents rel)) ->
                            In sp (sorted Nat.leb key elems)).
  { intros sp Hsp. apply (Permutation_in _ (sorted_perm _ _ _)).
    unfold elems, set_iter. apply (Permutation_in _ (set_order_perm _ _)).
    apply nodup_In, in_concat. now exists (Abs p :: map Rel (parents rel)). }
  assert (Habs : In (Abs p) (sorted Nat.leb key elems)) by (apply Hall; now left).
  assert (Hroot : In (Rel []) (sorted Nat.leb key elems)).
  { apply Hall. right. apply in_map. now apply parents_root. }
  pose proof (sorted_strongly key elems) as Hs.
  destruct (sorted Nat.leb key elems) as [| h t]; [destruct Habs |].
  simpl. destruct Habs as [-> | Habs]; [| exact Habs].
  exfalso. destruct Hroot as [Hroot | Hroot]; [discriminate |].
  inversion Hs as [| ? ? _ Hle]; subst.
  rewrite Forall_forall in Hle. specialize (Hle _ Hroot).
  unfold key in Hle. cbn [spath_posix rel_posix String.length] in Hle.
  apply strip_prefix_app in Hrel. unfold anchor_local in Hrel.
  destruct rel as [| y rel]; [now apply Hne |].
  assert (Hlong : exists x1 x2 r, p = x1 :: x2 :: r).
  { rewrite Hrel. destruct (anchor_parent a) as [| x1 [| x2 r]]; simpl.
    - now eexists; eexists; eexists.
    - now eexists; eexists; eexists.
    - now eexists; eexists; eexists. }
  destruct Hlong as (x1 & x2 & r & ->).
  pose proof (as_posix_long x1 x2 r). lia.
Qed.

(** The loop of the stash, seen from one file below the anchor: the file
    itself is not touched, and once its round has run, its copy is in
    place. *)
Lemma stash_loop a na f rel d m :
  forall l (s s' : St FS),
    has_node (anchor_local a ++ rel) (NFile d m) s ->
    for_each l (stash_one a na f) s = (Ok tt, s') ->
    has_node (anchor_local a ++ rel) (NFile d m) s' /\
    ((exists sp, In sp l /\ rel_of a sp = Some rel) \/
     stashed_at f d m (na ++ rel) s ->
     stashed_at f d m (na ++ rel) s').
Proof.
  induction l as [| x rest IH]; intros s s' Hfile H; simpl in H.
  - unfold ret in H. injection H as <-. split; [exact Hfile |].
    intros [(sp & [] & _) | Hd]. exact Hd.
  - bind_inv H as u s1 E1. destruct u.
    destruct (stash_one_frame _ _ _ _ _ _ E1) as (rel' & Hrel' & Hfree & Hframe).
    assert (Hfile1 : has_node (anchor_local a ++ rel) (NFile d m) s1).
    { unfold has_node. rewrite Hframe; [exact Hfile |].
      intros E. unfold has_node in Hfile. rewrite E, Hfree in Hfile.
      discriminate. }
    destruct (IH s1 s' Hfile1 H) as [Hfile' Hdone]. split; [exact Hfile' |].
    assert (Hround : rel' = rel -> stashed_at f d m (na ++ rel) s1).
    { intros ->.
      apply (stash_one_file a na f x s s1 rel d m Hrel' Hfile); [| exact E1].
      intros E. unfold has_node in Hfile. rewrite <- E, Hfree in Hfile.
      discriminate. }
    intros [(sp & [<- | Hin] & Hsp) | Hd].
    + apply Hdone. right. apply Hround. congruence.
    + apply Hdone. left. now exists sp.
    + apply Hdone. right.
      destruct Hd as (cm & nm & Hm & Hf & Hck & Hg). exists cm, nm.
      repeat split; try assumption. rewrite Hframe; [exact Hg |].
      intros E. rewrite E, Hfree in Hg. discriminate.
Qed.

(** The stash of a file below the anchor, from the first state to the
    last. *)
Lemma stash_file_stashed args a ts f paths (s s' : St FS) r p rel d m :
  opt_restore args = false ->
  stash args a ts f paths s = (Ok r, s') ->
  In p paths ->
  strip_prefix (anchor_local a) p = Some rel -> rel <> [] ->
  fs_get (world s) p = Some (NFile d m) ->
  has_node p (NFile d m) s' /\
  stashed_at f d m (new_anchor_of a ts ++ rel) s'.
Proof.
  intros Hres H Hp Hrel Hne Hfile. unfold stash in H.
  bind_inv H as l s1 E1.
  destruct (to_stash_tail a paths s s1 l p rel E1 Hp Hrel Hne) as [-> Htl].
  rewrite Hres in H.
  pose proof (strip_prefix_app _ _ _ Hrel) as Hpath.
  bind_inv H as u2 s2 E2.
  assert (H2 : has_node p (NFile d m) s2).
  { pose proof (mkdir_parents_keeps p (NFile d m) (new_anchor_of a ts) s Hfile)
      as K. now rewrite E2 in K. }
  bind_inv H as am s3 E3. apply cache_meta_of_inv in E3. destruct E3 as [-> _].
  bind_inv H as u4 s4 E4. destruct u4. apply cache_init_inv in E4.
  destruct E4 as (n & _ & E4).
  assert (Hfresh : new_anchor_of a ts <> p).
  { destruct u2. exact (mkdir_parents_fresh p (NFile d m) _ s s2 Hfile E2). }
  assert (H4 : has_node (anchor_local a ++ rel) (NFile d m) s4).
  { unfold has_node. rewrite E4, fs_get_put_other.
    - rewrite <- Hpath. exact H2.
    - rewrite <- Hpath. congruence. }
  bind_inv H as u5 s5 E5. destruct u5.
  destruct (stash_loop a (new_anchor_of a ts) f rel d m (tl l) s4 s5 H4 E5)
    as [H5 Hdone].
  bind_inv H as fs s6 E6. apply get_world_inv in E6. destruct E6 as [-> ->].
  unfold ret in H. injection H as _ <-. split.
  - rewrite Hpath. exact H5.
  - apply Hdone. left. exists (Abs p). split; [exact Htl | exact Hrel].
Qed.

(** C8: in the stash of a file the checksums of the source and of the
    copy are compared, a mismatch is an [AssertionError] that ends the
    round (and with it the stash), and when the stash returns, the copy
    of every requested file below the anchor is in the stash with the
    checksum of its source. *)
Theorem stash_checksums_agree :
  forall args (a : Anchor) ts f,
    opt_restore args = false ->
    (forall rel (s : St FS) d m,
        fs_get (world s) (anchor_local a ++ rel) = Some (NFile d m) ->
        fs_get (world s) (new_anchor_of a ts ++ rel) = None ->
        fs_is_dir (world s) (parent (new_anchor_of a ts ++ rel)) = true ->
        checksum (transfer d) <> checksum d ->
        exists msg s',
          stash_one a (new_anchor_of a ts) f (Rel rel) s
          = (Raise (AssertionError msg), s')) /\
    (forall paths (s s' : St FS) r p d m,
        stash args a ts f paths s = (Ok r, s') ->
        In p paths ->
        p <> anchor_local a ->
        fs_get (world s) p = Some (NFile d m) ->
        exists rel d' m',
          strip_prefix (anchor_local a) p = Some rel /\
          fs_get (world s') p = Some (NFile d m) /\
          fs_get (world s') (new_anchor_of a ts ++ rel) = Some (NFile d' m') /\
          checksum d' = checksum d).
Proof.
  intros args a ts f Hres. split.
  - intros rel s d m Hfile Hnew Hpar Hck.
    apply (stash_one_mismatch a (new_anchor_of a ts) f rel s d m Hfile Hnew Hpar);
      [| exact Hck].
    intros E. rewrite E, Hfile in Hnew. discriminate.
  - intros paths s s' r p d m H Hp Hnot Hfile.
    assert (Hrel : exists rel, strip_prefix (anchor_local a) p = Some rel).
    { unfold stash in H. bind_inv H as l s1 E1. unfold to_stash in E1.
      bind_inv E1 as groups s2 E2. apply stash_groups_inv in E2.
      destruct E2 as [_ Hg]. destruct (Hg p Hp) as (rel & Hrel & _).
      now exists rel. }
    destruct Hrel as (rel & Hrel).
    assert (Hne : rel <> []).
    { intros ->. apply strip_prefix_app in Hrel. rewrite app_nil_r in Hrel.
      now apply Hnot. }
    destruct (stash_file_stashed args a ts f paths s s' r p rel d m
                Hres H Hp Hrel Hne Hfile)
      as [Hkept (cm & nm & _ & _ & Hck & Hg)].
    exists rel, (transfer d), (Some nm). repeat split; assumption.
Qed.

End StashRun.

Lemma stash_checksums_agree_witness :
  exists rel d' m',
    strip_prefix (anchor_local proj_anchor) ["r"; "proj"; "b.txt"] = Some rel /\
    fs_get (world (snd (stash args_stash proj_anchor "2019" (fun m => Ok m)
                          [["r"; "proj"; "b.txt"]] (st_init fs_one_file))))
           ["r"; "proj"; "b.txt"]
    = Some (NFile "top" (Some (meta_at 1))) /\
    fs_get (world (snd (stash args_stash proj_anchor "2019" (fun m => Ok m)
                          [["r"; "proj"; "b.txt"]] (st_init fs_one_file))))
           (new_anchor_of proj_anchor "2019" ++ rel)
    = Some (NFile d' m') /\
    checksum d' = checksum "top".
Proof.
  apply (proj2 (stash_checksums_agree (order := in_order) (copy := faithful_copy)
                  args_stash proj_anchor "2019" (fun m => Ok m) eq_refl)
           [["r"; "proj"; "b.txt"]] (st_init fs_one_file)
           (snd (stash args_stash proj_anchor "2019" (fun m => Ok m)
                   [["r"; "proj"; "b.txt"]] (st_init fs_one_file)))
           (Some [["r"; "stash"; "2019"; "proj"; "b.txt"]])).
  - vm_compute. reflexivity.
  - left. reflexivity.
  - discriminate.
  - reflexivity.
Defined.

(** With a copy that loses the content the stash ends in the
    [AssertionError] of the comparison. *)
Example stash_truncated_copy_fails :
  exists msg,
    fst (@stash in_order truncating_copy args_stash proj_anchor "2019"
           (fun m => Ok m) [["r"; "proj"; "b.txt"]] (st_init fs_one_file))
    = Raise (AssertionError msg).
Proof. eexists. vm_compute. reflexivity. Qed.

(** ** stash: restore *)

Section Restore.
Context {order : SetOrder} {copy : CopyLayer}.

Lemma restore_path_inv a rcs q (s s' : St FS) :
  restore_path a rcs q s = (Ok tt, s') ->
  exists relq,
    strip_prefix (anchor_local a) q = Some relq /\
    match List.find (tail_matches relq) rcs with
    | Some e =>
        exists d m, fs_get (world s) e = Some (NFile d m) /\
                    world s' = fs_put (world s) q (NFile (transfer d) m)
    | None => s' = s
    end.
Proof.
  intros H. unfold restore_path in H.
  bind_inv H as relq s1 E1. apply relative_to_inv in E1.
  destruct E1 as [-> Hrel]. exists relq. split; [exact Hrel |].
  destruct (List.find (tail_matches relq) rcs) as [e |].
  - apply copy_file_inv in H. destruct H as (d & m & Hg & _ & Hw).
    now exists d, m.
  - unfold ret in H. now injection H as <-.
Qed.

(** The first entry that matches is copied over the path, content and
    metadata, whatever was there. *)
Lemma restore_path_copies a rcs q (s : St FS) relq e d m :
  strip_prefix (anchor_local a) q = Some relq ->
  List.find (tail_matches relq) rcs = Some e ->
  fs_get (world s) e = Some (NFile d m) ->
  fs_is_dir (world s) (parent q) = true ->
  restore_path a rcs q s =
  (Ok tt, mkSt (fs_put (world s) q (NFile (transfer d) m))
            (logs s) (stdout s) (trace s)).
Proof.
  intros Hrel Hfind Hg Hpar.
  unfold restore_path, bind, relative_to. rewrite Hrel. unfold ret.
  rewrite Hfind. unfold copy_file, bind, get_world. rewrite Hg. cbn [negb andb].
  now rewrite Hpar.
Qed.

(** The loop of the restore, seen from one stashed file: its copy in the
    stash is not touched, and once the round of the file has run, the
    file holds what the copy holds. *)
Lemma restore_loop a ts rcs p rel d m :
  anchor_name a <> "stash" ->
  strip_prefix (anchor_local a) p = Some rel ->
  List.find (tail_matches rel) rcs = Some (new_anchor_of a ts ++ rel) ->
  forall l (s s' : St FS),
    has_node (new_anchor_of a ts ++ rel) (NFile d m) s ->
    for_each l (restore_path a rcs) s = (Ok tt, s') ->
    has_node (new_anchor_of a ts ++ rel) (NFile d m) s' /\
    (In p l \/ has_node p (NFile (transfer d) m) s ->
     has_node p (NFile (transfer d) m) s').
Proof.
  intros Hname Hrel Hfind.
  induction l as [| q rest IH]; intros s s' Hcopy H; simpl in H.
  - unfold ret in H. injection H as <-. split; [exact Hcopy |].
    now intros [[] | Hd].
  - bind_inv H as u s1 E1. destruct u.
    destruct (restore_path_inv _ _ _ _ _ E1) as (relq & Hrelq & Heff).
    pose proof (strip_prefix_app _ _ _ Hrelq) as Hq.
    assert (Hcopy1 : has_node (new_anchor_of a ts ++ rel) (NFile d m) s1).
    { destruct (List.find (tail_matches relq) rcs) as [e |].
      - destruct Heff as (d0 & m0 & _ & Hw). unfold has_node.
        rewrite Hw, fs_get_put_other; [exact Hcopy |].
        rewrite Hq. now apply stash_outside_anchor.
      - now subst s1. }
    destruct (IH s1 s' Hcopy1 H) as [Hcopy' Hdone]. split; [exact Hcopy' |].
    assert (Hround : q = p -> has_node p (NFile (transfer d) m) s1).
    { intros ->. rewrite Hrel in Hrelq. injection Hrelq as <-.
      rewrite Hfind in Heff. destruct Heff as (d0 & m0 & Hg & Hw).
      unfold has_node in Hcopy. rewrite Hcopy in Hg. injection Hg as <- <-.
      unfold has_node. now rewrite Hw, fs_get_put_same. }
    intros [[-> | Hin] | Hd].
    + apply Hdone. right. now apply Hround.
    + apply Hdone. now left.
    + apply Hdone. right.
      destruct (list_eq_dec string_dec q p) as [He | Hne];
        [now apply Hround |].
      destruct (List.find (tail_matches relq) rcs) as [e |].
      * destruct Heff as (d0 & m0 & _ & Hw). unfold has_node.
        rewrite Hw, fs_get_put_other; [exact Hd | congruence].
      * now subst s1.
Qed.

(** Where the restore does give a file back: it takes the entries of the
    stash that are not directories by descending path and copies, for
    each requested path, the first one whose trailing components are
    those of the path below the anchor over the path, content and cached
    metadata.  With a copy layer that hands the content over as it is, a
    stashed file is back with its content and its metadata, whatever has
    happened to it since the stash, when that first entry is the copy the
    stash made of it. *)
Lemma stash_restore_first_match :
  forall args_s args_r (a : Anchor) ts ts' paths
         (s s1 s1' s2 : St FS) r1 r2 p rel d m,
    (forall b, transfer b = b) ->
    opt_restore args_s = false ->
    opt_restore args_r = true ->
    anchor_name a <> "stash" ->
    stash args_s a ts (fun cm => Ok cm) paths s = (Ok r1, s1) ->
    In p paths ->
    fs_get (world s) p = Some (NFile d m) ->
    strip_prefix (anchor_local a) p = Some rel ->
    fs_get (world s1') (new_anchor_of a ts ++ rel)
    = fs_get (world s1) (new_anchor_of a ts ++ rel) ->
    List.find (tail_matches rel) (stash_entries (world s1') a)
    = Some (new_anchor_of a ts ++ rel) ->
    stash args_r a ts' (fun cm => Ok cm) paths s1' = (Ok r2, s2) ->
    fs_get (world s2) p = Some (NFile d m) /\
    (forall q relq e d0 m0 (s0 : St FS),
        strip_prefix (anchor_local a) q = Some relq ->
        List.find (tail_matches relq) (stash_entries (world s1') a) = Some e ->
        fs_get (world s0) e = Some (NFile d0 m0) ->
        fs_is_dir (world s0) (parent q) = true ->
        restore_path a (stash_entries (world s1') a) q s0 =
        (Ok tt, mkSt (fs_put (world s0) q (NFile (transfer d0) m0))
                  (logs s0) (stdout s0) (trace s0))).
Proof.
  intros args_s args_r a ts ts' paths s s1 s1' s2 r1 r2 p rel d m
         Hid Hs Hr Hname Hstash Hp Hfile Hrel Hsame Hfind Hrestore.
  split; [| intros q relq e d0 m0 s0; apply restore_path_copies].
  assert (Hne : rel <> []).
  { intros ->. clear - Hfind.
    assert (Hno : forall l, List.find (tail_matches []) l = None).
    { induction l as [| e l IH]; [reflexivity |]. simpl.
      unfold tail_matches at 1. simpl. exact IH. }
    now rewrite Hno in Hfind. }
  destruct (stash_file_stashed args_s a ts (fun cm => Ok cm) paths s s1 r1
              p rel d m Hs Hstash Hp Hrel Hne Hfile)
    as [_ (cm & nm & -> & Hf & _ & Hg)].
  injection Hf as <-. rewrite Hid in Hg.
  unfold stash in Hrestore.
  bind_inv Hrestore as l s3 E3.
  assert (s3 = s1').
  { unfold to_stash in E3. bind_inv E3 as groups s4 E4.
    apply stash_groups_inv in E4. destruct E4 as [-> _].
    unfold ret in E3. now injection E3. }
  subst s3. rewrite Hr in Hrestore.
  bind_inv Hrestore as fs s4 E4. apply get_world_inv in E4.
  destruct E4 as [-> ->].
  bind_inv Hrestore as u s5 E5. destruct u.
  unfold ret in Hrestore. injection Hrestore as _ <-.
  assert (Hcopy : has_node (new_anchor_of a ts ++ rel) (NFile d (Some cm)) s1').
  { unfold has_node. now rewrite Hsame. }
  destruct (restore_loop a ts (stash_entries (world s1') a) p rel d (Some cm)
              Hname Hrel Hfind paths s1' s5 Hcopy E5) as [_ Hdone].
  rewrite Hid in Hdone. apply Hdone. now left.
Qed.

End Restore.

Lemma stash_restore_first_match_witness :
  fs_get (world (snd (stash args_restore proj_anchor "2020" (fun m => Ok m)
                        [["r"; "proj"; "b.txt"]] edited_after_stash)))
         ["r"; "proj"; "b.txt"]
  = Some (NFile "top" (Some (meta_at 1))) /\
  fs_get (world edited_after_stash) ["r"; "proj"; "b.txt"]
  = Some (NFile "edited" None).
Proof.
  split; [| reflexivity].
  apply (proj1 (stash_restore_first_match (order := in_order)
                  (copy := faithful_copy)
                  args_stash args_restore proj_anchor "2019" "2020"
                  [["r"; "proj"; "b.txt"]]
                  (st_init fs_one_file) stashed_one_file edited_after_stash
                  (snd (stash args_restore proj_anchor "2020" (fun m => Ok m)
                          [["r"; "proj"; "b.txt"]] edited_after_stash))
                  (Some [["r"; "stash"; "2019"; "proj"; "b.txt"]]) None
                  ["r"; "proj"; "b.txt"] ["b.txt"] "top" (Some (meta_at 1))
                  (fun b => eq_refl) eq_refl eq_refl ltac:(discriminate)
                  ltac:(vm_compute; reflexivity)
                  (or_introl eq_refl)
                  eq_refl eq_refl
                  ltac:(vm_compute; reflexivity)
                  ltac:(vm_compute; reflexivity)
                  ltac:(vm_compute; reflexivity))).
Defined.

(** C4 (does not hold of the code): two files of one name, [b.txt] and
    [zz/b.txt], are stashed together and then restored.  The stash holds a
    copy of each, with its content and metadata.  The restore looks for
    the copy of [b.txt] by its trailing components alone; the entry of
    [zz/b.txt] ends in [b.txt] too and comes first in the descending
    order, so the content and the metadata of [zz/b.txt] are written over
    [b.txt], whose own copy stays in the stash unused. *)
Theorem stash_restore_wrong_file :
  let paths := [["r"; "proj"; "b.txt"]; ["r"; "proj"; "zz"; "b.txt"]] in
  let s1 := snd (stash args_stash proj_anchor "2019" (fun m => Ok m) paths
                   (st_init fs_two_files)) in
  let r := stash args_restore proj_anchor "2020" (fun m => Ok m) paths s1 in
  fs_get fs_two_files ["r"; "proj"; "b.txt"]
  = Some (NFile "top" (Some (meta_at 1))) /\
  fs_get fs_two_files ["r"; "proj"; "zz"; "b.txt"]
  = Some (NFile "nested" (Some (meta_at 2))) /\
  fs_get (world s1) ["r"; "stash"; "2019"; "proj"; "b.txt"]
  = Some (NFile "top" (Some (meta_at 1))) /\
  fs_get (world s1) ["r"; "stash"; "2019"; "proj"; "zz"; "b.txt"]
  = Some (NFile "nested" (Some (meta_at 2))) /\
  fs_get (world s1) ["r"; "proj"; "b.txt"]
  = Some (NFile "top" (Some (meta_at 1))) /\
  fst r = Ok None /\
  fs_get (world (snd r)) ["r"; "proj"; "b.txt"]
  = Some (NFile "nested" (Some (meta_at 2))) /\
  fs_get (world (snd r)) ["r"; "proj"; "b.txt"]
  <> fs_get fs_two_files ["r"; "proj"; "b.txt"].
Proof.
  vm_compute. repeat split. discriminate.
Qed.

(** * More of the command line *)

(** ** The paths of a command *)

Lemma gen_for_quiet {A} (l : list A) (body : A -> Gen) :
  (forall x, In x l -> snd (body x) = None) ->
  gen_for l body = (flat_map (fun x => fst (body x)) l, None).
Proof.
  induction l as [| x rest IH]; intros Hq; simpl; [reflexivity |].
  unfold gen_then. rewrite (Hq x (or_introl eq_refl)).
  rewrite IH by (intros y Hy; apply Hq; now right). reflexivity.
Qed.

Lemma gen_for_yielded {A} (l : list A) (body : A -> Gen) q :
  In q (fst (gen_for l body)) -> exists x, In x l /\ In q (fst (body x)).
Proof.
  induction l as [| x rest IH]; simpl; [intros [] |].
  unfold gen_then. destruct (snd (body x)).
  - intros Hq. exists x. split; [now left | exact Hq].
  - simpl. intros Hq. apply in_app_or in Hq. destruct Hq as [Hq | Hq].
    + exists x. split; [now left | exact Hq].
    + destruct (IH Hq) as (y & Hy & Hqy). exists y. split; [now right | exact Hqy].
Qed.

Lemma gen_for_ext {A} (l : list A) (f g : A -> Gen) :
  (forall x, In x l -> f x = g x) -> gen_for l f = gen_for l g.
Proof.
  induction l as [| x rest IH]; intros He; simpl; [reflexivity |].
  rewrite (He x (or_introl eq_refl)).
  rewrite IH by (intros y Hy; apply He; now right). reflexivity.
Qed.

Section Walk.
Context {listing : Listing}.

(** The recursion never runs out of fuel: any fuel from [levels_left]
    on gives the same paths. *)
Lemma inner_fuel t onf empty st : forall fuel level paths,
  levels_left st level <= fuel ->
  inner t onf empty (Some st) (S fuel) level paths
  = inner t onf empty (Some st) fuel level paths.
Proof.
  induction fuel as [| f IH]; intros level paths Hl.
  - unfold levels_left in Hl.
    assert (Hgt : (level <=? st)%Z = false) by (apply Z.leb_gt; lia).
    simpl. apply gen_for_ext. intros path _. now rewrite Hgt.
  - change (inner t onf empty (Some st) (S (S f)) level paths)
      with (gen_for paths (fun path =>
              let below :=
                if (level <=? st)%Z
                then inner t onf empty (Some st) (S f) (level + 1)%Z
                       (list_children path)
                else gen_done in
              if onf then
                match lacks_file_id t path with
                | Raise e => gen_raise e
                | Ok true => gen_yield path
                | Ok false => below
                end
              else if empty then
                if is_dir (t path) then
                  gen_then (match list_children path with
                            | [] => gen_yield path
                            | _ :: _ => gen_done
                            end) below
                else gen_done
              else gen_then (gen_yield path) below)).
    change (inner t onf empty (Some st) (S f) level paths)
      with (gen_for paths (fun path =>
              let below :=
                if (level <=? st)%Z
                then inner t onf empty (Some st) f (level + 1)%Z
                       (list_children path)
                else gen_done in
              if onf then
                match lacks_file_id t path with
                | Raise e => gen_raise e
                | Ok true => gen_yield path
                | Ok false => below
                end
              else if empty then
                if is_dir (t path) then
                  gen_then (match list_children path with
                            | [] => gen_yield path
                            | _ :: _ => gen_done
                            end) below
                else gen_done
              else gen_then (gen_yield path) below)).
    apply gen_for_ext. intros path _. cbv zeta.
    destruct (level <=? st)%Z eqn:Hle; [| reflexivity].
    rewrite IH; [reflexivity |]. unfold levels_left in *. lia.
Qed.

Lemma inner_more_fuel t onf empty st level paths : forall extra,
  inner t onf empty (Some st) (levels_left st level + extra) level paths
  = inner t onf empty (Some st) (levels_left st level) level paths.
Proof.
  induction extra as [| n IH].
  - now rewrite Nat.add_0_r.
  - rewrite Nat.add_succ_r, inner_fuel; [exact IH | lia].
Qed.

(** Without [--empty] and [--only-no-file-id], under [--level]. *)
Lemma inner_plain t st : forall fuel level paths,
  fuel = levels_left st level ->
  snd (inner t false false (Some st) fuel level paths) = None /\
  forall q,
    In q (fst (inner t false false (Some st) fuel level paths)) <->
    exists p k, In p paths /\ k <= fuel /\ In q (at_depth k p).
Proof.
  induction fuel as [| f IH]; intros level paths Hf.
  - assert (Hgt : (level <=? st)%Z = false)
      by (apply Z.leb_gt; unfold levels_left in Hf; lia).
    assert (E : inner t false false (Some st) 0 level paths = (paths, None)).
    { simpl. rewrite gen_for_ext with (g := gen_yield).
      - rewrite gen_for_quiet by reflexivity. f_equal.
        clear. induction paths as [| p r IHp]; [reflexivity |].
        cbn [flat_map gen_yield fst app]. now f_equal.
      - intros x _. now rewrite Hgt. }
    rewrite E. split; [reflexivity |]. intros q. simpl. split.
    + intros Hq. exists q, 0. repeat split; [exact Hq | lia | now left].
    + intros (p & k & Hp & Hk & Hq). assert (k = 0) by lia. subst k.
      destruct Hq as [<- | []]. exact Hp.
  - assert (Hle : (level <=? st)%Z = true)
      by (apply Z.leb_le; unfold levels_left in Hf; lia).
    assert (Hf' : f = levels_left st (level + 1))
      by (unfold levels_left in *; lia).
    assert (E : inner t false false (Some st) (S f) level paths
                = gen_for paths (fun path =>
                    gen_then (gen_yield path)
                      (inner t false false (Some st) f (level + 1)%Z
                         (list_children path)))).
    { simpl. apply gen_for_ext. intros path _. now rewrite Hle. }
    rewrite E.
    assert (Hq : forall x, In x paths ->
               snd (gen_then (gen_yield x)
                      (inner t false false (Some st) f (level + 1)%Z
                         (list_children x))) = None).
    { intros x _. unfold gen_then. simpl.
      apply (proj1 (IH (level + 1)%Z (list_children x) Hf')). }
    rewrite (gen_for_quiet _ _ Hq). split; [reflexivity |].
    intros q. cbn [fst]. rewrite in_flat_map. split.
    + intros (p & Hp & Hin). unfold gen_then in Hin. simpl in Hin.
      destruct Hin as [<- | Hin].
      * exists p, 0. repeat split; [exact Hp | lia | now left].
      * apply (proj2 (IH (level + 1)%Z (list_children p) Hf')) in Hin.
        destruct Hin as (c & k & Hc & Hk & Hqc).
        exists p, (S k). repeat split; [exact Hp | lia |].
        simpl. apply in_flat_map. now exists c.
    + intros (p & k & Hp & Hk & Hin). exists p. split; [exact Hp |].
      unfold gen_then. simpl. destruct k as [| k].
      * destruct Hin as [<- | []]. now left.
      * right. simpl in Hin. apply in_flat_map in Hin.
        destruct Hin as (c & Hc & Hqc).
        apply (proj2 (IH (level + 1)%Z (list_children p) Hf')).
        exists c, k. repeat split; [exact Hc | lia | exact Hqc].
Qed.

(** X1: [--level=N] reaches one level further than [N]: the paths of a
    command are the requested paths and everything up to [N + 1] steps of
    [children] below them, and no fuel beyond that changes them. *)
Theorem build_paths_level :
  forall (t : Tree) args st paths,
    Options.level args = Some st ->
    opt_empty args = false ->
    snd (build_paths t args false paths) = None /\
    (forall q,
        In q (fst (build_paths t args false paths)) <->
        exists p k, In p paths /\ k <= Z.to_nat (st + 1) /\ In q (at_depth k p)) /\
    (forall extra,
        inner t false false (Some st) (levels_left st 0 + extra) 0 paths
        = build_paths t args false paths).
Proof.
  intros t args st paths Hl He. unfold build_paths. rewrite Hl, He.
  destruct (inner_plain t st (levels_left st 0) 0 paths eq_refl) as [Hs Hq].
  split; [exact Hs |]. split.
  - intros q. rewrite Hq. unfold levels_left.
    now replace (st - 0 + 1)%Z with (st + 1)%Z by lia.
  - intros extra. apply inner_more_fuel.
Qed.

(** With [--empty] and a [--level], only directories without children
    are yielded. *)
Lemma inner_empty t st : forall fuel level paths,
  snd (inner t false true (Some st) fuel level paths) = None /\
  forall q, In q (fst (inner t false true (Some st) fuel level paths)) ->
            is_dir (t q) = true /\ list_children q = [].
Proof.
  induction fuel as [| f IH]; intros level paths.
  - assert (Hq : forall x, In x paths ->
               snd ((fun path =>
                       if is_dir (t path) then
                         gen_then (match list_children path with
                                   | [] => gen_yield path
                                   | _ :: _ => gen_done
                                   end)
                                  (if (level <=? st)%Z then gen_done else gen_done)
                       else gen_done) x) = None).
    { intros x _. cbv beta. destruct (is_dir (t x)); [| reflexivity].
      destruct (list_children x), (level <=? st)%Z; reflexivity. }
    simpl. rewrite (gen_for_quiet _ _ Hq). split; [reflexivity |].
    intros q Hin. cbn [fst] in Hin. apply in_flat_map in Hin.
    destruct Hin as (p & _ & Hin).
    destruct (is_dir (t p)) eqn:Hd; [| destruct Hin].
    destruct (list_children p) eqn:Hc, (level <=? st)%Z; simpl in Hin;
      try contradiction; destruct Hin as [<- | []]; now split.
  - assert (Hq : forall x, In x paths ->
               snd ((fun path =>
                       if is_dir (t path) then
                         gen_then (match list_children path with
                                   | [] => gen_yield path
                                   | _ :: _ => gen_done
                                   end)
                                  (if (level <=? st)%Z
                                   then inner t false true (Some st) f (level + 1)%Z
                                          (list_children path)
                                   else gen_done)
                       else gen_done) x) = None).
    { intros x _. cbv beta. destruct (is_dir (t x)); [| reflexivity].
      unfold gen_then.
      destruct (list_children x) eqn:Hc; simpl;
        destruct (level <=? st)%Z; try reflexivity; apply IH. }
    simpl. rewrite (gen_for_quiet _ _ Hq). split; [reflexivity |].
    intros q Hin. cbn [fst] in Hin. apply in_flat_map in Hin.
    destruct Hin as (p & _ & Hin).
    destruct (is_dir (t p)) eqn:Hd; [| destruct Hin].
    unfold gen_then in Hin.
    destruct (list_children p) eqn:Hc; simpl in Hin.
    + destruct Hin as [<- | Hin]; [now split |].
      destruct (level <=? st)%Z; [| destruct Hin].
      now apply (proj2 (IH (level + 1)%Z [])) in Hin.
    + destruct (level <=? st)%Z; [| destruct Hin].
      now apply (proj2 (IH (level + 1)%Z (p0 :: l))) in Hin.
Qed.

(** X2: [--empty] keeps its promise under a [--level] only: with a level,
    every path of the command is a directory without children; without
    one, every recursive child of a requested directory is among the
    paths, empty or not. *)
Theorem build_paths_empty :
  forall (t : Tree) args paths,
    opt_empty args = true ->
    (forall st q,
        Options.level args = Some st ->
        In q (fst (build_paths t args false paths)) ->
        is_dir (t q) = true /\ list_children q = []) /\
    (forall p q,
        Options.level args = None ->
        In p paths -> is_dir (t p) = true -> In q (list_rchildren p) ->
        In q (fst (build_paths t args false paths))).
Proof.
  intros t args paths He. split.
  - intros st q Hl. unfold build_paths. rewrite Hl, He.
    apply (proj2 (inner_empty t st _ _ _)).
  - intros p q Hl Hp Hd Hq. unfold build_paths. rewrite Hl, He. simpl.
    rewrite gen_for_quiet.
    + cbn [fst]. apply in_flat_map. exists p. split; [exact Hp |].
      rewrite Hd. unfold gen_then.
      destruct (list_children p); simpl; [now right | exact Hq].
    + intros x _. destruct (is_dir (t x)); [| reflexivity].
      now destruct (list_children x).
Qed.

Lemma yield_if_lacks_yielded t p q :
  In q (fst (yield_if_lacks_file_id t p)) -> lacks_file_id t q = Ok true.
Proof.
  unfold yield_if_lacks_file_id.
  destruct (lacks_file_id t p) as [[] | e] eqn:E; simpl; try contradiction.
  now intros [<- | []].
Qed.

(** X3: With [--only-no-file-id] every path of the command is a placeholder
    whose cached metadata has no file id, whatever the level. *)
Theorem build_paths_only_no_file_id :
  forall (t : Tree) args paths q,
    In q (fst (build_paths t args true paths)) ->
    is_broken_symlink (t q) = true /\
    exists c m, cache (t q) = Some c /\ cache_meta c = Some m /\
                meta_file_id m = None.
Proof.
  intros t args paths q Hin.
  assert (Hl : lacks_file_id t q = Ok true).
  { unfold build_paths in Hin.
    remember (match Options.level args with
              | Some st => levels_left st 0
              | None => 0
              end) as fuel eqn:Hf. clear Hf.
    generalize dependent paths. generalize 0%Z as level.
    induction fuel as [| f IH]; intros level paths Hin.
    - simpl in Hin. apply gen_for_yielded in Hin.
      destruct Hin as (p & _ & Hin).
      destruct (lacks_file_id t p) as [[] | e] eqn:E; simpl in Hin;
        try contradiction.
      + destruct Hin as [<- | []]. exact E.
      + destruct (Options.level args) as [st |].
        * destruct (level <=? st)%Z; destruct Hin.
        * apply gen_for_yielded in Hin. destruct Hin as (rc & _ & Hin).
          now apply yield_if_lacks_yielded in Hin.
    - simpl in Hin. apply gen_for_yielded in Hin.
      destruct Hin as (p & _ & Hin).
      destruct (lacks_file_id t p) as [[] | e] eqn:E; simpl in Hin;
        try contradiction.
      + destruct Hin as [<- | []]. exact E.
      + destruct (Options.level args) as [st |].
        * destruct (level <=? st)%Z; [| destruct Hin].
          now apply IH in Hin.
        * apply gen_for_yielded in Hin. destruct Hin as (rc & _ & Hin).
          now apply yield_if_lacks_yielded in Hin. }
  unfold lacks_file_id in Hl.
  destruct (is_broken_symlink (t q)); [| discriminate].
  split; [reflexivity |].
  destruct (cache (t q)) as [c |]; [| discriminate].
  destruct (cache_meta c) as [m |] eqn:Hm; [| discriminate].
  destruct (meta_file_id m) eqn:Hi; [discriminate |].
  exists c, m. now repeat split.
Qed.

End Walk.

Lemma build_paths_level_witness :
  snd (build_paths tree_small (args_level (Some 0%Z) false) false [["d"]]) = None /\
  (forall q,
      In q (fst (build_paths tree_small (args_level (Some 0%Z) false) false [["d"]])) <->
      exists p k, In p [["d"]] /\ k <= Z.to_nat (0 + 1) /\ In q (at_depth k p)) /\
  (forall extra,
      inner tree_small false false (Some 0%Z) (levels_left 0 0 + extra) 0 [["d"]]
      = build_paths tree_small (args_level (Some 0%Z) false) false [["d"]]).
Proof.
  apply (build_paths_level tree_small (args_level (Some 0%Z) false) 0 [["d"]]).
  - reflexivity.
  - reflexivity.
Defined.

Lemma build_paths_empty_witness :
  (forall st q,
      Options.level (args_level None true) = Some st ->
      In q (fst (build_paths tree_small (args_level None true) false [["d"]])) ->
      is_dir (tree_small q) = true /\ list_children q = []) /\
  (forall p q,
      Options.level (args_level None true) = None ->
      In p [["d"]] -> is_dir (tree_small p) = true -> In q (list_rchildren p) ->
      In q (fst (build_paths tree_small (args_level None true) false [["d"]]))).
Proof.
  apply (build_paths_empty tree_small (args_level None true) [["d"]]).
  reflexivity.
Defined.

Lemma build_paths_only_no_file_id_witness :
  is_broken_symlink (tree_small ["d"; "f.csv"]) = true /\
  exists c m, cache (tree_small ["d"; "f.csv"]) = Some c /\
              cache_meta c = Some m /\ meta_file_id m = None.
Proof.
  apply (build_paths_only_no_file_id tree_small (args_level None false)
           [["d"]] ["d"; "f.csv"]).
  vm_compute. left. reflexivity.
Defined.

(** ** find *)

Lemma filter_m_sound {W A} (I : St W -> Prop) (f : A -> M W bool) :
  (forall y, preserves I (f y)) ->
  forall l s l' s',
    I s -> filter_m f l s = (Ok l', s') ->
    forall x, In x l' ->
      In x l /\ exists s0 s1, I s0 /\ f x s0 = (Ok true, s1).
Proof.
  intros HP. induction l as [| y rest IH]; intros s l' s' Hs E x Hx.
  - simpl in E. unfold ret in E. injection E as <- _. destruct Hx.
  - simpl in E.
    apply bind_inv_ok in E. destruct E as (b & s1 & Ey & E).
    apply bind_inv_ok in E. destruct E as (ys & s2 & Er & E).
    injection E as <- _.
    assert (Hs1 : I s1) by (specialize (HP y s Hs); now rewrite Ey in HP).
    destruct b.
    + destruct Hx as [<- | Hx].
      * split; [now left |]. now exists s, s1.
      * destruct (IH s1 ys s2 Hs1 Er x Hx) as [Hin Hw].
        split; [now right | exact Hw].
    + destruct (IH s1 ys s2 Hs1 Er x Hx) as [Hin Hw].
      split; [now right | exact Hw].
Qed.

Lemma find_candidates_unlimited args globbed (s : St Tree) :
  truthy_limit (Options.limit args) = false ->
  find_candidates args globbed s =
  (Ok (filter (fun p => negb (is_dir (world s p))) globbed, None), s).
Proof.
  intros Hl. unfold find_candidates.
  rewrite (bind_ok _ _ _ _ _ (filter_not_a_dir globbed s)).
  destruct (Options.limit args) as [l |]; [| reflexivity].
  now rewrite Hl.
Qed.

(** X4: Without a size limit ([--limit=0] or a negative one) the listing of
    [find] cannot finish: the paths are printed, and the line that
    reports [n_skipped] reads a variable that was never assigned. *)
Theorem find_unlimited_listing_unbound :
  forall `{Scheduler} `{Render Tree} `{RemoteStore}
         remote_refresh args g gs (s : St Tree) txt,
    truthy_limit (Options.limit args) = false ->
    (opt_pretend args = true \/
     (opt_verbose args = false /\ opt_fetch args = false /\
      opt_refresh args = false)) ->
    render_paths (world s) None
      (filter (fun p => negb (is_dir (world s p))) (g :: gs)) = Ok txt ->
    find remote_refresh args (g :: gs) s
    = (Raise (UnboundLocalError "n_skipped"),
       mkSt (world s) (logs s) (stdout s ++ [txt]) (trace s)).
Proof.
  intros sched render store rr args g gs s txt Hl Hmode Hr.
  unfold find.
  rewrite (bind_ok _ _ _ _ _ (find_candidates_unlimited args (g :: gs) s Hl)).
  cbn [fst snd].
  assert (Hp : (print_paths None
                  (filter (fun p => negb (is_dir (world s p))) (g :: gs)) ;;
                print_skipped None) s
               = (Raise (UnboundLocalError "n_skipped"),
                  mkSt (world s) (logs s) (stdout s ++ [txt]) (trace s))).
  { unfold print_paths, bind, get_world. rewrite Hr. reflexivity. }
  destruct Hmode as [Hp' | (Hv & Hf & Hrf)].
  - rewrite Hp'. exact Hp.
  - destruct (opt_pretend args); [exact Hp |].
    rewrite Hv, Hf, Hrf. cbn [orb].
    unfold bind at 1. unfold ret at 1. exact Hp.
Qed.

Lemma find_unlimited_listing_unbound_witness :
  find (fun _ _ _ => ret tt) (args_limit 0 false) [["data"; "big.tif"]]
       (st_init tree_big)
  = (Raise (UnboundLocalError "n_skipped"),
     mkSt (world (st_init tree_big)) (logs (st_init tree_big))
          (stdout (st_init tree_big) ++ ["/data/big.tif"])
          (trace (st_init tree_big))).
Proof.
  apply (find_unlimited_listing_unbound (fun _ _ _ => ret tt)
           (args_limit 0 false) ["data"; "big.tif"] [] (st_init tree_big)
           "/data/big.tif").
  - reflexivity.
  - right. repeat split; reflexivity.
  - reflexivity.
Defined.

(** X5: Under a size limit and without [--exists], [find] never offers a
    path that is not there yet and whose cached size is not below the
    limit; and whatever the options, every candidate is one of the
    globbed paths and not a directory. *)
Theorem find_excludes_large_placeholder :
  forall args globbed (s : St Tree) cands n s',
    find_candidates args globbed s = (Ok (cands, n), s') ->
    (forall q, In q cands -> In q globbed /\ is_dir (world s q) = false) /\
    (forall p l c m sz,
        Options.limit args = Some l -> l <> 0%Z ->
        opt_exists args = false ->
        cache (world s p) = Some c -> cache_meta c = Some m ->
        meta_size m = Some sz ->
        path_exists (world s p) = false -> mb_lt sz l = false ->
        ~ In p cands).
Proof.
  intros args globbed s cands n s' E. unfold find_candidates in E.
  rewrite (bind_ok _ _ _ _ _ (filter_not_a_dir globbed s)) in E.
  assert (Hnd : forall q,
             In q (filter (fun p => negb (is_dir (world s p))) globbed) ->
             In q globbed /\ is_dir (world s q) = false).
  { intros q Hq. apply filter_In in Hq. destruct Hq as [Hq Hd].
    split; [exact Hq | now apply negb_true_iff]. }
  destruct (Options.limit args) as [l0 |] eqn:HL.
  - destruct (truthy_limit (Some l0)) eqn:HT.
    + apply bind_inv_ok in E. destruct E as (kept & s1 & Ek & E).
      unfold bind, get_world, ret in E. injection E as <- _ _.
      pose proof (filter_m_sound (same_tree (world s))
                    (find_keep (opt_exists args) l0)
                    (fun y => find_keep_same_tree _ _ _ y)
                    _ s kept s1 eq_refl Ek) as Hs.
      split.
      * intros q Hq. apply Hnd. apply (Hs q Hq).
      * intros p l c m sz Hl Hnz He Hc Hm Hsz Hx Hmb Hin.
        injection Hl as ->.
        destruct (Hs p Hin) as (_ & s0 & s2 & Hs0 & Hk).
        unfold same_tree in Hs0.
        unfold find_keep, bind, path_state in Hk.
        rewrite Hs0, Hc in Hk. simpl in Hk. rewrite Hm in Hk. simpl in Hk.
        rewrite Hsz, He, Hx, Hmb in Hk. simpl in Hk. discriminate.
    + unfold ret in E. injection E as <- _ _. split; [exact Hnd |].
      intros p l c m sz Hl Hnz. injection Hl as ->. simpl in HT.
      apply negb_false_iff, Z.eqb_eq in HT. contradiction.
  - unfold ret in E. injection E as <- _ _. split; [exact Hnd |].
    intros p l c m sz Hl. discriminate.
Qed.

Lemma find_excludes_large_placeholder_witness :
  (forall q, In q [] -> In q [["data"; "big.tif"]] /\
                        is_dir (world (st_init tree_big) q) = false) /\
  (forall p l c m sz,
      Options.limit args_default = Some l -> l <> 0%Z ->
      opt_exists args_default = false ->
      cache (world (st_init tree_big) p) = Some c -> cache_meta c = Some m ->
      meta_size m = Some sz ->
      path_exists (world (st_init tree_big) p) = false -> mb_lt sz l = false ->
      ~ In p []).
Proof.
  apply (find_excludes_large_placeholder args_default [["data"; "big.tif"]]
           (st_init tree_big) [] (Some 1) (st_init tree_big)).
  vm_compute. reflexivity.
Defined.

Lemma find_keep_exists l p (s : St Tree) c m :
  cache (world s p) = Some c -> cache_meta c = Some m ->
  find_keep true l p s = (Ok true, s).
Proof.
  intros Hc Hm. unfold find_keep, bind, path_state.
  rewrite Hc. simpl. rewrite Hm. simpl. now destruct (meta_size m).
Qed.

Lemma filter_m_all {W A} (f : A -> M W bool) (s : St W) : forall l,
  (forall x, In x l -> f x s = (Ok true, s)) ->
  filter_m f l s = (Ok l, s).
Proof.
  induction l as [| x rest IH]; intros Hall; [reflexivity |].
  simpl. rewrite (bind_ok _ _ _ _ _ (Hall x (or_introl eq_refl))).
  rewrite (bind_ok _ _ _ _ _ (IH (fun y Hy => Hall y (or_intror Hy)))).
  reflexivity.
Qed.

Lemma in_paths_In p l : In p l -> in_paths p l = true.
Proof.
  intros Hin. unfold in_paths. apply existsb_exists. exists p.
  split; [exact Hin | apply path_eqb_refl].
Qed.

Lemma count_skipped_same t l : count_skipped t l l = 0.
Proof.
  unfold count_skipped.
  assert (E : filter (fun p => is_broken_symlink (t p) && negb (in_paths p l)) l = []).
  { assert (G : forall l0, (forall p, In p l0 -> in_paths p l = true) ->
               filter (fun p => is_broken_symlink (t p) && negb (in_paths p l)) l0
               = []).
    { induction l0 as [| x r IH]; intros Hin; [reflexivity |].
      simpl. rewrite (Hin x (or_introl eq_refl)), andb_false_r.
      apply IH. intros p Hp. apply Hin. now right. }
    apply G. intros p. apply in_paths_In. }
  now rewrite E.
Qed.

(** X6: With [--exists] the size limit of [find] filters nothing: when every
    globbed path that is not a directory has cached metadata, all of
    them are candidates, none is counted as skipped, and nothing is
    logged. *)
Theorem find_exists_keeps_all :
  forall args globbed (s : St Tree),
    opt_exists args = true ->
    (forall q, In q globbed -> is_dir (world s q) = false ->
               exists c m, cache (world s q) = Some c /\ cache_meta c = Some m) ->
    find_candidates args globbed s
    = (Ok (filter (fun p => negb (is_dir (world s p))) globbed,
           if truthy_limit (Options.limit args) then Some 0 else None), s).
Proof.
  intros args globbed s He Hall.
  destruct (truthy_limit (Options.limit args)) eqn:HT;
    [| now apply find_candidates_unlimited].
  unfold find_candidates.
  rewrite (bind_ok _ _ _ _ _ (filter_not_a_dir globbed s)).
  destruct (Options.limit args) as [l |]; [| discriminate].
  rewrite HT, He.
  assert (Hk : forall x,
             In x (filter (fun p => negb (is_dir (world s p))) globbed) ->
             find_keep true l x s = (Ok true, s)).
  { intros x Hx. apply filter_In in Hx. destruct Hx as [Hx Hd].
    apply negb_true_iff in Hd. destruct (Hall x Hx Hd) as (c & m & Hc & Hm).
    now apply (find_keep_exists l x s c m). }
  rewrite (bind_ok _ _ _ _ _ (filter_m_all (find_keep true l) s _ Hk)).
  unfold bind, get_world, ret. now rewrite count_skipped_same.
Qed.

Lemma find_exists_keeps_all_witness :
  find_candidates args_exists [["data"; "big.tif"]; ["data"; "here.tif"]]
    (st_init tree_mixed)
  = (Ok (filter (fun p => negb (is_dir (world (st_init tree_mixed) p)))
           [["data"; "big.tif"]; ["data"; "here.tif"]],
         if truthy_limit (Options.limit args_exists) then Some 0 else None),
     st_init tree_mixed).
Proof.
  apply (find_exists_keeps_all args_exists
           [["data"; "big.tif"]; ["data"; "here.tif"]] (st_init tree_mixed)).
  - reflexivity.
  - intros q [<- | [<- | []]] _; vm_compute; eexists; eexists; split; reflexivity.
Defined.

(** ** refresh and the commands under [--pretend] *)

Lemma quiet_read_only {W} (s0 : St W) : quiet (read_only s0).
Proof. intros s l o Hs. exact Hs. Qed.

Lemma read_only_refl {W} (s : St W) : read_only s s.
Proof. now split. Qed.

Lemma find_candidates_quiet (I : St Tree -> Prop) args globbed :
  quiet I -> preserves I (find_candidates args globbed).
Proof.
  intros Q. unfold find_candidates.
  apply preserves_bind.
  - apply preserves_filter_m. intros x _. unfold not_a_dir.
    apply preserves_bind; [apply preserves_path_state | intros; apply preserves_ret].
  - intros paths. destruct (Options.limit args) as [l |]; [| apply preserves_ret].
    destruct (truthy_limit (Some l)); [| apply preserves_ret].
    apply preserves_bind.
    + apply preserves_filter_m. intros p _. unfold find_keep.
      apply preserves_bind; [apply preserves_path_state | intros ps].
      apply preserves_bind; [apply preserves_attr | intros c].
      apply preserves_bind; [apply preserves_attr | intros m].
      destruct (meta_size m) as [sz |]; [| apply preserves_ret].
      destruct (opt_exists args); [apply preserves_ret |].
      destruct (negb (path_exists ps) && mb_lt sz l); [apply preserves_ret |].
      destruct (path_exists ps && negb (st_size_of ps =? sz)%Z);
        [| apply preserves_ret].
      apply preserves_bind;
        [now apply preserves_log_msg | intros; apply preserves_ret].
    + intros kept. apply preserves_bind; [apply preserves_get_world |].
      intros t. apply preserves_ret.
Qed.

(** X7: Under [--pretend], [fetch], [find] and [refresh] only print: the
    tree is as it was and no call is made to the layers below, whether
    the command returns or raises. *)
Theorem pretend_is_read_only :
  forall `{Scheduler} `{SetOrder} `{Render Tree} `{RemoteStore}
         {W} `{RefreshOps W} `{Render W}
         remote_refresh args cwd paths walked globbed
         (s : St Tree) (sw : St W),
    opt_pretend args = true ->
    read_only s (snd (fetch args walked s)) /\
    read_only s (snd (find remote_refresh args globbed s)) /\
    read_only sw (snd (refresh args cwd paths sw)).
Proof.
  intros sched order render store W ops renderW rr args cwd paths walked
    globbed s sw Hp.
  split; [| split].
  - enough (P : preserves (read_only s) (fetch args walked))
      by exact (P s (read_only_refl s)).
    unfold fetch. rewrite Hp.
    apply preserves_bind.
    + apply preserves_filter_m. intros x _. unfold not_a_dir.
      apply preserves_bind; [apply preserves_path_state | intros; apply preserves_ret].
    + intros l. apply preserves_bind; [| intros; apply preserves_ret].
      apply preserves_print_paths, quiet_read_only.
  - enough (P : preserves (read_only s) (find rr args globbed))
      by exact (P s (read_only_refl s)).
    unfold find. destruct globbed as [| g gs]; [apply preserves_ret |].
    apply preserves_bind; [apply find_candidates_quiet, quiet_read_only |].
    intros cands. rewrite Hp.
    apply preserves_bind; [apply preserves_print_paths, quiet_read_only |].
    intros _. unfold print_skipped.
    apply preserves_bind; [apply preserves_local_var | intros n].
    apply preserves_print, quiet_read_only.
  - enough (P : preserves (read_only sw) (refresh args cwd paths))
      by exact (P sw (read_only_refl sw)).
    unfold refresh. rewrite Hp.
    apply preserves_bind; [apply preserves_get_world | intros w0].
    apply preserves_bind; [apply preserves_print_paths, quiet_read_only |].
    intros _. apply preserves_print, quiet_read_only.
Qed.

Lemma pretend_is_read_only_witness :
  read_only (st_init tree_big)
    (snd (fetch (mkArgs 2 None (Some 5%Z) true true true false false false
                   false false [] None)
            [["data"; "big.tif"]] (st_init tree_big))) /\
  read_only (st_init tree_big)
    (snd (find (fun _ _ _ => ret tt)
            (mkArgs 2 None (Some 5%Z) true true true false false false
               false false [] None)
            [["data"; "big.tif"]] (st_init tree_big))) /\
  read_only (st_init tt)
    (snd (refresh (mkArgs 2 None (Some 5%Z) true true true false false false
                     false false [] None)
            ["org"; "ds"] [] (st_init tt))).
Proof.
  apply (pretend_is_read_only (W := unit) (H3 := ops_example)
           (fun _ _ _ => ret tt)
           (mkArgs 2 None (Some 5%Z) true true true false false false
              false false [] None)
           ["org"; "ds"] [] [["data"; "big.tif"]] [["data"; "big.tif"]]
           (st_init tree_big) (st_init tt)).
  reflexivity.
Defined.

Section RefreshMoves.
Context {sched : Scheduler} {order : SetOrder}
        {W : Type} {ops : RefreshOps W} {render : Render W}.

Lemma quiet_only_chdir_elsewhere t0 cwd :
  quiet (@only_chdir_elsewhere W t0 cwd).
Proof. intros s l o Hs. exact Hs. Qed.

Lemma call_elsewhere {A} t0 cwd ev (op : W -> outcome A * W) :
  chdir_elsewhere cwd ev ->
  preserves (only_chdir_elsewhere t0 cwd) (call ev op).
Proof.
  intros Hev s (evs & Ht & Hall). unfold call.
  destruct (op (world s)) as [r w]. simpl.
  exists (evs ++ [ev]). split.
  - now rewrite Ht, app_assoc.
  - apply Forall_app. split; [exact Hall | now constructor].
Qed.

Lemma apply_update_differ acc nr (s : St W) :
  moves_differ (fst acc) ->
  match apply_update acc nr s with
  | (Ok mp, _) => moves_differ (fst mp)
  | (Raise _, _) => True
  end.
Proof.
  destruct nr as [new r]. destruct acc as [mv pm]. intros Hd.
  cbn [fst] in Hd. unfold apply_update.
  destruct new as [x |]; cbn; unfold bind, try_except, call, get_world; cbn;
    destruct (update_cache_op r (world s)) as [[[] | e] w']; cbn;
    try (destruct (path_eqb (remote_local (world s) r) (remote_local w' r))
           eqn:Eq; cbn;
         [exact Hd |
          apply Forall_app; split; [exact Hd |];
          constructor; [now apply path_eqb_neq | constructor]]);
    destruct e; cbn; try exact I; try exact Hd;
    destruct (errno =? ENOTEMPTY)%Z; cbn; try exact I; exact Hd.
Qed.

Lemma apply_update_elsewhere t0 cwd acc nr :
  preserves (only_chdir_elsewhere t0 cwd) (apply_update acc nr).
Proof.
  intros s (evs & Ht & Hall).
  exists (evs ++ [EvUpdateCache (snd nr)]). split.
  - now rewrite apply_update_trace, Ht, app_assoc.
  - apply Forall_app. split; [exact Hall | now repeat constructor].
Qed.

Lemma apply_updates_differ t0 cwd l : forall acc,
  moves_differ (fst acc) ->
  hoare (only_chdir_elsewhere t0 cwd) (apply_updates acc l)
        (fun mp s => only_chdir_elsewhere t0 cwd s /\ moves_differ (fst mp))
        (only_chdir_elsewhere t0 cwd).
Proof.
  induction l as [| nr rest IH]; intros acc Hd; simpl.
  - apply hoare_ret. intros s Hs. now split.
  - intros s Hs. unfold bind.
    pose proof (apply_update_differ acc nr s Hd) as H1.
    pose proof (apply_update_elsewhere t0 cwd acc nr s Hs) as H2.
    destruct (apply_update acc nr s) as [[acc1 | e] s1]; simpl in H2.
    + exact (IH acc1 H1 s1 H2).
    + exact H2.
Qed.

Lemma refresh_tail_elsewhere t0 (args : Args) cwd (mp : Moves) :
  moves_differ (fst mp) ->
  preserves (only_chdir_elsewhere t0 cwd)
    (let (moved, parent_moved) := mp in
     (match moved with
      | [] => ret tt
      | _ :: _ =>
          print "Folders moved" ;;
          for_each moved (fun on =>
            if path_eqb (fst on) cwd then
              log_msg INFO ("Changing directory to " ++ as_posix (snd on)) ;;
              call (EvChdir (snd on)) (fun w => (Ok tt, chdir_op (snd on) w))
            else ret tt)
      end) ;;
     (match parent_moved with
      | [] => ret tt
      | _ :: _ => print_paths (Some "Parent moved") parent_moved
      end) ;;
     w2 <- get_world ;;
     (if negb (opt_debug args)
      then Async (refresh_cache (opt_fetch args) (Options.limit args))
                 (not_dirs_of w2) ;; ret tt
      else for_each (not_dirs_of w2)
             (refresh_cache (opt_fetch args) (Options.limit args)))).
Proof.
  destruct mp as [moved parent_moved]. cbn [fst]. intros Hd.
  apply preserves_bind.
  - destruct moved as [| m ms]; [apply preserves_ret |].
    apply preserves_bind;
      [apply preserves_print, quiet_only_chdir_elsewhere | intros _].
    apply preserves_for_each. intros on Hon.
    destruct (path_eqb (fst on) cwd) eqn:Eq; [| apply preserves_ret].
    apply preserves_bind;
      [apply preserves_log_msg, quiet_only_chdir_elsewhere | intros _].
    apply call_elsewhere. simpl.
    apply path_eqb_eq in Eq. rewrite <- Eq.
    pose proof (proj1 (Forall_forall _ _) Hd on Hon) as Hne.
    intros E. apply Hne. now symmetry.
  - intros _. apply preserves_bind.
    + destruct parent_moved; [apply preserves_ret |].
      apply preserves_print_paths, quiet_only_chdir_elsewhere.
    + intros _. apply preserves_bind; [apply preserves_get_world | intros w2].
      destruct (negb (opt_debug args)).
      * apply preserves_bind; [| intros; apply preserves_ret].
        apply preserves_Async. intros p _. now apply call_elsewhere.
      * apply preserves_for_each. intros p _. now apply call_elsewhere.
Qed.

Lemma preserves_hoare {A} (I : St W -> Prop) (c : M W A) :
  preserves I c -> hoare I c (fun _ => I) I.
Proof.
  intros P s Hs. specialize (P s Hs). now destruct (c s) as [[a | e] s1].
Qed.

Lemma hoare_preserves {A} (I : St W -> Prop) (c : M W A) :
  hoare I c (fun _ => I) I -> preserves I c.
Proof.
  intros P s Hs. specialize (P s Hs). now destruct (c s) as [[a | e] s1].
Qed.

(** X8: [refresh] changes the working directory only when the working
    directory itself was moved by an update, and then to a different
    path: no run contains a change of directory to [cwd]. *)
Theorem refresh_chdir_only_elsewhere :
  forall (args : Args) (cwd : path) (paths : list path) (s : St W),
  exists evs,
    trace (snd (refresh args cwd paths s)) = trace s ++ evs /\
    forall p, In (EvChdir p) evs -> p <> cwd.
Proof.
  intros args cwd paths s.
  enough (P : preserves (only_chdir_elsewhere (trace s) cwd)
                (refresh args cwd paths)).
  { destruct (P s) as (evs & Ht & Hall).
    - exists []. split; [now rewrite app_nil_r | constructor].
    - exists evs. split; [exact Ht |]. intros p Hp.
      exact (proj1 (Forall_forall _ _) Hall _ Hp). }
  set (I := only_chdir_elsewhere (trace s) cwd).
  assert (Q : quiet I) by apply quiet_only_chdir_elsewhere.
  unfold refresh.
  apply preserves_bind; [apply preserves_get_world | intros w0].
  destruct (opt_pretend args).
  - apply preserves_bind; [now apply preserves_print_paths | intros _].
    now apply preserves_print.
  - apply preserves_bind; [now apply preserves_print_paths | intros _].
    apply preserves_bind; [apply preserves_get_world | intros w1].
    apply preserves_bind.
    + destruct (negb (opt_debug args)).
      * apply preserves_Async. intros r _. unfold refresh_remote.
        apply preserves_bind; [apply preserves_get_world | intros w].
        now apply call_elsewhere.
      * apply preserves_map_m. intros r _. unfold refresh_remote.
        apply preserves_bind; [apply preserves_get_world | intros w].
        now apply call_elsewhere.
    + intros refreshed. apply hoare_preserves.
      eapply hoare_bind.
      * apply (apply_updates_differ (trace s) cwd). constructor.
      * intros mp s1 [Hs1 Hd].
        pose proof (refresh_tail_elsewhere (trace s) args cwd mp Hd s1 Hs1) as T.
        destruct mp as [moved parent_moved].
        match goal with
        | |- match ?c s1 with _ => _ end =>
            match type of T with
            | only_chdir_elsewhere _ _ (snd (?d s1)) =>
                change (c s1) with (d s1); now destruct (d s1) as [[a | e] s2]
            end
        end.
Qed.

(** The ancestors [refresh] goes through hold no path twice, however
    many of the requested paths share an ancestor. *)
Theorem to_root_no_repeats :
  forall (w : W) (paths : list path), NoDup (to_root w paths).
Proof.
  intros w paths. unfold to_root, set_iter.
  apply (Permutation_NoDup (sorted_perm _ _ _)).
  apply (Permutation_NoDup (set_order_perm _ _)).
  apply NoDup_nodup.
Qed.

End RefreshMoves.

(** ** clone: the ways out before the anchor *)

(** X9: [clone] gives up before it touches the filesystem when no project
    id was given (exit status 4) and when the remote has no secret for
    the project (exit status 11); each time one line is printed. *)
Theorem clone_exits_before_anchor :
  forall (projects : Projects) (pull : path -> M FS unit) args cwd (s : St FS),
    (opt_project_id args = None ->
     clone pull args cwd s
     = (Raise (SystemExit 4),
        mkSt (world s) (logs s)
             (stdout s ++ ["no remote project id listed"]) (trace s))) /\
    (forall project_id,
        opt_project_id args = Some project_id ->
        has_secret project_id = false ->
        clone pull args cwd s
        = (Raise (SystemExit 11),
           mkSt (world s) (logs s)
                (stdout s ++ [("missing api secret entry for " ++ project_id)%string])
                (trace s))).
Proof.
  intros projects pull args cwd s. split.
  - intros Hid. unfold clone. rewrite Hid. reflexivity.
  - intros project_id Hid Hsec. unfold clone. rewrite Hid.
    unfold bind at 1. unfold ret at 1.
    unfold bind at 1. unfold try_except, remote_init. rewrite Hsec.
    reflexivity.
Qed.

(** X10: Inside an existing project [clone] does not print the message
    `already in project' and does not exit with status 3: the message
    reads the name [root], which is not defined, and [NameError] is
    raised with nothing printed and the filesystem as it was. *)
Theorem clone_inside_project_name_error :
  forall (projects : Projects) (pull : path -> M FS unit) args cwd
         (s : St FS) project_id existing_root,
    opt_project_id args = Some project_id ->
    has_secret project_id = true ->
    find_cache_root (world s) cwd = Some existing_root ->
    clone pull args cwd s = (Raise (NameError "root"), s).
Proof.
  intros projects pull args cwd s project_id existing_root Hid Hsec Hroot.
  unfold clone. rewrite Hid.
  unfold bind at 1. unfold ret at 1.
  unfold bind at 1. unfold try_except, remote_init. rewrite Hsec.
  unfold ret at 1.
  unfold bind at 1. unfold get_world at 1.
  unfold bind at 1. rewrite Hroot. reflexivity.
Qed.

Lemma clone_inside_project_name_error_witness :
  clone (fun _ => ret tt) args_clone ["home"; "proj"; "ds"]
        (st_init fs_in_project)
  = (Raise (NameError "root"), st_init fs_in_project).
Proof.
  apply (clone_inside_project_name_error one_project (fun _ => ret tt)
           args_clone ["home"; "proj"; "ds"] (st_init fs_in_project)
           "N:organization:1" ["home"; "proj"]).
  - reflexivity.
  - reflexivity.
  - reflexivity.
Defined.

(** ** pull: directories that never reach the bootstrap *)

Section PullSkips.
Context {sched : Scheduler} {order : SetOrder} {W : Type} {ops : PullOps W}.

Lemma pull_dirs_all_skipped args only skips caches : forall dirs
  (s : St (PullWorld W)),
  opt_empty args = true ->
  (forall d, In d dirs -> children_of (tree_of (world s)) d <> []) ->
  pull_dirs args only skips caches dirs s = (Ok caches, s).
Proof.
  induction dirs as [| d rest IH]; intros s He Hall; [reflexivity |].
  cbn [pull_dirs].
  assert (E : pull_dir args only skips caches d s = (Ok caches, s)).
  { unfold pull_dir, bind, get_tree. rewrite He.
    destruct (children_of (tree_of (world s)) d) eqn:Hc; [| reflexivity].
    exfalso. now apply (Hall d (or_introl eq_refl)). }
  rewrite (bind_ok _ _ _ _ _ E). apply IH; [exact He |].
  intros d' Hd'. apply Hall. now right.
Qed.

(** X11: With [--empty], when every requested directory has children, no
    directory reaches the bootstrap: [pull] makes no call to the layer
    and ends in [UnboundLocalError], the local [caches] never having
    been assigned. *)
Theorem pull_empty_all_skipped_unbound :
  forall (args : Args) (big : bool) (cwd : path) (directories : list path)
         (s : St (PullWorld W)),
    opt_empty args = true ->
    (forall d, In d (requested_paths cwd directories) ->
               children_of (tree_of (world s)) d <> []) ->
    pull args big cwd directories s
    = (Raise (UnboundLocalError "caches"),
       mkSt (world s)
            (logs s ++
             [(DEBUG, String.concat ", "
                        (map as_posix
                           (sorted String.leb name_of
                              (requested_paths cwd directories))))])
            (stdout s) (trace s)).
Proof.
  intros args big cwd directories s He Hall. unfold pull.
  unfold bind at 1. unfold get_tree at 1.
  unfold bind at 1. unfold log_msg at 1.
  fold (requested_paths cwd directories).
  unfold bind at 1.
  rewrite pull_dirs_all_skipped; [reflexivity | exact He |].
  intros d Hd. cbn [world tree_of]. apply Hall.
  now apply (Permutation_in _ (Permutation_sym (sorted_perm _ _ _))) in Hd.
Qed.

(** X12: A directory that the remote no longer has: when the refresh of the
    requested directory returns nothing, [pull] passes it over and ends
    in [UnboundLocalError] for [caches]; when the refresh of a dataset
    under the organization returns nothing, the move is announced with
    the new place [None] and the line for the rename log cannot be
    built: [AttributeError], and the log is as it was. *)
Theorem pull_deleted_on_remote :
  forall (args : Args) (big : bool) (cwd d : path) (s : St (PullWorld W))
         c w',
    cache_refresh c (tree_of (world s)) = (Ok None, w') ->
    cache_of (tree_of (world s)) d = Some c ->
    pull_is_dir (tree_of (world s)) d = true ->
    (opt_empty args = false ->
     remote_is_dataset_or_organization (tree_of (world s)) d = true ->
     pull args big cwd [d] s
     = (Raise (UnboundLocalError "caches"),
        mkSt (mkPullWorld w' (renames_log (world s)))
             (logs s ++ [(DEBUG, as_posix d)]) (stdout s) (trace s))) /\
    record_dataset_move d s
    = (Raise (AttributeError "id"),
       mkSt (mkPullWorld w' (renames_log (world s)))
            (logs s ++ [(INFO, moved_message c None)]) (stdout s) (trace s)).
Proof.
  intros args big cwd d s c w' Hr Hc Hd. split.
  - intros He Hds. unfold pull. cbn [sorted insert_sorted map].
    unfold bind at 1. unfold get_tree at 1.
    unfold bind at 1. unfold log_msg at 1.
    unfold bind at 1. cbn [pull_dirs].
    unfold bind at 1. unfold pull_dir.
    unfold bind at 1. unfold get_tree at 1. cbn [world tree_of].
    rewrite He, Hd, Hds, Hc. cbn [andb negb].
    unfold bind at 1. unfold ret at 1.
    unfold bind at 1. unfold attr, ret at 1.
    unfold bind at 1. unfold lift_op. cbn [world tree_of]. rewrite Hr.
    reflexivity.
  - unfold record_dataset_move.
    unfold bind at 1. unfold get_tree at 1. rewrite Hd, Hc.
    unfold attr, bind at 1. unfold ret at 1.
    unfold bind at 1. unfold lift_op. rewrite Hr. reflexivity.
Qed.

End PullSkips.

Lemma pull_empty_all_skipped_unbound_witness :
  pull (args_level None true) false ["org"] [] pull_start
  = (Raise (UnboundLocalError "caches"),
     mkSt (world pull_start)
          (logs pull_start ++
           [(DEBUG, String.concat ", "
                      (map as_posix
                         (sorted String.leb name_of
                            (requested_paths ["org"] []))))])
          (stdout pull_start) (trace pull_start)).
Proof.
  apply (pull_empty_all_skipped_unbound (ops := pull_example)
           (args_level None true) false ["org"] [] pull_start).
  - reflexivity.
  - intros d [<- | []]. vm_compute. discriminate.
Defined.

Lemma pull_deleted_on_remote_witness :
  (opt_empty args_default = false ->
   @remote_is_dataset_or_organization unit pull_all_deleted
     (tree_of (world pull_start)) ["ds"] = true ->
   @pull unit pull_all_deleted _ _ args_default false ["ds"] [["ds"]] pull_start
   = (Raise (UnboundLocalError "caches"),
      mkSt (mkPullWorld tt (renames_log (world pull_start)))
           (logs pull_start ++ [(DEBUG, as_posix ["ds"])])
           (stdout pull_start) (trace pull_start))) /\
  @record_dataset_move unit pull_all_deleted ["ds"] pull_start
  = (Raise (AttributeError "id"),
     mkSt (mkPullWorld tt (renames_log (world pull_start)))
          (logs pull_start ++
           [(INFO, moved_message (mkCacheObj ["ds"] "N:dataset:gone") None)])
          (stdout pull_start) (trace pull_start)).
Proof.
  apply (pull_deleted_on_remote (ops := pull_all_deleted)
           args_default false ["ds"] ["ds"] pull_start
           (mkCacheObj ["ds"] "N:dataset:gone") tt).
  - reflexivity.
  - reflexivity.
  - reflexivity.
Defined.

(** ** stash: what it leaves alone *)

Lemma preserves_relative_to {W} (I : St W -> Prop) p a :
  preserves I (@relative_to W p a).
Proof.
  unfold relative_to. destruct (strip_prefix (anchor_local a) p);
    [apply preserves_ret | apply preserves_raise].
Qed.

Lemma preserves_of_outcome {W A} (I : St W -> Prop) (o : outcome A) :
  preserves I (@of_outcome W A o).
Proof. intros s Hs. exact Hs. Qed.

Lemma preserves_cache_meta_of (I : St FS -> Prop) p :
  preserves I (cache_meta_of p).
Proof.
  unfold cache_meta_of. apply preserves_bind; [apply preserves_get_world |].
  intros fs. destruct (fs_get fs p); [apply preserves_attr | apply preserves_raise].
Qed.

Lemma map_m_relative_outside {W} (a : Anchor) p : forall paths (s : St W),
  In p paths -> strip_prefix (anchor_local a) p = None ->
  map_m (fun p => r <- relative_to p a ;; ret (Abs p :: map Rel (parents r)))
        paths s
  = (Raise (ValueError "is not in the subpath of the anchor"), s).
Proof.
  induction paths as [| q rest IH]; intros s Hin Hout; [destruct Hin |].
  cbn [map_m]. unfold bind at 1. unfold bind at 1. unfold relative_to at 1.
  destruct (strip_prefix (anchor_local a) q) as [r |] eqn:Hq.
  - unfold ret at 1. unfold ret at 1.
    destruct Hin as [-> | Hin]; [congruence |].
    unfold bind at 1. now rewrite (IH s Hin Hout).
  - reflexivity.
Qed.

Section StashKeeps.
Context {order : SetOrder} {copy : CopyLayer}.

Lemma preserves_checksum_of (I : St FS -> Prop) p :
  preserves I (checksum_of p).
Proof.
  unfold checksum_of. apply preserves_bind; [apply preserves_get_world |].
  intros fs. destruct (fs_get fs p) as [[] |];
    [apply preserves_raise | apply preserves_ret | apply preserves_raise].
Qed.

Lemma copy_file_elsewhere src tgt force ccm q (s : St FS) :
  q <> tgt ->
  fs_get (world (snd (copy_file src tgt force ccm s))) q = fs_get (world s) q.
Proof.
  intros Hq. unfold copy_file, bind, get_world.
  destruct (fs_get (world s) src) as [[m anc | d m] |]; try reflexivity.
  destruct (negb force && match fs_get (world s) tgt with
                          | Some _ => true
                          | None => false
                          end); [reflexivity |].
  destruct (fs_is_dir (world s) (parent tgt)); [| reflexivity].
  simpl. now apply fs_get_put_other.
Qed.

Lemma copy_file_keeps q n src tgt ccm :
  preserves (has_node q n) (copy_file src tgt false ccm).
Proof.
  intros s Hs. unfold has_node in *.
  destruct (path_eq_dec q tgt) as [<- | Hne].
  - unfold copy_file, bind, get_world. rewrite Hs.
    destruct (fs_get (world s) src) as [[m anc | d m] |]; exact Hs.
  - now rewrite copy_file_elsewhere.
Qed.

Lemma cache_init_elsewhere p m anc q (s : St FS) :
  q <> p ->
  fs_get (world (snd (cache_init p m anc s))) q = fs_get (world s) q.
Proof.
  intros Hq. unfold cache_init, bind, get_world.
  destruct (fs_get (world s) p) as [[m0 a0 | d m0] |]; try reflexivity;
    simpl; now apply fs_get_put_other.
Qed.

Lemma cache_init_keeps q n p m anc :
  p <> q -> preserves (has_node q n) (cache_init p m anc).
Proof.
  intros Hp s Hs. unfold has_node in *.
  rewrite cache_init_elsewhere; [exact Hs | congruence].
Qed.

Lemma keeps_then {B} q n (c : M FS unit) (k : M FS B) (P : Prop) :
  preserves (has_node q n) c ->
  (forall s s', has_node q n s -> c s = (Ok tt, s') -> P) ->
  (P -> preserves (has_node q n) k) ->
  preserves (has_node q n) (c ;; k).
Proof.
  intros Hc HP Hk s Hs. unfold bind. specialize (Hc s Hs).
  destruct (c s) as [[[] | e] s1] eqn:E; [| exact Hc].
  simpl in Hc. apply Hk; [| exact Hc]. exact (HP s s1 Hs E).
Qed.

Lemma stash_one_keeps q n a na f sp :
  preserves (has_node q n) (stash_one a na f sp).
Proof.
  unfold stash_one.
  apply preserves_bind.
  { destruct sp; [apply preserves_relative_to | apply preserves_ret]. }
  intros rel.
  apply preserves_bind; [apply preserves_log_msg, quiet_has_node | intros _].
  apply preserves_bind; [apply preserves_log_msg, quiet_has_node | intros _].
  apply preserves_bind; [apply preserves_get_world | intros fs].
  destruct (fs_is_dir fs (anchor_local a ++ rel)).
  - apply keeps_then with (P := na ++ rel <> q).
    + apply mkdir_keeps.
    + intros s s' Hs E. apply mkdir_inv in E. destruct E as [Hnone _].
      intros E0. unfold has_node in Hs. rewrite <- E0 in Hs. congruence.
    + intros Hne. apply preserves_bind; [apply preserves_cache_meta_of |].
      intros m. now apply cache_init_keeps.
  - apply preserves_bind; [apply preserves_log_msg, quiet_has_node | intros _].
    apply keeps_then with (P := na ++ rel <> q).
    + apply copy_file_keeps.
    + intros s s' Hs E. apply copy_file_inv in E.
      destruct E as (d & m & _ & Hfree & _).
      intros E0. unfold has_node in Hs.
      rewrite <- E0, (Hfree eq_refl) in Hs. discriminate.
    + intros Hne.
      apply preserves_bind; [apply preserves_checksum_of | intros pc].
      apply preserves_bind; [apply preserves_checksum_of | intros npc].
      apply preserves_bind.
      { destruct (String.eqb pc npc); [apply preserves_ret | apply preserves_raise]. }
      intros _.
      apply preserves_bind; [apply preserves_cache_meta_of | intros cmeta].
      apply preserves_bind; [apply preserves_of_outcome | intros nmeta].
      apply preserves_bind; [apply preserves_log_msg, quiet_has_node | intros _].
      now apply cache_init_keeps.
Qed.

Lemma preserves_to_stash (I : St FS -> Prop) a paths :
  preserves I (to_stash a paths).
Proof.
  unfold to_stash. apply preserves_bind; [| intros; apply preserves_ret].
  apply preserves_map_m. intros p _.
  apply preserves_bind; [apply preserves_relative_to | intros; apply preserves_ret].
Qed.

(** X14: A path that is not below the anchor stops [stash], and the restore
    as well, before anything is read or written: [relative_to] raises
    [ValueError] while the list of what to stash is built. *)
Theorem stash_outside_anchor_refused :
  forall args (a : Anchor) ts f paths (s : St FS) p,
    In p paths ->
    strip_prefix (anchor_local a) p = None ->
    stash args a ts f paths s
    = (Raise (ValueError "is not in the subpath of the anchor"), s).
Proof.
  intros args a ts f paths s p Hin Hout. unfold stash, to_stash.
  unfold bind at 1. unfold bind at 1.
  now rewrite (map_m_relative_outside a p paths s Hin Hout).
Qed.

(** X15: A stash only adds: every entry the filesystem held before is there
    unchanged afterwards, the files of the working tree and the earlier
    stashes alike, whether the stash returns or raises on the way. *)
Theorem stash_is_additive :
  forall args (a : Anchor) ts f paths (s : St FS) q n,
    opt_restore args = false ->
    fs_get (world s) q = Some n ->
    fs_get (world (snd (stash args a ts f paths s))) q = Some n.
Proof.
  intros args a ts f paths s q n Hres Hq.
  enough (P : preserves (has_node q n) (stash args a ts f paths))
    by exact (P s Hq).
  unfold stash. rewrite Hres.
  apply preserves_bind; [apply preserves_to_stash | intros l].
  apply keeps_then with (P := new_anchor_of a ts <> q).
  - apply mkdir_parents_keeps.
  - intros s0 s' Hs E. exact (mkdir_parents_fresh q n _ s0 s' Hs E).
  - intros Hne.
    apply preserves_bind; [apply preserves_cache_meta_of | intros am].
    apply preserves_bind; [now apply cache_init_keeps | intros _].
    apply preserves_bind.
    + apply preserves_for_each. intros sp _. apply stash_one_keeps.
    + intros _. apply preserves_bind; [apply preserves_get_world |].
      intros fs. apply preserves_ret.
Qed.

(** X16: The restore writes nowhere but at the requested paths: every other
    entry, the stash included, is what it was, whether the restore
    returns or raises on the way. *)
Theorem restore_writes_only_requested :
  forall args (a : Anchor) ts f paths (s : St FS) q,
    opt_restore args = true ->
    ~ In q paths ->
    fs_get (world (snd (stash args a ts f paths s))) q = fs_get (world s) q.
Proof.
  intros args a ts f paths s q Hres Hq.
  enough (P : preserves (node_kept s q) (stash args a ts f paths))
    by exact (P s eq_refl).
  unfold stash. rewrite Hres.
  apply preserves_bind; [apply preserves_to_stash | intros l].
  apply preserves_bind; [apply preserves_get_world | intros fs].
  apply preserves_bind; [| intros; apply preserves_ret].
  apply preserves_for_each. intros p Hp. unfold restore_path.
  apply preserves_bind; [apply preserves_relative_to | intros relpath].
  destruct (List.find (tail_matches relpath) (stash_entries fs a)) as [e |];
    [| apply preserves_ret].
  intros s1 Hs1. unfold node_kept in *.
  rewrite copy_file_elsewhere; [exact Hs1 |].
  intros ->. now apply Hq.
Qed.

End StashKeeps.

Lemma stash_outside_anchor_refused_witness :
  stash args_stash proj_anchor "2019" (fun m => Ok m)
        [["r"; "proj"; "b.txt"]; ["r"; "elsewhere.txt"]] (st_init fs_one_file)
  = (Raise (ValueError "is not in the subpath of the anchor"),
     st_init fs_one_file).
Proof.
  apply (stash_outside_anchor_refused (order := in_order) (copy := faithful_copy)
           args_stash proj_anchor "2019" (fun m => Ok m)
           [["r"; "proj"; "b.txt"]; ["r"; "elsewhere.txt"]]
           (st_init fs_one_file) ["r"; "elsewhere.txt"]).
  - right. left. reflexivity.
  - reflexivity.
Defined.

Lemma stash_is_additive_witness :
  fs_get (world (snd (stash args_stash proj_anchor "2020" (fun m => Ok m)
                        [["r"; "proj"; "b.txt"]] stashed_one_file)))
         ["r"; "stash"; "2019"; "proj"; "b.txt"]
  = Some (NFile "top" (Some (meta_at 1))).
Proof.
  apply (stash_is_additive (order := in_order) (copy := faithful_copy)
           args_stash proj_anchor "2020" (fun m => Ok m)
           [["r"; "proj"; "b.txt"]] stashed_one_file
           ["r"; "stash"; "2019"; "proj"; "b.txt"]
           (NFile "top" (Some (meta_at 1)))).
  - reflexivity.
  - vm_compute. reflexivity.
Defined.

Lemma restore_writes_only_requested_witness :
  fs_get (world (snd (stash args_restore proj_anchor "2020" (fun m => Ok m)
                        [["r"; "proj"; "b.txt"]] edited_after_stash)))
         ["r"; "stash"; "2019"; "proj"; "b.txt"]
  = fs_get (world edited_after_stash) ["r"; "stash"; "2019"; "proj"; "b.txt"].
Proof.
  apply (restore_writes_only_requested (order := in_order) (copy := faithful_copy)
           args_restore proj_anchor "2020" (fun m => Ok m)
           [["r"; "proj"; "b.txt"]] edited_after_stash
           ["r"; "stash"; "2019"; "proj"; "b.txt"]).
  - reflexivity.
  - intros [E | []]. discriminate.
Defined.

(** ** fix mismatch *)

Lemma for_each_print_spec {W A} (f : A -> string) : forall (l : list A) (s : St W),
  for_each l (fun o => print (f o)) s
  = (Ok tt, mkSt (world s) (logs s) (stdout s ++ map f l) (trace s)).
Proof.
  induction l as [| x rest IH]; intros s.
  - simpl. unfold ret. rewrite app_nil_r. now destruct s.
  - cbn [for_each map]. unfold bind at 1. unfold print at 1.
    rewrite IH. cbn [world logs stdout trace].
    now rewrite <- app_assoc.
Qed.

Lemma sf_inv cm nm :
  sf cm = Ok nm ->
  exists i, meta_old_id cm = Some i /\ i <> EmptyString /\
            nm = mkMeta (Some i) None None None None None.
Proof.
  unfold sf. cbn [meta_id].
  destruct (meta_old_id cm) as [i |]; [| discriminate].
  destruct i as [| c i]; [discriminate |].
  intros E. injection E as <-. exists (String c i).
  repeat split. discriminate.
Qed.

Section Mismatch.
Context {order : SetOrder} {copy : CopyLayer} {render : Render FS}.

(** X18: [fix mismatch] keeps the old version under its old id: when it
    returns, every file it was given is still in place, and its copy in
    the stash carries a metadata record that holds the [old_id] of the
    file's cache as its id and nothing else.  A file whose cache has no
    [old_id] does not fail the assertion of [sf] with its message: the
    message cannot be built, and [NameError] is raised. *)
Theorem mismatch_stashes_under_old_id :
  forall args (a : Anchor) ts oops (s s' : St FS) p d m,
    opt_restore args = false ->
    mismatch args a ts oops s = (Ok tt, s') ->
    In p (map fst oops) ->
    p <> anchor_local a ->
    fs_get (world s) p = Some (NFile d m) ->
    (exists rel cm i,
        strip_prefix (anchor_local a) p = Some rel /\
        m = Some cm /\ meta_old_id cm = Some i /\ i <> EmptyString /\
        fs_get (world s') (new_anchor_of a ts ++ rel)
        = Some (NFile (transfer d)
                  (Some (mkMeta (Some i) None None None None None))) /\
        fs_get (world s') p = Some (NFile d m)) /\
    (forall cm, meta_old_id cm = None -> sf cm = Raise (NameError "pathmeta")).
Proof.
  intros args a ts oops s s' p d m Hres H Hp Hnot Hfile.
  split; [| intros cm Hn; unfold sf; cbn [meta_id]; now rewrite Hn].
  unfold mismatch in H.
  unfold bind at 1 in H. rewrite for_each_print_spec in H.
  set (s1 := mkSt (world s) (logs s) (stdout s ++ map snd oops) (trace s)) in H.
  bind_inv H as nall s2 E2.
  destruct nall as [l |]; [| discriminate].
  assert (Hrel : exists rel, strip_prefix (anchor_local a) p = Some rel).
  { pose proof E2 as E. unfold stash in E. bind_inv E as l0 s3 E3.
    unfold to_stash in E3. bind_inv E3 as groups s4 E4.
    apply stash_groups_inv in E4. destruct E4 as [_ Hg].
    destruct (Hg p Hp) as (rel & Hrel & _). now exists rel. }
  destruct Hrel as (rel & Hrel).
  assert (Hne : rel <> []).
  { intros ->. apply strip_prefix_app in Hrel. rewrite app_nil_r in Hrel.
    now apply Hnot. }
  destruct (stash_file_stashed args a ts sf (map fst oops) s1 s2 (Some l) p rel
              d m Hres E2 Hp Hrel Hne Hfile)
    as [Hkept (cm & nm & Hm & Hsf & _ & Hg)].
  apply sf_inv in Hsf. destruct Hsf as (i & Hold & Hi & ->).
  assert (P : forall q n, has_node q n s2 -> has_node q n s').
  { intros q n Hq.
    assert (Pl : preserves (has_node q n)
                   (for_each l (fun n0 =>
                      m0 <- cache_meta_of n0 ;; print (as_pretty m0 n0)))).
    { apply preserves_for_each. intros x _.
      apply preserves_bind; [apply preserves_cache_meta_of | intros m0].
      apply preserves_print, quiet_has_node. }
    specialize (Pl s2 Hq). now rewrite H in Pl. }
  exists rel, cm, i. repeat split; try assumption.
  - exact (P _ _ Hg).
  - exact (P _ _ Hkept).
Qed.

End Mismatch.

Lemma mismatch_stashes_under_old_id_witness :
  (exists rel cm i,
      strip_prefix (anchor_local proj_anchor) ["r"; "proj"; "b.txt"] = Some rel /\
      Some meta_overwritten = Some cm /\ meta_old_id cm = Some i /\
      i <> EmptyString /\
      fs_get (world (snd (mismatch args_stash proj_anchor "2019"
                            [(["r"; "proj"; "b.txt"], "size differs")]
                            (st_init fs_overwritten))))
             (new_anchor_of proj_anchor "2019" ++ rel)
      = Some (NFile (transfer "old bytes")
                (Some (mkMeta (Some i) None None None None None))) /\
      fs_get (world (snd (mismatch args_stash proj_anchor "2019"
                            [(["r"; "proj"; "b.txt"], "size differs")]
                            (st_init fs_overwritten))))
             ["r"; "proj"; "b.txt"]
      = Some (NFile "old bytes" (Some meta_overwritten))) /\
  (forall cm, meta_old_id cm = None -> sf cm = Raise (NameError "pathmeta")).
Proof.
  apply (mismatch_stashes_under_old_id (order := in_order) (copy := faithful_copy)
           (render := plain_render FS)
           args_stash proj_anchor "2019"
           [(["r"; "proj"; "b.txt"], "size differs")]
           (st_init fs_overwritten)
           (snd (mismatch args_stash proj_anchor "2019"
                   [(["r"; "proj"; "b.txt"], "size differs")]
                   (st_init fs_overwritten)))
           ["r"; "proj"; "b.txt"] "old bytes" (Some meta_overwritten)).
  - reflexivity.
  - vm_compute. reflexivity.
  - left. reflexivity.
  - discriminate.
  - reflexivity.
Defined.

(** ** fix duplicates: the groups and their order *)

Section SortedByZ.
Context {A K : Type} (leb : K -> K -> bool) (key : A -> K) (f : A -> Z).

Lemma insert_sorted_by_Z x l :
  (forall y, In y l -> leb (key x) (key y) = (f x <=? f y)%Z) ->
  StronglySorted (fun a b => (f a <= f b)%Z) l ->
  StronglySorted (fun a b => (f a <= f b)%Z) (insert_sorted leb key x l).
Proof.
  intros Hleb Hs. induction Hs as [| y rest Hs IH Hall]; simpl.
  - repeat constructor.
  - rewrite (Hleb y (or_introl eq_refl)).
    destruct (Z.leb_spec (f x) (f y)) as [Hle | Hgt].
    + constructor; [now constructor |]. constructor; [exact Hle |].
      eapply Forall_impl; [| exact Hall]. simpl. intros z Hz. lia.
    + constructor.
      * apply IH. intros z Hz. apply Hleb. now right.
      * apply (Permutation_Forall (insert_sorted_perm leb key x rest)).
        constructor; [lia | exact Hall].
Qed.

Lemma sorted_by_Z l :
  (forall x y, In x l -> In y l -> leb (key x) (key y) = (f x <=? f y)%Z) ->
  StronglySorted (fun a b => (f a <= f b)%Z) (sorted leb key l).
Proof.
  induction l as [| x rest IH]; intros Hleb; simpl; [constructor |].
  apply insert_sorted_by_Z.
  - intros y Hy. apply Hleb; [now left | right].
    now apply (Permutation_in _ (Permutation_sym (sorted_perm leb key rest))).
  - apply IH. intros a b Ha Hb. apply Hleb; now right.
Qed.

End SortedByZ.

Lemma StronglySorted_map {A B} (R : B -> B -> Prop) (g : A -> B) l :
  StronglySorted (fun a b => R (g a) (g b)) l -> StronglySorted R (map g l).
Proof.
  induction 1 as [| x rest Hs IH Hall]; simpl; constructor; [exact IH |].
  apply Forall_map. exact Hall.
Qed.

Lemma mkey_updated (s : St Tree) p ts :
  updated_at (world s) p = Some ts ->
  mkey p s = (Ok (false, false, (- ts)%Z), s).
Proof.
  unfold updated_at, mkey, bind, path_state. intros Hu.
  destruct (cache (world s p)) as [c |]; [| discriminate]. cbn.
  destruct (cache_meta c) as [m |]; [| discriminate]. cbn.
  rewrite Hu. cbn. unfold ret. repeat f_equal.
  unfold meta_bool. rewrite Hu.
  now destruct (meta_id m), (meta_size m).
Qed.

Lemma mkey_pure (s s' : St Tree) p r : mkey p s = (r, s') -> s' = s.
Proof.
  unfold mkey, bind, path_state.
  destruct (cache (world s p)) as [c |]; cbn; [| now intros [= _ <-]].
  destruct (cache_meta c) as [m |]; cbn; [| now intros [= _ <-]].
  destruct (meta_updated m); cbn; now intros [= _ <-].
Qed.

Lemma keyed_pure : forall (l : list path) (s s' : St Tree) r,
  map_m (fun p => k <- mkey p ;; ret (k, p)) l s = (r, s') ->
  s' = s /\ forall kl, r = Ok kl -> map snd kl = l.
Proof.
  induction l as [| p rest IH]; intros s s' r H.
  - simpl in H. unfold ret in H. injection H as <- <-.
    split; [reflexivity |]. now intros kl [= <-].
  - cbn [map_m] in H. unfold bind at 1 in H. unfold bind at 1 in H.
    destruct (mkey p s) as [[k | e] s1] eqn:Ek.
    + apply mkey_pure in Ek. subst s1. unfold ret at 1 in H.
      unfold bind at 1 in H.
      destruct (map_m (fun p => k <- mkey p ;; ret (k, p)) rest s)
        as [[kl | e] s2] eqn:Er.
      * destruct (IH s s2 (Ok kl) Er) as [-> Hm].
        unfold ret in H. injection H as <- <-. split; [reflexivity |].
        intros kl' [= <-]. simpl. now rewrite (Hm kl eq_refl).
      * destruct (IH s s2 (Raise e) Er) as [-> _].
        injection H as <- <-. split; [reflexivity | discriminate].
    + apply mkey_pure in Ek. subst s1. injection H as <- <-.
      split; [reflexivity | discriminate].
Qed.

Lemma sorted_by_mkey_perm (l : list path) (s s' : St Tree) g :
  sorted_by_mkey l s = (Ok g, s') -> s' = s /\ Permutation l g.
Proof.
  unfold sorted_by_mkey. intros H. bind_inv H as kl s1 E1.
  apply keyed_pure in E1. destruct E1 as [-> Hm].
  unfold ret in H. injection H as <- <-. split; [reflexivity |].
  rewrite <- (Hm kl eq_refl). apply Permutation_map, sorted_perm.
Qed.

Lemma keyed_updated : forall (l : list path) (s : St Tree),
  (forall p, In p l -> exists ts, updated_at (world s) p = Some ts) ->
  exists kl,
    map_m (fun p => k <- mkey p ;; ret (k, p)) l s = (Ok kl, s) /\
    forall kp, In kp kl ->
      exists ts, updated_at (world s) (snd kp) = Some ts /\
                 fst kp = (false, false, (- ts)%Z).
Proof.
  induction l as [| p rest IH]; intros s Hall.
  - exists []. split; [reflexivity | intros kp []].
  - destruct (Hall p (or_introl eq_refl)) as (ts & Hts).
    destruct (IH s (fun q Hq => Hall q (or_intror Hq))) as (kl & Ekl & Hkl).
    exists (((false, false, (- ts)%Z), p) :: kl). split.
    + cbn [map_m].
      assert (E1 : (k <- mkey p ;; ret (k, p)) s
                   = (Ok ((false, false, (- ts)%Z), p), s)).
      { unfold bind. now rewrite (mkey_updated s p ts Hts). }
      rewrite (bind_ok _ _ _ _ _ E1), (bind_ok _ _ _ _ _ Ekl). reflexivity.
    + intros kp [<- | Hin]; [now exists ts | now apply Hkl].
Qed.

(** X19: When every path of a group carries the time of its last update, the
    sort of [fix duplicates] returns, and it returns the same paths with
    the most recently updated first: the path that is kept is a newest
    one. *)
Theorem duplicates_sort_newest_first :
  forall (l : list path) (s : St Tree),
    (forall p, In p l -> exists ts, updated_at (world s) p = Some ts) ->
    exists g,
      sorted_by_mkey l s = (Ok g, s) /\
      Permutation l g /\
      StronglySorted (newest_first (world s)) g.
Proof.
  intros l s Hall.
  destruct (keyed_updated l s Hall) as (kl & Ekl & Hkl).
  exists (map snd (sorted dupkey_leb fst kl)).
  assert (E : sorted_by_mkey l s
              = (Ok (map snd (sorted dupkey_leb fst kl)), s)).
  { unfold sorted_by_mkey. now rewrite (bind_ok _ _ _ _ _ Ekl). }
  split; [exact E |]. split; [exact (proj2 (sorted_by_mkey_perm _ _ _ _ E)) |].
  apply StronglySorted_map.
  assert (Hs : StronglySorted
                 (fun a b : DupKey * path => (snd (fst a) <= snd (fst b))%Z)
                 (sorted dupkey_leb fst kl)).
  { apply (sorted_by_Z dupkey_leb fst (fun kp : DupKey * path => snd (fst kp))).
    intros x y Hx Hy.
    destruct (Hkl x Hx) as (tx & _ & Ex). destruct (Hkl y Hy) as (ty & _ & Ey).
    rewrite Ex, Ey. reflexivity. }
  assert (Hin : forall kp, In kp (sorted dupkey_leb fst kl) -> In kp kl).
  { intros kp Hkp.
    now apply (Permutation_in _ (Permutation_sym (sorted_perm dupkey_leb fst kl))). }
  clear E. revert Hin. generalize dependent (sorted dupkey_leb fst kl).
  intros sl Hs.
  induction Hs as [| x rest Hs IH Hfa]; intros Hin; constructor.
  - apply IH. intros kp Hkp. apply Hin. now right.
  - rewrite Forall_forall in *. intros y Hy ta tb Ha Hb.
    specialize (Hfa y Hy).
    destruct (Hkl x (Hin x (or_introl eq_refl))) as (tx & Hx & Ex).
    destruct (Hkl y (Hin y (or_intror Hy))) as (ty & Hy' & Ey).
    rewrite Ex, Ey in Hfa. cbn in Hfa.
    rewrite Hx in Ha. rewrite Hy' in Hb.
    injection Ha as <-. injection Hb as <-. lia.
Qed.

Lemma duplicates_sort_newest_first_witness :
  exists g,
    sorted_by_mkey [["p1"]; ["p2"]; ["p3"]] (st_init tree_three_dated)
    = (Ok g, st_init tree_three_dated) /\
    Permutation [["p1"]; ["p2"]; ["p3"]] g /\
    StronglySorted (newest_first (world (st_init tree_three_dated))) g.
Proof.
  apply (duplicates_sort_newest_first [["p1"]; ["p2"]; ["p3"]]
           (st_init tree_three_dated)).
  intros p [<- | [<- | [<- | []]]]; vm_compute; eexists; reflexivity.
Defined.

Lemma group_of_add_same i p : forall all_,
  group_of i (group_add i p all_)
  = Some (match group_of i all_ with
          | Some l => l ++ [p]
          | None => [p]
          end).
Proof.
  induction all_ as [| [j l] rest IH]; simpl.
  - now rewrite String.eqb_refl.
  - destruct (String.eqb i j) eqn:E; simpl; rewrite E; [reflexivity | exact IH].
Qed.

Lemma group_of_add_other i j p : forall all_,
  j <> i -> group_of j (group_add i p all_) = group_of j all_.
Proof.
  intros all_ Hne. induction all_ as [| [k l] rest IH]; simpl.
  - assert (E : String.eqb j i = false) by now apply String.eqb_neq.
    now rewrite E.
  - destruct (String.eqb i k) eqn:E; simpl.
    + apply String.eqb_eq in E. subst k.
      assert (E' : String.eqb j i = false) by now apply String.eqb_neq.
      now rewrite E'.
    + destruct (String.eqb j k); [reflexivity | exact IH].
Qed.

Lemma keys_group_add i p : forall all_,
  map fst (group_add i p all_)
  = match group_of i all_ with
    | Some _ => map fst all_
    | None => map fst all_ ++ [i]
    end.
Proof.
  induction all_ as [| [j l] rest IH]; simpl; [reflexivity |].
  destruct (String.eqb i j) eqn:E; simpl; [reflexivity |].
  rewrite IH. now destruct (group_of i rest).
Qed.

Lemma group_of_none i : forall all_,
  group_of i all_ = None -> ~ In i (map fst all_).
Proof.
  induction all_ as [| [j l] rest IH]; simpl; [tauto |].
  destruct (String.eqb i j) eqn:E; [discriminate |].
  intros Hn [Hj | Hin]; [| now apply IH].
  apply String.eqb_neq in E. now apply E.
Qed.

Lemma in_group_of i l : forall all_,
  NoDup (map fst all_) ->
  (In (i, l) all_ <-> group_of i all_ = Some l).
Proof.
  induction all_ as [| [j k] rest IH]; simpl; intros Hnd.
  - split; [tauto | discriminate].
  - inversion Hnd as [| ? ? Hnotin Hnd']; subst.
    destruct (String.eqb i j) eqn:E.
    + apply String.eqb_eq in E. subst j. split.
      * intros [H | H]; [now injection H as -> |].
        exfalso. apply Hnotin. apply in_map_iff. now exists (i, l).
      * intros H. injection H as ->. now left.
    + apply String.eqb_neq in E. rewrite <- (IH Hnd'). split.
      * intros [H | H]; [injection H as -> _; now contradiction E | exact H].
      * intros H. now right.
Qed.

Lemma with_id_snoc t i done rc :
  with_id t i (done ++ [rc])
  = with_id t i done ++
    match cache (t rc) with
    | Some c => if String.eqb (cache_id c) i then [rc] else []
    | None => []
    end.
Proof.
  unfold with_id. rewrite filter_app. f_equal. simpl.
  destruct (cache (t rc)) as [c |]; [| reflexivity].
  now destruct (String.eqb (cache_id c) i).
Qed.

Lemma group_paths_groups skip_cache : forall paths done all_ (s : St Tree),
  exists r s',
    group_paths skip_cache paths all_ s = (Ok r, s') /\
    world s' = world s /\
    (NoDup (map fst all_) ->
     (forall i, group_of i all_
                = match with_id (world s) i done with
                  | [] => None
                  | l => Some l
                  end) ->
     NoDup (map fst r) /\
     forall i, group_of i r
               = match with_id (world s) i (done ++ paths) with
                 | [] => None
                 | l => Some l
                 end).
Proof.
  induction paths as [| rc rest IH]; intros done all_ s.
  - exists all_, s. rewrite app_nil_r. now repeat split.
  - cbn [group_paths]. unfold bind at 1. unfold path_state at 1.
    destruct (cache (world s rc)) as [c |] eqn:Hc.
    + destruct (IH (done ++ [rc]) (group_add (cache_id c) rc all_) s)
        as (r & s' & E & Hw & Hinv).
      exists r, s'. split; [exact E |]. split; [exact Hw |].
      intros Hnd Hg. rewrite <- app_assoc in Hinv. apply Hinv.
      * rewrite keys_group_add.
        destruct (group_of (cache_id c) all_) eqn:Eg; [exact Hnd |].
        apply NoDup_app; [exact Hnd | repeat constructor; tauto |].
        intros x Hx [<- | []]. now apply (group_of_none _ _ Eg).
      * intros i. rewrite with_id_snoc, Hc.
        destruct (String.eqb (cache_id c) i) eqn:Ei.
        -- apply String.eqb_eq in Ei. subst i.
           rewrite group_of_add_same, Hg.
           now destruct (with_id (world s) (cache_id c) done).
        -- apply String.eqb_neq in Ei.
           rewrite group_of_add_other by congruence.
           now rewrite app_nil_r, Hg.
    + unfold bind at 1.
      set (s1 := snd ((if skip_cache rc then ret tt
                       else log_msg CRITICAL ("WHAT THE WHAT " ++ as_posix rc)) s)).
      assert (E1 : (if skip_cache rc then ret tt
                    else log_msg CRITICAL ("WHAT THE WHAT " ++ as_posix rc)) s
                   = (Ok tt, s1) /\ world s1 = world s).
      { unfold s1. now destruct (skip_cache rc). }
      destruct E1 as [E1 Hw1]. rewrite E1.
      destruct (IH (done ++ [rc]) all_ s1) as (r & s' & E & Hw & Hinv).
      exists r, s'. split; [exact E |]. split; [now rewrite Hw |].
      intros Hnd Hg. rewrite <- app_assoc, Hw1 in Hinv. apply Hinv; [exact Hnd |].
      intros i. now rewrite with_id_snoc, Hc, app_nil_r.
Qed.

Lemma Forall2_right {A B} (R : A -> B -> Prop) l1 l2 b :
  Forall2 R l1 l2 -> In b l2 -> exists a, In a l1 /\ R a b.
Proof.
  induction 1 as [| x y r1 r2 Hxy Hf IH]; intros Hin; [destruct Hin |].
  destruct Hin as [<- | Hin].
  - exists x. split; [now left | exact Hxy].
  - destruct (IH Hin) as (a & Ha & HR). exists a. split; [now right | exact HR].
Qed.

Lemma Forall2_left {A B} (R : A -> B -> Prop) l1 l2 a :
  Forall2 R l1 l2 -> In a l1 -> exists b, In b l2 /\ R a b.
Proof.
  induction 1 as [| x y r1 r2 Hxy Hf IH]; intros Hin; [destruct Hin |].
  destruct Hin as [<- | Hin].
  - exists y. split; [now left | exact Hxy].
  - destruct (IH Hin) as (b & Hb & HR). exists b. split; [now right | exact HR].
Qed.

Lemma map_m_sorted_inv : forall (L : list (string * list path)) (s s' : St Tree) dv,
  map_m (fun il => sorted_by_mkey (snd il)) L s = (Ok dv, s') ->
  s' = s /\ Forall2 (fun il g => Permutation (snd il) g) L dv.
Proof.
  induction L as [| il rest IH]; intros s s' dv H.
  - simpl in H. unfold ret in H. injection H as <- <-. now split.
  - cbn [map_m] in H. bind_inv H as g s1 E1.
    apply sorted_by_mkey_perm in E1. destruct E1 as [-> Hp].
    bind_inv H as gs s2 E2. apply IH in E2. destruct E2 as [-> Hf].
    unfold ret in H. injection H as <- <-. split; [reflexivity |].
    now constructor.
Qed.

(** X20: The groups of [fix duplicates] are the sets of paths that share a
    remote id: each group holds, in some order, all the given paths whose
    cache has one id, at least two of them, and every id with two or more
    paths has its group. *)
Theorem duplicates_groups_by_remote_id :
  forall skip_cache dedupe paths (s s' : St Tree) r,
    duplicates skip_cache dedupe paths s = (Ok r, s') ->
    (forall g, In g (dv r) ->
               2 <= List.length g /\
               exists i, Permutation (with_id (world s) i paths) g) /\
    (forall i, 2 <= List.length (with_id (world s) i paths) ->
               exists g, In g (dv r) /\
                         Permutation (with_id (world s) i paths) g).
Proof.
  intros skip_cache dedupe paths s s' r H. unfold duplicates in H.
  destruct (group_paths_groups skip_cache paths [] [] s)
    as (all_ & s1 & E1 & Hw1 & Hinv).
  rewrite (bind_ok _ _ _ _ _ E1) in H.
  destruct Hinv as [Hnd Hg]; [constructor | reflexivity |].
  cbn [app] in Hg.
  bind_inv H as dv0 s2 E2.
  apply map_m_sorted_inv in E2. destruct E2 as [-> Hf].
  bind_inv H as dd s3 E3. bind_inv H as trs s4 E4.
  unfold ret in H. injection H as <- _. cbn [dv].
  split.
  - intros g Hin.
    destruct (Forall2_right _ _ _ _ Hf Hin) as ([i l] & Hil & Hp).
    apply filter_In in Hil. destruct Hil as [Hil Hlen].
    apply Nat.ltb_lt in Hlen. cbn [snd] in *.
    apply (in_group_of i l all_ Hnd) in Hil. rewrite Hg in Hil.
    split; [rewrite <- (Permutation_length Hp); lia |].
    exists i. destruct (with_id (world s) i paths); [discriminate |].
    now injection Hil as <-.
  - intros i Hlen.
    assert (Hil : In (i, with_id (world s) i paths) all_).
    { apply (in_group_of _ _ all_ Hnd). rewrite Hg.
      destruct (with_id (world s) i paths); [simpl in Hlen; lia | reflexivity]. }
    assert (Hfil : In (i, with_id (world s) i paths)
                     (filter (fun il => (1 <? List.length (snd il))%nat) all_)).
    { apply filter_In. split; [exact Hil |]. apply Nat.ltb_lt. cbn [snd]. lia. }
    destruct (Forall2_left _ _ _ _ Hf Hfil) as (g & Hgin & Hp).
    now exists g.
Qed.

Lemma duplicates_groups_by_remote_id_witness :
  (forall g,
      In g (dv (mkDupes [[["p2"]; ["p3"]; ["p1"]]] [["p2"]]
                  [["p3"]; ["p1"]] [["p3"]; ["p1"]])) ->
      2 <= List.length g /\
      exists i, Permutation
                  (with_id (world (st_init tree_three_dated)) i
                     [["p1"]; ["p2"]; ["p3"]; ["p4"]]) g) /\
  (forall i,
      2 <= List.length (with_id (world (st_init tree_three_dated)) i
                          [["p1"]; ["p2"]; ["p3"]; ["p4"]]) ->
      exists g,
        In g (dv (mkDupes [[["p2"]; ["p3"]; ["p1"]]] [["p2"]]
                    [["p3"]; ["p1"]] [["p3"]; ["p1"]])) /\
        Permutation
          (with_id (world (st_init tree_three_dated)) i
             [["p1"]; ["p2"]; ["p3"]; ["p4"]]) g).
Proof.
  apply (duplicates_groups_by_remote_id (fun _ => false)
           (fun a _ => ret a) [["p1"]; ["p2"]; ["p3"]; ["p4"]]
           (st_init tree_three_dated)
           (snd (duplicates (fun _ => false) (fun a _ => ret a)
                   [["p1"]; ["p2"]; ["p3"]; ["p4"]] (st_init tree_three_dated)))).
  vm_compute. reflexivity.
Defined.

(** ** The table of paths under [--sort-size-desc] *)

Lemma map_o_ok {A B} (f : A -> outcome B) (g : A -> B) : forall l,
  (forall x, In x l -> f x = Ok (g x)) -> map_o f l = Ok (map g l).
Proof.
  induction l as [| x rest IH]; intros Hf; [reflexivity |].
  simpl. rewrite (Hf x (or_introl eq_refl)).
  now rewrite (IH (fun y Hy => Hf y (or_intror Hy))).
Qed.

Lemma map_o_raise {A B} (f : A -> outcome B) e : forall l,
  (forall x, In x l -> f x = Raise e \/ exists y, f x = Ok y) ->
  (exists x, In x l /\ f x = Raise e) ->
  map_o f l = Raise e.
Proof.
  induction l as [| x rest IH]; intros Hall (z & Hz & Ez); [destruct Hz |].
  simpl. destruct (Hall x (or_introl eq_refl)) as [E | (y & E)]; rewrite E;
    [reflexivity |].
  destruct Hz as [-> | Hz]; [congruence |].
  rewrite IH; [reflexivity | intros w Hw; apply Hall; now right |].
  now exists z.
Qed.

Lemma size_cell_known t p z :
  known_size t p = Some z ->
  size_cell t p = Ok (CSize z).
Proof.
  unfold known_size, size_cell.
  destruct (is_dir (t p)); [discriminate |].
  destruct (cache (t p)) as [c |]; [| discriminate].
  destruct (cache_meta c) as [m |]; [| discriminate].
  destruct (meta_size m) as [z0 |] eqn:Hs; [| discriminate].
  destruct (z0 =? 0)%Z eqn:Hz; [discriminate |].
  intros E. injection E as <-.
  assert (Hb : meta_bool m = true).
  { unfold meta_bool. rewrite Hs. now destruct (meta_id m). }
  now rewrite Hb.
Qed.

Lemma size_cell_unknown t p :
  (is_dir (t p) = true \/ cache (t p) <> None) ->
  known_size t p = None ->
  exists s, size_cell t p = Ok (CStr s).
Proof.
  unfold known_size, size_cell. intros Hc.
  destruct (is_dir (t p)); [now eexists |].
  destruct Hc as [Hc | Hc]; [discriminate |].
  destruct (cache (t p)) as [c |]; [| contradiction].
  destruct (cache_meta c) as [m |]; [| now eexists].
  destruct (meta_bool m); [| now eexists].
  destruct (meta_size m) as [z0 |]; [| now eexists].
  destruct (z0 =? 0)%Z; [now eexists | discriminate].
Qed.

(** X21: A listing by size needs a size for every line.  Under
    [--sort-size-desc], when the paths include a directory or a path
    whose cached size is unknown or zero, the table is not printed: the
    sort key negates the text of the size column and [TypeError] is
    raised.  When every path has a known size that is not zero, the rows
    are the given paths, largest first. *)
Theorem listing_by_size_needs_sizes :
  forall (t : Tree) (paths : list path),
    (forall p, In p paths -> is_dir (t p) = true \/ cache (t p) <> None) ->
    ((exists p, In p paths /\ known_size t p = None) ->
     forall hr title (s : St Tree),
       world s = t ->
       print_paths_tab hr true title paths s
       = (Raise (TypeError "bad operand type for unary -: 'str'"), s)) /\
    ((forall p, In p paths -> known_size t p <> None) ->
     exists l,
       sorted_pairs true t paths = Ok l /\
       Permutation paths (map fst l) /\
       StronglySorted (larger_first t) (map fst l)).
Proof.
  intros t paths Hc. split.
  - intros (d & Hd & Hn) hr title s Hw.
    assert (Hcell : forall p, In p paths -> exists c, size_cell t p = Ok c).
    { intros p Hp. destruct (known_size t p) as [z |] eqn:Hk.
      - exists (CSize z). now apply size_cell_known.
      - destruct (size_cell_unknown t p (Hc p Hp) Hk) as (s0 & E).
        now exists (CStr s0). }
    set (cell := fun p => match size_cell t p with
                          | Ok c => c
                          | Raise _ => CStr EmptyString
                          end).
    assert (E1 : map_o (fun p => match size_cell t p with
                                 | Ok c => Ok (p, c)
                                 | Raise e => Raise e
                                 end) paths
                 = Ok (map (fun p => (p, cell p)) paths)).
    { apply map_o_ok. intros p Hp. unfold cell.
      destruct (Hcell p Hp) as (c & E). now rewrite E. }
    assert (E2 : map_o (fun pc : path * Cell =>
                          match cell_key (snd pc) with
                          | Ok k => Ok (k, pc)
                          | Raise e => Raise e
                          end) (map (fun p => (p, cell p)) paths)
                 = Raise (TypeError "bad operand type for unary -: 'str'")).
    { apply map_o_raise.
      - intros pc _. destruct (snd pc); [now left | right; now eexists].
      - exists (d, cell d). split.
        { apply in_map_iff. exists d. now split. }
        unfold cell. destruct (size_cell_unknown t d (Hc d Hd) Hn) as (s0 & E).
        now rewrite E. }
    unfold print_paths_tab, bind, get_world, of_outcome, paths_rows, sorted_pairs.
    now rewrite Hw, E1, E2.
  - intros Hall.
    set (size := fun p => match known_size t p with
                          | Some z => z
                          | None => 0%Z
                          end).
    assert (E1 : map_o (fun p => match size_cell t p with
                                 | Ok c => Ok (p, c)
                                 | Raise e => Raise e
                                 end) paths
                 = Ok (map (fun p => (p, CSize (size p))) paths)).
    { apply map_o_ok. intros p Hp. unfold size.
      destruct (known_size t p) as [z |] eqn:Hk; [| now destruct (Hall p Hp)].
      now rewrite (size_cell_known t p z Hk). }
    assert (E2 : map_o (fun pc : path * Cell =>
                          match cell_key (snd pc) with
                          | Ok k => Ok (k, pc)
                          | Raise e => Raise e
                          end) (map (fun p => (p, CSize (size p))) paths)
                 = Ok (map (fun pc : path * Cell =>
                              ((- size (fst pc))%Z, pc))
                         (map (fun p => (p, CSize (size p))) paths))).
    { apply map_o_ok. intros pc Hpc. apply in_map_iff in Hpc.
      destruct Hpc as (p & <- & _). reflexivity. }
    set (keyed := map (fun pc : path * Cell => ((- size (fst pc))%Z, pc))
                    (map (fun p => (p, CSize (size p))) paths)) in *.
    exists (map snd (sorted Z.leb fst keyed)).
    split; [unfold sorted_pairs; now rewrite E1, E2 |].
    assert (Hk : forall kp, In kp keyed -> fst kp = (- size (fst (snd kp)))%Z).
    { intros kp Hkp. unfold keyed in Hkp. apply in_map_iff in Hkp.
      destruct Hkp as (pc & <- & _). reflexivity. }
    assert (Hm : map fst (map snd keyed) = paths).
    { unfold keyed. rewrite !map_map. simpl. apply map_id. }
    split.
    + rewrite <- Hm at 1. apply Permutation_map, Permutation_map, sorted_perm.
    + rewrite map_map. apply StronglySorted_map.
      assert (Hs : StronglySorted
                     (fun a b : Z * (path * Cell) => (fst a <= fst b)%Z)
                     (sorted Z.leb fst keyed)).
      { apply (sorted_by_Z Z.leb fst (fun kp : Z * (path * Cell) => fst kp)).
        reflexivity. }
      assert (Hin : forall kp, In kp (sorted Z.leb fst keyed) -> In kp keyed).
      { intros kp Hkp.
        now apply (Permutation_in _ (Permutation_sym (sorted_perm Z.leb fst keyed))). }
      revert Hin. generalize dependent (sorted Z.leb fst keyed).
      intros sl Hs.
      induction Hs as [| x rest Hs IH Hfa]; intros Hin; constructor.
      * apply IH. intros kp Hkp. apply Hin. now right.
      * rewrite Forall_forall in *. intros y Hy za zb Ha Hb.
        specialize (Hfa y Hy).
        rewrite (Hk x (Hin x (or_introl eq_refl))) in Hfa.
        rewrite (Hk y (Hin y (or_intror Hy))) in Hfa.
        unfold size in Hfa. rewrite Ha, Hb in Hfa. lia.
Qed.

Lemma listing_by_size_needs_sizes_witness :
  ((exists p, In p [["d"; "a"]; ["d"; "b"]; ["d"; "c"]] /\
              known_size tree_sizes p = None) ->
   forall hr title (s : St Tree),
     world s = tree_sizes ->
     print_paths_tab hr true title [["d"; "a"]; ["d"; "b"]; ["d"; "c"]] s
     = (Raise (TypeError "bad operand type for unary -: 'str'"), s)) /\
  ((forall p, In p [["d"; "a"]; ["d"; "b"]; ["d"; "c"]] ->
              known_size tree_sizes p <> None) ->
   exists l,
     sorted_pairs true tree_sizes [["d"; "a"]; ["d"; "b"]; ["d"; "c"]] = Ok l /\
     Permutation [["d"; "a"]; ["d"; "b"]; ["d"; "c"]] (map fst l) /\
     StronglySorted (larger_first tree_sizes) (map fst l)).
Proof.
  apply (listing_by_size_needs_sizes tree_sizes
           [["d"; "a"]; ["d"; "b"]; ["d"; "c"]]).
  intros p [<- | [<- | [<- | []]]]; right; vm_compute; discriminate.
Defined.

(** With the folder in the list the same listing fails, with it left out
    the largest placeholder comes first. *)
Example listing_by_size_examples :
  fst (print_paths_tab (fun _ => "n") true None
         [["d"]; ["d"; "a"]; ["d"; "b"]; ["d"; "c"]] (st_init tree_sizes))
  = Raise (TypeError "bad operand type for unary -: 'str'") /\
  sorted_pairs true tree_sizes [["d"; "a"]; ["d"; "b"]; ["d"; "c"]]
  = Ok [(["d"; "b"], CSize 70); (["d"; "c"], CSize 20); (["d"; "a"], CSize 5)].
Proof. split; reflexivity. Qed.

(** ** report tofetch *)

Lemma count_step_local t acc pm c :
  count_step t acc pm = Ok c ->
  (c_total c - c_outstanding c
   = (c_total acc - c_outstanding acc)
     + match present_size t pm with Some s => s | None => 0 end)%Z /\
  (c_tf c - c_ff c
   = (c_tf acc - c_ff acc)
     + match present_size t pm with Some _ => 1 | None => 0 end)%Z /\
  (c_ff acc <= c_ff c)%Z.
Proof.
  destruct pm as [p m]. unfold count_step, present_size. cbn [fst snd].
  unfold ps_is_file, is_broken_symlink, is_dir.
  destruct (kind (t p)) as [| sz | |]; cbn.
  - intros E. injection E as <-. cbn. lia.
  - destruct m as [m |]; [| discriminate].
    destruct (meta_size m) as [s |].
    + destruct (Z.eqb_spec s 0) as [-> | Hs]; intros E; injection E as <-;
        cbn; lia.
    + intros E. injection E as <-. cbn. lia.
  - destruct m as [m |]; [| discriminate].
    destruct (meta_size m) as [s |].
    + destruct (Z.eqb_spec s 0) as [-> | Hs]; intros E; injection E as <-;
        cbn; lia.
    + intros E. injection E as <-. cbn. lia.
  - intros E. injection E as <-. lia.
Qed.

Lemma count_all_local t : forall l acc c,
  count_all t acc l = Ok c ->
  (c_total c - c_outstanding c
   = (c_total acc - c_outstanding acc) + local_bytes t l)%Z /\
  (c_tf c - c_ff c
   = (c_tf acc - c_ff acc) + Z.of_nat (local_files t l))%Z /\
  (c_ff acc <= c_ff c)%Z.
Proof.
  induction l as [| pm rest IH]; intros acc c H.
  - simpl in H. injection H as <-. unfold local_files. simpl. lia.
  - simpl in H. destruct (count_step t acc pm) as [acc' | e] eqn:E;
      [| discriminate].
    destruct (count_step_local t acc pm acc' E) as (H1 & H2 & H3).
    destruct (IH acc' c H) as (G1 & G2 & G3).
    unfold local_files in *. cbn [local_bytes filter].
    destruct (present_size t pm); cbn [List.length]; lia.
Qed.

Section ToFetch.
Context {listing : Listing}.

Lemma tofetch_data_rows suffix t : forall dirs data r,
  tofetch_data suffix t dirs = Ok data ->
  In r data ->
  exists d entries,
    In d dirs /\ is_dir (t d) = true /\
    path_meta suffix t (list_rchildren d) [] = Ok entries /\
    r_name r = name_of d /\
    r_local r = local_bytes t entries /\
    r_lf r = Z.of_nat (local_files t entries) /\
    (0 <= r_ff r)%Z.
Proof.
  induction dirs as [| d rest IH]; intros data r H Hin.
  - simpl in H. injection H as <-. destruct Hin.
  - simpl in H. destruct (is_dir (t d)) eqn:Hd; cbn [negb] in H.
    + destruct (path_meta suffix t (list_rchildren d) []) as [entries | e]
        eqn:Ep; [| discriminate].
      destruct (count_all t no_counts entries) as [c | e] eqn:Ec;
        [| discriminate].
      destruct (tofetch_data suffix t rest) as [rows | e] eqn:Er;
        [| discriminate].
      injection H as <-. destruct Hin as [<- | Hin].
      * exists d, entries.
        destruct (count_all_local t entries no_counts c Ec) as (G1 & G2 & G3).
        cbn in G1, G2, G3. cbn.
        repeat split; try assumption; try lia. now left.
      * destruct (IH rows r eq_refl Hin) as (d' & en & Hd' & Hrest).
        exists d', en. split; [now right | exact Hrest].
    + destruct (IH data r H Hin) as (d' & en & Hd' & Hrest).
      exists d', en. split; [now right | exact Hrest].
Qed.

(** X22: [report tofetch] counts and then cannot print.  A row of its data
    belongs to one of the directories given; its column `Local' is the
    sum of the cached sizes of the files that are on disk below that
    directory and its column `L' their number.  The table is never
    printed: the function raises for every input, and once the data is
    there the exception is [NameError] for the name [ext]. *)
Theorem tofetch_counts_then_name_error :
  forall hr suffix (t : Tree) cwd directory,
    (exists e, tofetch hr suffix t cwd directory = Raise e) /\
    (forall data,
        tofetch_data suffix t (requested_paths cwd directory) = Ok data ->
        tofetch hr suffix t cwd directory = Raise (NameError "ext") /\
        forall r, In r data ->
          exists d entries,
            In d (requested_paths cwd directory) /\ is_dir (t d) = true /\
            path_meta suffix t (list_rchildren d) [] = Ok entries /\
            r_name r = name_of d /\
            r_local r = local_bytes t entries /\
            r_lf r = Z.of_nat (local_files t entries) /\
            (0 <= r_ff r)%Z).
Proof.
  intros hr suffix t cwd directory. unfold tofetch.
  fold (requested_paths cwd directory). split.
  - destruct (tofetch_data suffix t (requested_paths cwd directory));
      now eexists.
  - intros data E. rewrite E. split; [reflexivity |].
    intros r Hr. exact (tofetch_data_rows suffix t _ data r E Hr).
Qed.

End ToFetch.

(** One file of 300 bytes on disk and one placeholder of 500: 300 bytes
    are local in one file, 500 are to retrieve. *)
Example tofetch_dataset_counts :
  @tofetch_data listing_dataset (fun _ => EmptyString) tree_dataset [["ds"]]
  = Ok [mkFetchRow "ds" 300 500 800 false 1 1 2 0] /\
  @tofetch listing_dataset (fun _ => "n") (fun _ => EmptyString) tree_dataset
    ["ds"] []
  = Raise (NameError "ext").
Proof. split; reflexivity. Qed.

(** ** goto *)

Lemma goto_no_match skip_cache remote_id cwd : forall rcs (s : St Tree),
  (forall q, In q rcs -> other_id (world s) remote_id q) ->
  exists lg,
    goto skip_cache remote_id cwd rcs s
    = (Ok tt, mkSt (world s) (logs s ++ lg) (stdout s) (trace s)).
Proof.
  induction rcs as [| rc rest IH]; intros s Hall.
  - exists []. simpl. unfold ret. rewrite app_nil_r. now destruct s.
  - cbn [goto]. unfold bind at 1. unfold path_state at 1.
    destruct (cache (world s rc)) as [c |] eqn:Hc.
    + assert (E : String.eqb (cache_id c) remote_id = false).
      { apply String.eqb_neq. now apply (Hall rc (or_introl eq_refl)). }
      rewrite E. apply IH. intros q Hq. apply Hall. now right.
    + destruct (skip_cache rc).
      * unfold bind at 1. unfold ret at 1.
        apply IH. intros q Hq. apply Hall. now right.
      * unfold bind at 1. unfold bind at 1. unfold log_msg at 1.
        unfold log_msg at 1.
        cbn [world logs stdout trace].
        destruct (IH (mkSt (world s)
                        ((logs s ++ [(CRITICAL, as_posix rc)]) ++
                         [(ERROR, "'NoneType' object has no attribute 'id'")])
                        (stdout s) (trace s))) as (lg & E).
        { intros q Hq. apply Hall. now right. }
        rewrite E. cbn [world logs stdout trace].
        eexists. rewrite <- !app_assoc. reflexivity.
Qed.

Lemma parent_below (cwd rel : path) :
  rel <> [] -> strip_prefix cwd (parent (cwd ++ rel)) = Some (removelast rel).
Proof.
  intros Hne. unfold parent. rewrite removelast_app by exact Hne.
  apply strip_prefix_same.
Qed.

(** X23: [goto] stops at the first path below the working directory whose
    cache has the remote id and prints one line: the path itself when it
    is a directory, the folder that holds it when it is a file or a
    placeholder, relative to the working directory.  Paths before it
    that have another id, or no cache at all, do not stop the search, and
    when no path has the id nothing is printed.  The tree is never
    changed. *)
Theorem goto_prints_first_match :
  forall skip_cache remote_id cwd pre (s : St Tree),
    (forall q, In q pre -> other_id (world s) remote_id q) ->
    (exists lg,
        goto skip_cache remote_id cwd pre s
        = (Ok tt, mkSt (world s) (logs s ++ lg) (stdout s) (trace s))) /\
    (forall p post c rel,
        cache (world s p) = Some c -> cache_id c = remote_id ->
        strip_prefix cwd p = Some rel -> rel <> [] ->
        exists lg,
          goto skip_cache remote_id cwd (pre ++ p :: post) s
          = (Ok tt,
             mkSt (world s) (logs s ++ lg)
                  (stdout s ++
                   [rel_posix (if is_broken_symlink (world s p)
                                  || ps_is_file (world s p)
                               then removelast rel else rel)])
                  (trace s))).
Proof.
  intros skip_cache remote_id cwd pre s Hpre.
  split; [now apply goto_no_match |].
  intros p post c rel Hc Hid Hrel Hne.
  revert s Hpre Hc.
  induction pre as [| rc rest IH]; intros s Hpre Hc.
  - exists []. cbn [app goto]. unfold bind at 1. unfold path_state at 1.
    rewrite Hc. apply String.eqb_eq in Hid. rewrite Hid.
    pose proof (strip_prefix_app _ _ _ Hrel) as Hp. subst p.
    destruct (is_broken_symlink (world s (cwd ++ rel))
              || ps_is_file (world s (cwd ++ rel))).
    + rewrite (parent_below cwd rel Hne).
      unfold print. now rewrite app_nil_r.
    + rewrite Hrel. unfold print. now rewrite app_nil_r.
  - cbn [app goto]. unfold bind at 1. unfold path_state at 1.
    destruct (cache (world s rc)) as [c' |] eqn:Hc'.
    + assert (E : String.eqb (cache_id c') remote_id = false).
      { apply String.eqb_neq. now apply (Hpre rc (or_introl eq_refl)). }
      rewrite E. apply IH; [| exact Hc]. intros q Hq. apply Hpre. now right.
    + destruct (skip_cache rc).
      * unfold bind at 1. unfold ret at 1.
        apply IH; [| exact Hc]. intros q Hq. apply Hpre. now right.
      * unfold bind at 1. unfold bind at 1. unfold log_msg at 1.
        unfold log_msg at 1.
        cbn [world logs stdout trace].
        destruct (IH (mkSt (world s)
                        ((logs s ++ [(CRITICAL, as_posix rc)]) ++
                         [(ERROR, "'NoneType' object has no attribute 'id'")])
                        (stdout s) (trace s))) as (lg & E).
        { intros q Hq. apply Hpre. now right. }
        { exact Hc. }
        rewrite E. cbn [world logs stdout trace].
        eexists. rewrite <- !app_assoc. reflexivity.
Qed.

Lemma goto_prints_first_match_witness :
  (exists lg,
      goto (fun _ => false) "N:package:h" ["data"] [["data"; "big.tif"]]
           (st_init tree_mixed)
      = (Ok tt, mkSt (world (st_init tree_mixed))
                     (logs (st_init tree_mixed) ++ lg)
                     (stdout (st_init tree_mixed))
                     (trace (st_init tree_mixed)))) /\
  (forall p post c rel,
      cache (world (st_init tree_mixed) p) = Some c ->
      cache_id c = "N:package:h" ->
      strip_prefix ["data"] p = Some rel -> rel <> [] ->
      exists lg,
        goto (fun _ => false) "N:package:h" ["data"]
             ([["data"; "big.tif"]] ++ p :: post) (st_init tree_mixed)
        = (Ok tt,
           mkSt (world (st_init tree_mixed))
                (logs (st_init tree_mixed) ++ lg)
                (stdout (st_init tree_mixed) ++
                 [rel_posix (if is_broken_symlink (world (st_init tree_mixed) p)
                                || ps_is_file (world (st_init tree_mixed) p)
                             then removelast rel else rel)])
                (trace (st_init tree_mixed)))).
Proof.
  apply (goto_prints_first_match (fun _ => false) "N:package:h" ["data"]
           [["data"; "big.tif"]] (st_init tree_mixed)).
  intros q [<- | []] c Hc. vm_compute in Hc. injection Hc as <-. discriminate.
Defined.

(** The file [here.tif] lies directly in the working directory: [goto]
    prints a dot. *)
Example goto_file_in_cwd :
  stdout (snd (goto (fun _ => false) "N:package:h" ["data"]
                 [["data"; "big.tif"]; ["data"; "here.tif"]]
                 (st_init tree_mixed)))
  = ["."].
Proof. reflexivity. Qed.

(** ** status *)

Section Status.
Context {lm : LocalMeta}.

Lemma status_loop_yields skip_cache (t : Tree) (all : list path) :
  forall files cm (s s' : St Tree) ys,
    world s = t ->
    (forall x, In x files -> In x all) ->
    (forall c, cm = Some (Some c) -> exists g, In g all /\ cached_as t g c) ->
    status_loop skip_cache false cm files s = (Ok ys, s') ->
    forall f l c, In (f, l, c) ys ->
      In f files /\
      (cached_as t f c \/
       (cache (t f) = None /\ skip_cache f = false /\
        exists g, In g all /\ cached_as t g c)).
Proof.
  induction files as [| x rest IH]; intros cm s s' ys Hw Hsub Hcm H f l c Hin.
  - simpl in H. unfold ret in H. injection H as <- _. destruct Hin.
  - cbn [status_loop] in H. unfold bind at 1 in H. unfold path_state at 1 in H.
    rewrite Hw in H.
    assert (Hrest : forall y, In y rest -> In y all)
      by (intros y Hy; apply Hsub; now right).
    assert (Hstep : forall cm1 tracked,
               (forall c1, cm1 = Some (Some c1) ->
                           exists g, In g all /\ cached_as t g c1) ->
               (forall c1, cm1 = Some (Some c1) ->
                           if tracked : bool then cached_as t x c1
                           else cache (t x) = None /\ skip_cache x = false) ->
               (bound <- local_var "cmeta" cm1 ;;
                c0 <- attr "checksum" bound ;;
                let lmeta := clear_ids (if truthy_checksum c0 then local_meta x
                                        else local_meta_no_checksum x) in
                if content_different lmeta c0 then
                  ys0 <- status_loop skip_cache false cm1 rest ;;
                  ret ((x, lmeta, c0) :: ys0)
                else status_loop skip_cache false cm1 rest) s = (Ok ys, s') ->
               In f (x :: rest) /\
               (cached_as t f c \/
                (cache (t f) = None /\ skip_cache f = false /\
                 exists g, In g all /\ cached_as t g c))).
    { intros cm1 tracked Hk Hx H1.
      destruct cm1 as [[c1 |] |]; [| discriminate | discriminate].
      unfold local_var, attr in H1. unfold bind at 1 in H1.
      unfold ret at 1 in H1. unfold bind at 1 in H1. unfold ret at 1 in H1.
      cbv zeta in H1.
      destruct (content_different _ c1).
      - bind_inv H1 as ys0 s1 E1. unfold ret in H1. injection H1 as <- _.
        destruct Hin as [Hin | Hin].
        + injection Hin as <- _ <-. split; [now left |].
          specialize (Hx c1 eq_refl). destruct tracked.
          * now left.
          * right. destruct Hx as [Hx1 Hx2]. repeat split; try assumption.
            now apply Hk.
        + destruct (IH (Some (Some c1)) s s1 ys0 Hw Hrest Hk E1 f l c Hin)
            as [Hf Hc]. split; [now right | exact Hc].
      - destruct (IH (Some (Some c1)) s s' ys Hw Hrest Hk H1 f l c Hin)
          as [Hf Hc]. split; [now right | exact Hc]. }
    destruct (cache (t x)) as [ca |] eqn:Hca.
    + apply (Hstep (Some (cache_meta ca)) true); [| | exact H].
      * intros c1 E. injection E as E. exists x.
        split; [apply Hsub; now left | now exists ca].
      * intros c1 E. injection E as E. now exists ca.
    + destruct (skip_cache x) eqn:Hsk.
      * destruct (IH cm s s' ys Hw Hrest Hcm H f l c Hin) as [Hf Hc].
        split; [now right | exact Hc].
      * apply (Hstep cm false); [exact Hcm | | exact H].
        intros c1 _. now split.
Qed.

(** X24: [status] may judge a file by the metadata of another.  When a file
    has no cache and is not ignored, the handler of [AttributeError]
    falls through and the comparison reads [cmeta] as the round before
    left it: every difference that is yielded pairs a file with its own
    cached metadata, or a file without cache with the cached metadata of
    another file of the run; and when such a file comes first the run
    ends in [UnboundLocalError]. *)
Theorem status_untracked_file_stale_metadata :
  forall skip_cache (files : list path) (s : St Tree),
    (forall s' ys f l c,
        status_loop skip_cache false None files s = (Ok ys, s') ->
        In (f, l, c) ys ->
        In f files /\
        (cached_as (world s) f c \/
         (cache (world s f) = None /\ skip_cache f = false /\
          exists g, In g files /\ cached_as (world s) g c))) /\
    (forall f rest opt_status,
        files = f :: rest ->
        cache (world s f) = None -> skip_cache f = false ->
        status_loop skip_cache opt_status None files s
        = (Raise (UnboundLocalError "cmeta"), s)).
Proof.
  intros skip_cache files s. split.
  - intros s' ys f l c H Hin.
    refine (status_loop_yields skip_cache (world s) files files None s s' ys
              eq_refl (fun x Hx => Hx) _ H f l c Hin).
    discriminate.
  - intros f rest opt_status -> Hc Hsk. cbn [status_loop].
    unfold bind at 1. unfold path_state at 1. rewrite Hc, Hsk. reflexivity.
Qed.

End Status.

(** The file [notes.txt] has no cache; it is reported as different from
    the cached metadata of [a.csv], the file before it. *)
Example status_stray_file_reported :
  fst (@status_loop sizes_only (fun _ => false) false None
         [["ds"; "a.csv"]; ["ds"; "notes.txt"]] (st_init tree_with_stray))
  = Ok [(["ds"; "notes.txt"],
         mkMeta None (Some 4%Z) None None None None,
         meta_at 1)] /\
  fst (@status_loop sizes_only (fun _ => false) false None
         [["ds"; "notes.txt"]; ["ds"; "a.csv"]] (st_init tree_with_stray))
  = Raise (UnboundLocalError "cmeta").
Proof. split; reflexivity. Qed.

(** * protocols_io_api.py *)

Lemma get_auth_code_outcome url formtext e p submitted manual (s : St unit) :
  fst (get_auth_code url (Some formtext) e p submitted manual s)
  = if truthy_string e && truthy_string p then
      match query_get "code" submitted with
      | Some code => Ok code
      | None => Raise (OtherError "KeyError: 'code'")
      end
    else
      match query_get "code" manual with
      | Some code => Ok code
      | None => Raise (SystemExit 10)
      end.
Proof.
  unfold get_auth_code, bind, print, ret, raise, sys_exit, raise.
  cbn [world logs stdout trace].
  destruct (truthy_string e), (truthy_string p); cbn [andb orb negb];
    try (destruct (query_get "code" submitted); reflexivity);
    destruct (query_get "code" manual) as [c |] eqn:Hq;
    cbn [world logs stdout trace]; rewrite ?Hq; reflexivity.
Qed.

(** X25: [get_auth_code] returns nothing but the value of [code] in the
    redirect it has read: that of the submitted form when both an email
    and a password were typed, that of the pasted url otherwise.  Without
    a code the two ways differ: the pasted url ends the program with
    status 10, the submitted form ends in [KeyError]. *)
Theorem get_auth_code_returns_the_code :
  forall url formtext e p submitted manual (s : St unit),
    (forall code,
        fst (get_auth_code url (Some formtext) e p submitted manual s) = Ok code ->
        query_get "code" (if truthy_string e && truthy_string p
                          then submitted else manual)
        = Some code) /\
    (truthy_string e && truthy_string p = true ->
     query_get "code" submitted = None ->
     fst (get_auth_code url (Some formtext) e p submitted manual s)
     = Raise (OtherError "KeyError: 'code'")) /\
    (truthy_string e && truthy_string p = false ->
     query_get "code" manual = None ->
     fst (get_auth_code url (Some formtext) e p submitted manual s)
     = Raise (SystemExit 10)) /\
    fst (get_auth_code url (Some formtext) e p submitted manual s)
    <> Raise (UnboundLocalError "params").
Proof.
  intros url formtext e p submitted manual s.
  rewrite get_auth_code_outcome.
  destruct (truthy_string e && truthy_string p).
  - destruct (query_get "code" submitted) as [c |].
    + repeat split; try discriminate. now intros code [= <-].
    + repeat split; try discriminate.
  - destruct (query_get "code" manual) as [c |].
    + repeat split; try discriminate. now intros code [= <-].
    + repeat split; try discriminate.
Qed.

(** * setup.py *)

Lemma string_strip_app pre : forall s, string_strip pre (pre ++ s) = Some s.
Proof.
  induction pre as [| a pre IH]; intros s; [now destruct s |].
  simpl. now rewrite Ascii.eqb_refl.
Qed.

Lemma before_newline_app v : forall rest,
  has_char newline_char v = false ->
  before_newline (v ++ rest) = (v ++ before_newline rest)%string.
Proof.
  induction v as [| c v IH]; intros rest Hv; [reflexivity |].
  simpl in Hv. apply orb_false_iff in Hv. destruct Hv as [Hc Hv].
  simpl. rewrite Hc. now rewrite IH.
Qed.

Lemma before_newline_end tail :
  has_char newline_char tail = false ->
  before_newline (tail ++ newline) = tail.
Proof.
  intros Ht. rewrite before_newline_app by exact Ht.
  unfold newline. simpl. apply string_app_nil_r.
Qed.

Lemma before_last_quote_none tail :
  has_char quote_char tail = false -> before_last_quote tail = None.
Proof.
  induction tail as [| c tail IH]; intros Ht; [reflexivity |].
  simpl in Ht. apply orb_false_iff in Ht. destruct Ht as [Hc Ht].
  simpl. now rewrite (IH Ht), Hc.
Qed.

Lemma before_last_quote_app v tail :
  has_char quote_char tail = false ->
  before_last_quote (v ++ String quote_char tail) = Some v.
Proof.
  intros Ht. induction v as [| c v IH]; simpl.
  - now rewrite (before_last_quote_none tail Ht).
  - now rewrite IH.
Qed.

Lemma find_version_skips before : forall rest,
  (forall l, In l before -> version_match l = None) ->
  find_version (before ++ rest) = find_version rest.
Proof.
  induction before as [| l before IH]; intros rest Hb; [reflexivity |].
  simpl. rewrite (Hb l (or_introl eq_refl)).
  apply IH. intros l' Hl'. apply Hb. now right.
Qed.

(** X26: [find_version] reads back the version that the first assignment
    line holds, whatever it is: a version [v] without a newline, written
    between quotes and followed on its line by text without a quote, is
    returned as it is, quotes inside it included, and lines before it
    that do not match are passed over. *)
Theorem find_version_round_trip :
  forall before after v tail,
    (forall l, In l before -> version_match l = None) ->
    has_char newline_char v = false ->
    has_char newline_char tail = false ->
    has_char quote_char tail = false ->
    find_version (before ++ version_line v tail :: after) = Some v.
Proof.
  intros before after v tail Hb Hv Hn Hq.
  rewrite (find_version_skips before _ Hb). cbn [find_version].
  assert (E : version_match (version_line v tail) = Some v).
  { unfold version_match, version_line. rewrite string_strip_app.
    rewrite before_newline_app by exact Hv.
    change (String quote_char tail ++ newline)%string
      with (String quote_char (tail ++ newline)).
    cbn [before_newline].
    change (Ascii.eqb quote_char newline_char) with false. cbv iota.
    rewrite (before_newline_end tail Hn).
    now apply before_last_quote_app. }
  now rewrite E.
Qed.

Lemma find_version_round_trip_witness :
  find_version ([("import re" ++ newline)%string] ++
                version_line "0.0.1'rc" "  # bump" ::
                [version_line "9.9" EmptyString])
  = Some "0.0.1'rc".
Proof.
  apply (find_version_round_trip [("import re" ++ newline)%string]
           [version_line "9.9" EmptyString] "0.0.1'rc" "  # bump").
  - intros l [<- | []]. reflexivity.
  - reflexivity.
  - reflexivity.
  - reflexivity.
Defined.

(** ** pull: what is left of the bootstraps *)

Section PullCaches.
Context {W : Type} {ops : PullOps W}.

(** A round of the loop either passes the directory over, and [caches]
    is what it was, or assigns [caches] without reading it. *)
Lemma pull_dir_forgets args only skips d (s : St (PullWorld W)) c c' :
  (exists s1, pull_dir args only skips c d s = (Ok c, s1) /\
              pull_dir args only skips c' d s = (Ok c', s1)) \/
  pull_dir args only skips c d s = pull_dir args only skips c' d s.
Proof.
  unfold pull_dir, bind, get_tree.
  destruct (opt_empty args &&
            match children_of (tree_of (world s)) d with
            | [] => false
            | _ :: _ => true
            end).
  { left. now exists s. }
  destruct (negb (pull_is_dir (tree_of (world s)) d)); [now right |].
  destruct ((if remote_is_dataset_or_organization (tree_of (world s)) d
             then ret tt
             else log_msg WARNING
                    "You are pulling recursively from below dataset level.") s)
    as [[[] | e] s0]; [| now right].
  destruct (attr "refresh" (cache_of (tree_of (world s)) d) s0)
    as [[c0 | e] s1]; [| now right].
  destruct (lift_op (cache_refresh c0) s1) as [[[nc |] | e] s2].
  - now right.
  - left. now exists s2.
  - now right.
Qed.

Lemma pull_dirs_forgets args only skips : forall dirs (s : St (PullWorld W)) c c',
  (exists s1, pull_dirs args only skips c dirs s = (Ok c, s1) /\
              pull_dirs args only skips c' dirs s = (Ok c', s1)) \/
  pull_dirs args only skips c dirs s = pull_dirs args only skips c' dirs s.
Proof.
  induction dirs as [| d rest IH]; intros s c c'.
  - left. now exists s.
  - cbn [pull_dirs]. unfold bind.
    destruct (pull_dir_forgets args only skips d s c c')
      as [(s1 & E & E') | E].
    + rewrite E, E'. apply IH.
    + rewrite E. now right.
Qed.

Lemma pull_dirs_app args only skips : forall pre post (s : St (PullWorld W)) c,
  pull_dirs args only skips c (pre ++ post) s
  = match pull_dirs args only skips c pre s with
    | (Ok c1, s1) => pull_dirs args only skips c1 post s1
    | (Raise e, s1) => (Raise e, s1)
    end.
Proof.
  induction pre as [| d rest IH]; intros post s c; [reflexivity |].
  cbn [app pull_dirs]. unfold bind.
  destruct (pull_dir args only skips c d s) as [[c1 | e] s1];
    [apply IH | reflexivity].
Qed.

(** X13: Of several directories [pull] keeps the bootstrap of the last one
    only: the local [caches] is assigned in each round and never merged,
    so when the directories after some point bootstrap anything, what is
    handed on to the comparison with the existing paths is what those
    directories alone give, and the results for the directories before
    them are dropped. *)
Theorem pull_keeps_last_bootstrap :
  forall args only skips pre post (s s1 s2 : St (PullWorld W)) c1 cs,
    pull_dirs args only skips None pre s = (Ok c1, s1) ->
    pull_dirs args only skips None post s1 = (Ok (Some cs), s2) ->
    pull_dirs args only skips None (pre ++ post) s = (Ok (Some cs), s2).
Proof.
  intros args only skips pre post s s1 s2 c1 cs Hpre Hpost.
  rewrite pull_dirs_app, Hpre.
  destruct (pull_dirs_forgets args only skips post s1 c1 None)
    as [(s3 & _ & E) | E].
  - rewrite E in Hpost. discriminate.
  - now rewrite E.
Qed.

End PullCaches.

Lemma pull_keeps_last_bootstrap_witness :
  @pull_dirs unit pull_two args_default [] [] None
    ([["org"; "ds1"]] ++ [["org"; "ds2"]]) pull_start
  = (Ok (Some [Some ds2]), pull_start).
Proof.
  apply (pull_keeps_last_bootstrap (ops := pull_two) args_default [] []
           [["org"; "ds1"]] [["org"; "ds2"]] pull_start pull_start pull_start
           (Some [Some ds1]) [Some ds2]).
  - reflexivity.
  - reflexivity.
Defined.

(** ** stash: the new anchor *)

Section StashAnchor.
Context {order : SetOrder} {copy : CopyLayer}.

Lemma anchor_not_new_anchor (a : Anchor) ts :
  anchor_local a <> new_anchor_of a ts.
Proof.
  intros E. apply (f_equal (@List.length string)) in E.
  unfold anchor_local, new_anchor_of, stash_base in E.
  rewrite !length_app in E. simpl in E. lia.
Qed.

(** X17: A stash is an anchor of its own: when the stash returns, the new
    directory carries the anchor marker and the metadata record of the
    project's anchor, which is still in place, and the list returned is
    the content of the new directory. *)
Theorem stash_new_anchor_carries_metadata :
  forall args (a : Anchor) ts f paths (s s' : St FS) r,
    opt_restore args = false ->
    stash args a ts f paths s = (Ok r, s') ->
    exists n am,
      fs_get (world s') (anchor_local a) = Some n /\
      node_meta n = Some am /\
      fs_get (world s') (new_anchor_of a ts) = Some (NDir (Some am) true) /\
      r = Some (rchildren (world s') (new_anchor_of a ts)).
Proof.
  intros args a ts f paths s s' r Hres H. unfold stash in H.
  bind_inv H as l s1 E1. rewrite Hres in H.
  bind_inv H as u2 s2 E2. destruct u2.
  bind_inv H as am s3 E3.
  apply cache_meta_of_inv in E3. destruct E3 as [-> (n & Hn & Hm)].
  bind_inv H as u4 s4 E4. destruct u4.
  bind_inv H as u5 s5 E5. destruct u5.
  unfold bind, get_world, ret in H. injection H as <- <-.
  assert (Hnew2 : fs_get (world s2) (new_anchor_of a ts) = Some (NDir None false)).
  { unfold mkdir_parents in E2. bind_inv E2 as u0 s0 E0.
    apply mkdir_inv in E2. destruct E2 as [_ ->]. apply fs_get_put_same. }
  apply cache_init_inv in E4. destruct E4 as (n0 & Hn0 & Hw4).
  rewrite Hnew2 in Hn0. injection Hn0 as <-. cbn [orb] in Hw4.
  assert (Hnew4 : has_node (new_anchor_of a ts) (NDir (Some am) true) s4).
  { unfold has_node. rewrite Hw4. apply fs_get_put_same. }
  assert (Hanc4 : has_node (anchor_local a) n s4).
  { unfold has_node. rewrite Hw4, fs_get_put_other; [exact Hn |].
    apply anchor_not_new_anchor. }
  assert (P : forall q m, has_node q m s4 -> has_node q m s5).
  { intros q m Hq.
    assert (Pl : preserves (has_node q m)
                   (for_each (tl l) (stash_one a (new_anchor_of a ts) f))).
    { apply preserves_for_each. intros sp _. apply stash_one_keeps. }
    specialize (Pl s4 Hq). now rewrite E5 in Pl. }
  exists n, am. repeat split.
  - exact (P _ _ Hanc4).
  - exact Hm.
  - exact (P _ _ Hnew4).
Qed.

End StashAnchor.

Lemma stash_new_anchor_carries_metadata_witness :
  exists n am,
    fs_get (world stashed_one_file) (anchor_local proj_anchor) = Some n /\
    node_meta n = Some am /\
    fs_get (world stashed_one_file) (new_anchor_of proj_anchor "2019")
    = Some (NDir (Some am) true) /\
    Some [["r"; "stash"; "2019"; "proj"; "b.txt"]]
    = Some (rchildren (world stashed_one_file) (new_anchor_of proj_anchor "2019")).
Proof.
  apply (stash_new_anchor_carries_metadata (order := in_order)
           (copy := faithful_copy) args_stash proj_anchor "2019"
           (fun m => Ok m) [["r"; "proj"; "b.txt"]] (st_init fs_one_file)
           stashed_one_file (Some [["r"; "stash"; "2019"; "proj"; "b.txt"]])).
  - reflexivity.
  - vm_compute. reflexivity.
Defined.

(** * Runs on the example inputs *)

(** Without the secret of the project [clone] prints one line and exits
    with status 11. *)
Example clone_without_secret :
  @clone no_secret (fun _ => ret tt) args_clone ["home"] (st_init fs_free)
  = (Raise (SystemExit 11),
     mkSt fs_free [] ["missing api secret entry for N:organization:1"] []).
Proof. reflexivity. Qed.

(** The dataset [ds1] is gone from the remote: [pull] of the
    organization announces a move to [None] and ends in
    [AttributeError], with the rename log as it was. *)
Example pull_organization_with_deleted_dataset :
  fst (@pull unit pull_child_deleted _ _ args_default false ["org"] [] pull_start)
  = Raise (AttributeError "id") /\
  renames_log (world (snd (@pull unit pull_child_deleted _ _ args_default false
                             ["org"] [] pull_start)))
  = renames_log (world pull_start) /\
  info_records (logs (snd (@pull unit pull_child_deleted _ _ args_default false
                             ["org"] [] pull_start)))
  = [moved_message ds1 None].
Proof. repeat split. Qed.

(** Outside a project [status] prints where it is and exits with status
    111; inside, only files are compared. *)
Example status_outside_and_inside :
  @status sizes_only listing_dataset (fun _ => false) false ["ds"] None
    (st_init tree_with_stray)
  = (Raise (SystemExit 111),
     mkSt tree_with_stray [] ["/ds is not in a project!"] []) /\
  fst (@status sizes_only listing_dataset (fun _ => false) false ["ds"]
         (Some ["ds"]) (st_init tree_dataset))
  = Ok [(["ds"; "here.tif"],
         mkMeta None (Some 0%Z) None None None None,
         mkMeta (Some "N:package:h") (Some 300%Z) None (Some 8%Z) None None)].
Proof. split; reflexivity. Qed.

(** With no path given the walk starts at the working directory, and
    the directories and the other paths of the walk are told apart. *)
Example paths_of_working_directory :
  paths_of tree_small (args_level None false) false false (fun _ => [])
           ["d"] []
  = ([["d"]; ["d"; "e"]; ["d"; "f.csv"]], None) /\
  dirs_among tree_small
    (paths_of tree_small (args_level None false) false false (fun _ => [])
              ["d"] [])
  = ([["d"]; ["d"; "e"]], None) /\
  not_dirs_among tree_small
    (paths_of tree_small (args_level None false) false false (fun _ => [])
              ["d"] [])
  = ([["d"; "f.csv"]], None).
Proof. repeat split. Qed.
